(** * Bert-VITS2 (litagin) Japanese G2P: a shallow embedding of
    [style_bert_vits2/nlp/japanese/g2p.py] and the properties of its
    phoneme / tone / word2ph pipeline.

    Python values are modelled as follows.
    - [int] is [Z]; list indices and loop counters that never go negative
      are [nat].
    - [str] is [string], holding the UTF-8 encoding of the text; [py_chars]
      splits it into its code points, so that [len], indexing and slicing
      count characters the way Python does.
    - [list] is [list]; in-place updates [l[i] = v] are stdpp's [<[i:=v]>],
      used only where the index is in range.
    - a raised exception is the [Raise] branch of [result]. *)

From Stdlib Require Import ZArith Lia Ascii String.
From stdpp Require Import base tactics option list strings gmap.

Local Open Scope string_scope.
Local Open Scope Z_scope.
Local Open Scope list_scope.

(** ** Exceptions *)

Inductive pyerr : Type :=
| AssertionError
| ValueError
| IndexError
| KeyError
| YomiError.

Inductive result (A : Type) : Type :=
| OK (a : A)
| Raise (e : pyerr).
Arguments OK {A} a.
Arguments Raise {A} e.

#[global] Instance pyerr_eq_dec : EqDecision pyerr.
Proof. solve_decision. Defined.

#[global] Instance result_ret : MRet result := λ A a, OK a.
#[global] Instance result_bind : MBind result :=
  λ A B f m, match m with OK a => f a | Raise e => Raise e end.

(** [for x in l: s = body(s, x)] where the body may raise. *)
Fixpoint for_each {A S : Type} (l : list A) (body : S → A → result S) (s : S)
  : result S :=
  match l with
  | [] => OK s
  | x :: l' => s' ← body s x; for_each l' body s'
  end.

(** [assert c] *)
Definition py_assert (c : bool) : result unit :=
  if c then OK tt else Raise AssertionError.

(** ** Lists and slices *)

(** Python's normalisation of a slice bound against a length. *)
Definition slice_bound (len i : Z) : nat :=
  Z.to_nat (if decide (i < 0) then Z.max (i + len) 0 else Z.min i len).

(** [l[lo:hi]] *)
Definition py_slice {A : Type} (l : list A) (lo hi : Z) : list A :=
  let len := Z.of_nat (length l) in
  let a := slice_bound len lo in
  let b := slice_bound len hi in
  take (b - a)%nat (drop a l).

(** [l[lo:]] *)
Definition py_slice_from {A : Type} (l : list A) (lo : Z) : list A :=
  drop (slice_bound (Z.of_nat (length l)) lo) l.

(** [l[i]] with Python's negative indices; [IndexError] out of range. *)
Definition py_get {A : Type} (l : list A) (i : Z) : result A :=
  let len := Z.of_nat (length l) in
  let k := if decide (i < 0) then i + len else i in
  if decide (k < 0) then Raise IndexError
  else match l !! Z.to_nat k with
       | Some x => OK x
       | None => Raise IndexError
       end.

(** [sum(l)] *)
Definition py_sum (l : list Z) : Z := foldr Z.add 0 l.
Arguments py_sum : simpl never.

(** [len(l)] as a Python int. *)
Definition py_len {A : Type} (l : list A) : Z := Z.of_nat (length l).

(** [min(l)]; [ValueError] on the empty list. *)
Definition py_min (l : list Z) : result Z :=
  match l with
  | [] => Raise ValueError
  | x :: l' => OK (foldl Z.min x l')
  end.

(** [l.index(v)]: the first position holding [v]. *)
Fixpoint py_index (v : Z) (l : list Z) : result nat :=
  match l with
  | [] => Raise ValueError
  | x :: l' => if decide (x = v) then OK 0%nat
               else i ← py_index v l'; OK (S i)
  end.

(** ** Strings *)

(** A UTF-8 continuation byte, [10xxxxxx]. *)
Definition utf8_cont (a : ascii) : bool :=
  let n := nat_of_ascii a in (128 <=? n)%nat && (n <? 192)%nat.

(** The characters (code points) of a string, each as its own string. *)
Fixpoint py_chars (s : string) : list string :=
  match s with
  | EmptyString => []
  | String a s' =>
      match s' with
      | String b _ =>
          if utf8_cont b then
            match py_chars s' with
            | c :: cs => String a c :: cs
            | [] => [String a EmptyString]
            end
          else String a EmptyString :: py_chars s'
      | EmptyString => [String a EmptyString]
      end
  end.

(** [''.join(l)] *)
Definition py_join (l : list string) : string := foldr String.append "" l.

(** [x in l] for a list, tuple or set of strings. *)
Definition str_in (x : string) (l : list string) : bool := bool_decide (x ∈ l).

(** ** 4.6 Word2Ph distributor: [__distribute_phone] *)

(** One turn of the loop body:
    [min_tasks = min(phones_per_word)],
    [min_index = phones_per_word.index(min_tasks)],
    [phones_per_word[min_index] += 1]. *)
Definition distribute_step (phones_per_word : list Z) : result (list Z) :=
  min_tasks ← py_min phones_per_word;
  min_index ← py_index min_tasks phones_per_word;
  OK (<[min_index := min_tasks + 1]> phones_per_word).

(** [for _ in range(n)]: the body run [n] times. *)
Fixpoint repeat_body {S : Type} (n : nat) (body : S → result S) (s : S)
  : result S :=
  match n with
  | O => OK s
  | S n' => s' ← body s; repeat_body n' body s'
  end.

Definition __distribute_phone (n_phone n_word : Z) : result (list Z) :=
  let phones_per_word := replicate (Z.to_nat n_word) 0 in
  repeat_body (Z.to_nat n_phone) distribute_step phones_per_word.

(** ** 4.5 Punctuation-aware tone aligner: [__align_tones] *)

Section AlignTones.
Context (PUNCTUATIONS : list string).

(** The loop state is [(result, tone_index)]. *)
Definition align_step (phone_tone_list : list (string * Z))
    (st : list (string * Z) * nat) (phone : string)
  : result (list (string * Z) * nat) :=
  let '(res, tone_index) := st in
  if decide (length phone_tone_list ≤ tone_index)%nat then
    OK (res ++ [(phone, 0)], tone_index)
  else
    match phone_tone_list !! tone_index with
    | Some (p, t) =>
        if decide (phone = p) then OK (res ++ [(phone, t)], S tone_index)
        else if str_in phone PUNCTUATIONS then
          OK (res ++ [(phone, 0)], tone_index)
        else Raise ValueError
    | None => Raise IndexError
    end.

Definition __align_tones (phones_with_punct : list string)
    (phone_tone_list : list (string * Z)) : result (list (string * Z)) :=
  st ← for_each phones_with_punct (align_step phone_tone_list) ([], 0%nat);
  OK st.1.

(** The aligner as section 4.5 of the specification words it: a cursor [i]
    over the tone list, one output pair per phoneme. *)
Fixpoint align_spec (phones : list string) (tone_list : list (string * Z))
    (i : nat) : result (list (string * Z)) :=
  match phones with
  | [] => OK []
  | ph :: phones' =>
      match tone_list !! i with
      | None =>
          rest ← align_spec phones' tone_list i; OK ((ph, 0) :: rest)
      | Some (p, t) =>
          if decide (ph = p) then
            rest ← align_spec phones' tone_list (S i); OK ((ph, t) :: rest)
          else if str_in ph PUNCTUATIONS then
            rest ← align_spec phones' tone_list i; OK ((ph, 0) :: rest)
          else Raise ValueError
      end
  end.
End AlignTones.

(** ** 4.2 Accent-phrase tone normalisation: [__fix_phone_tone] *)

(** A normalized tone: 0 (low) or 1 (high). *)
Definition binary_tone (t : Z) : Prop := t = 0 ∨ t = 1.

(** [set(tone for _, tone in phone_tone_list)] *)
Definition tone_values (phone_tone_list : list (string * Z)) : gset Z :=
  list_to_set (phone_tone_list.*2).

Definition __fix_phone_tone (phone_tone_list : list (string * Z))
  : result (list (string * Z)) :=
  let tv := tone_values phone_tone_list in
  if decide (size tv = 1%nat) then
    _ ← py_assert (bool_decide (tv = {[0]}));
    OK phone_tone_list
  else if decide (size tv = 2%nat) then
    if decide (tv = {[0; 1]}) then OK phone_tone_list
    else if decide (tv = {[-1; 0]}) then
      OK (map (λ '(letter, tone),
                 (letter, if decide (tone = -1) then 0 else 1))
              phone_tone_list)
    else Raise ValueError
  else Raise ValueError.

(** The map of the [{-1, 0}] case, on a pair. *)
Definition shift_tone (pt : string * Z) : string * Z :=
  (pt.1, if decide (pt.2 = -1) then 0 else 1).

(** ** 4.8 Phoneme-count reconciler: [adjust_word2ph] *)

(** [class DiffDetail(TypedDict)] *)
Record DiffDetail : Type := mkDiffDetail {
  begin_index : Z;
  end_index : Z;
  value : list string;
}.

(** [class Diff(TypedDict)] *)
Record Diff : Type := mkDiff {
  generated : DiffDetail;
  given : DiffDetail;
}.

#[global] Instance DiffDetail_eq_dec : EqDecision DiffDetail.
Proof. solve_decision. Defined.
#[global] Instance Diff_eq_dec : EqDecision Diff.
Proof. solve_decision. Defined.

(** *** [longest_common_subsequence] *)

(** Row [i] of the table [L], columns [1..n], filled left to right from row
    [i - 1]: [prev] is row [i - 1] from column [j - 1] on and [left] is
    [L[i][j - 1]].
    [L[i][j] = L[i-1][j-1] + 1 if X[i-1] == Y[j-1]
               else max(L[i-1][j], L[i][j-1])]. *)
Fixpoint lcs_row (x : string) (Y : list string) (prev : list nat) (left : nat)
  : list nat :=
  match Y, prev with
  | y :: Y', diag :: ((up :: _) as prev') =>
      let v := if decide (x = y) then S diag else Nat.max up left in
      v :: lcs_row x Y' prev' v
  | _, _ => []
  end.

(** Rows [1..m], each with its column 0 (which stays 0). *)
Fixpoint lcs_rows (X Y : list string) (prev : list nat) : list (list nat) :=
  match X with
  | [] => []
  | x :: X' =>
      let row := 0%nat :: lcs_row x Y prev 0%nat in
      row :: lcs_rows X' Y row
  end.

(** [L = [[0] * (n + 1) for _ in range(m + 1)]] after the two nested loops. *)
Definition lcs_table (X Y : list string) : list (list nat) :=
  let row0 := replicate (S (length Y)) 0%nat in
  row0 :: lcs_rows X Y row0.

(** [L[i][j]] *)
Definition tbl (L : list (list nat)) (i j : nat) : nat :=
  default 0%nat (L !! i ≫= λ row, row !! j).

(** The trace back [while i > 0 and j > 0], giving [index_pairs] in the
    order in which they are appended.  Every turn lowers [i + j], so
    [fuel = i + j] turns are enough. *)
Fixpoint lcs_trace (fuel : nat) (X Y : list string) (L : list (list nat))
    (i j : nat) : list (nat * nat) :=
  match fuel with
  | O => []
  | S fuel' =>
      if decide (0 < i ∧ 0 < j)%nat then
        if decide (X !! (i - 1)%nat = Y !! (j - 1)%nat) then
          ((i - 1)%nat, (j - 1)%nat)
            :: lcs_trace fuel' X Y L (i - 1) (j - 1)
        else if decide (tbl L i (j - 1) ≤ tbl L (i - 1) j)%nat then
          lcs_trace fuel' X Y L (i - 1) j
        else
          lcs_trace fuel' X Y L i (j - 1)
      else []
  end.

Definition longest_common_subsequence (X Y : list string) : list (nat * nat) :=
  let m := length X in
  let n := length Y in
  let L := lcs_table X Y in
  reverse (lcs_trace (m + n) X Y L m n).

(** *** [extract_differences] *)

(** [if diff_X or diff_Y]: both are dicts with three keys, hence truthy. *)
Definition dict_truthy (d : DiffDetail) : bool := true.

(** The loop over [common_indices]; the state is
    [(differences, prev_x, prev_y)]. *)
Definition common_step (generated_phone given_phone : list string)
    (st : list Diff * Z * Z) (xy : nat * nat) : list Diff * Z * Z :=
  let '(differences, prev_x, prev_y) := st in
  let x := Z.of_nat xy.1 in
  let y := Z.of_nat xy.2 in
  let diff_X := mkDiffDetail (prev_x + 1) x
                  (py_slice generated_phone (prev_x + 1) x) in
  let diff_Y := mkDiffDetail (prev_y + 1) y
                  (py_slice given_phone (prev_y + 1) y) in
  let differences' :=
    if dict_truthy diff_X || dict_truthy diff_Y
    then differences ++ [mkDiff diff_X diff_Y] else differences in
  (differences', x, y).

(** [differences.remove(diff)]: drops the first element equal to [diff]. *)
Fixpoint list_remove_first (d : Diff) (l : list Diff) : result (list Diff) :=
  match l with
  | [] => Raise ValueError
  | x :: l' => if decide (x = d) then OK l'
               else r ← list_remove_first d l'; OK (x :: r)
  end.

Definition both_empty (d : Diff) : bool :=
  bool_decide (length (value (generated d)) = 0%nat)
  && bool_decide (length (value (given d)) = 0%nat).

(** [for diff in differences[:]: if ...: differences.remove(diff)] *)
Definition prune_empty (differences : list Diff) : result (list Diff) :=
  for_each differences
    (λ acc diff, if both_empty diff then list_remove_first diff acc else OK acc)
    differences.

Definition extract_differences (generated_phone given_phone : list string)
  : result (list Diff) :=
  let common_indices := longest_common_subsequence generated_phone given_phone in
  let '(differences, prev_x, prev_y) :=
    foldl (common_step generated_phone given_phone) ([], -1, -1)
          common_indices in
  let differences :=
    if decide (prev_x < py_len generated_phone - 1
               ∨ prev_y < py_len given_phone - 1)
    then differences ++
         [mkDiff
            (mkDiffDetail (prev_x + 1) (py_len generated_phone - 1)
               (py_slice generated_phone (prev_x + 1)
                         (py_len generated_phone - 1)))
            (mkDiffDetail (prev_y + 1) (py_len given_phone - 1)
               (py_slice given_phone (prev_y + 1) (py_len given_phone - 1)))]
    else differences in
  prune_empty differences.

(** *** The replay of [generated_phone] over the slots of [word2ph] *)

(** [for diff in differences: if diff["generated"]["begin_index"] ==
    current_generated_index: current_diff = diff; break] *)
Fixpoint find_diff (differences : list Diff) (current_generated_index : Z)
  : option Diff :=
  match differences with
  | [] => None
  | diff :: differences' =>
      if decide (begin_index (generated diff) = current_generated_index)
      then Some diff
      else find_diff differences' current_generated_index
  end.

(** [diff_in_phonemes] *)
Definition diff_in_phonemes (current_diff : Diff) : Z :=
  py_len (value (given current_diff)) - py_len (value (generated current_diff)).

(** One turn of [for _ in range(word2ph_element)]; the state is
    [(adjusted_word2ph, current_generated_index)]. *)
Definition replay_phone (differences : list Diff) (word2ph_element_index : nat)
    (st : list Z * Z) : list Z * Z :=
  let '(adjusted_word2ph, current_generated_index) := st in
  let adjusted_word2ph :=
    match find_diff differences current_generated_index with
    | Some current_diff =>
        alter (λ v, v + diff_in_phonemes current_diff)
              word2ph_element_index adjusted_word2ph
    | None => adjusted_word2ph
    end in
  (alter (λ v, v + 1) word2ph_element_index adjusted_word2ph,
   current_generated_index + 1).

(** One turn of [for word2ph_element_index, word2ph_element in
    enumerate(word2ph)]. *)
Definition replay_slot (differences : list Diff) (st : list Z * Z)
    (ie : nat * Z) : list Z * Z :=
  Nat.iter (Z.to_nat ie.2) (replay_phone differences ie.1) st.

(** [adjusted_word2ph] as it stands when the assertion is reached. *)
Definition provisional_word2ph (differences : list Diff) (word2ph : list Z)
  : list Z :=
  (foldl (replay_slot differences)
         (replicate (length word2ph) 0, 0)
         (imap (λ i e, (i, e)) word2ph)).1.

(** *** The two sweeps *)

(** [for i in range(1, len(adjusted_word2ph))] of the first sweep, with
    [offsets] the values of [i] still to come. *)
Fixpoint repay_shortfall (idx : nat) (offsets : list nat) (a : list Z) (diff : Z)
  : list Z :=
  match offsets with
  | [] => a
  | i :: offsets' =>
      match a !! (idx + i)%nat with
      | None => a
      | Some v =>
          if decide (v - diff >= 1) then <[(idx + i)%nat := v - diff]> a
          else
            let diff' := diff - (v - 1) in
            let a' := <[(idx + i)%nat := 1]> a in
            if decide (diff' = 0) then a' else repay_shortfall idx offsets' a' diff'
      end
  end.

(** The body of the first sweep at slot [idx]; the element is read from the
    list as it stands, the way a list iterator does. *)
Definition raise_slot (a : list Z) (idx : nat) : list Z :=
  match a !! idx with
  | Some e =>
      if decide (e < 1) then
        repay_shortfall idx (seq 1 (length a - 1)) (<[idx := 1]> a) (1 - e)
      else a
  | None => a
  end.

Definition sweep_low (a : list Z) : list Z :=
  foldl raise_slot a (seq 0 (length a)).

Fixpoint push_surplus (idx : nat) (offsets : list nat) (a : list Z) (diff : Z)
  : list Z :=
  match offsets with
  | [] => a
  | i :: offsets' =>
      match a !! (idx + i)%nat with
      | None => a
      | Some v =>
          if decide (v + diff <= 6) then <[(idx + i)%nat := v + diff]> a
          else
            let diff' := diff - (6 - v) in
            let a' := <[(idx + i)%nat := 6]> a in
            if decide (diff' = 0) then a' else push_surplus idx offsets' a' diff'
      end
  end.

Definition cap_slot (a : list Z) (idx : nat) : list Z :=
  match a !! idx with
  | Some e =>
      if decide (e > 6) then
        push_surplus idx (seq 1 (length a - 1)) (<[idx := 6]> a) (e - 6)
      else a
  | None => a
  end.

Definition sweep_high (a : list Z) : list Z :=
  foldl cap_slot a (seq 0 (length a)).

(** [adjust_word2ph] up to its assertion: the provisional counts. *)
Definition adjusted_before_assert (word2ph : list Z)
    (generated_phone given_phone : list string) : result (list Z) :=
  let word2ph := py_slice word2ph 1 (-1) in
  let generated_phone := py_slice generated_phone 1 (-1) in
  let given_phone := py_slice given_phone 1 (-1) in
  differences ← extract_differences generated_phone given_phone;
  OK (provisional_word2ph differences word2ph).

Definition adjust_word2ph (word2ph : list Z)
    (generated_phone given_phone : list string) : result (list Z) :=
  adjusted_word2ph ←
    adjusted_before_assert word2ph generated_phone given_phone;
  _ ← py_assert (bool_decide (py_len (py_slice given_phone 1 (-1))
                              = py_sum adjusted_word2ph));
  let adjusted_word2ph := sweep_low adjusted_word2ph in
  let adjusted_word2ph := sweep_high adjusted_word2ph in
  OK ([1] ++ adjusted_word2ph ++ [1]).

(** What the first sweep may do to a slot holding [x]: a slot below 1 is
    left alone or raised to exactly 1; a slot at or above 1 is only ever
    lowered, and never below 1. *)
Definition low_ok (x y : Z) : Prop :=
  (x < 1 → y = x ∨ y = 1) ∧ (1 ≤ x → 1 ≤ y ≤ x).

(** What the second sweep may do to a slot holding [x]: a slot above 6 is
    left alone or capped to exactly 6; a slot at or below 6 is only ever
    raised, and never above 6. *)
Definition high_ok (x y : Z) : Prop :=
  (6 < x → y = x ∨ y = 6) ∧ (x ≤ 6 → x ≤ y ≤ 6).

(** What the first [k] slots hold. *)
Definition prefix_sum (l : list Z) (k : nat) : Z := py_sum (take k l).

(** The first sweep under way on the counts [a]: [b] is the list as it
    stands, [d] the shortfall still to be deducted from the slots at [p]
    and after.  Counted from the left, the slots hold at least what they
    held, and hold more than the shortfall in transit accounts for only
    when the last of them is at exactly 1. *)
Definition owes_low (a b : list Z) (p : nat) (d : Z) : Prop :=
  length b = length a ∧
  (∀ k : nat, prefix_sum a k + (if decide (p ≤ k)%nat then d else 0)
              ≤ prefix_sum b k) ∧
  (∀ k : nat, (k < length a)%nat →
     prefix_sum a (S k) + (if decide (p ≤ k)%nat then d else 0)
     < prefix_sum b (S k) →
     b !! k = Some 1).

(** The second sweep under way, with [d] the surplus still to be pushed
    into the slots at [p] and after. *)
Definition owes_high (a b : list Z) (p : nat) (d : Z) : Prop :=
  length b = length a ∧
  (∀ k : nat, prefix_sum b k + (if decide (p ≤ k)%nat then d else 0)
              ≤ prefix_sum a k) ∧
  (∀ k : nat, (k < length a)%nat →
     prefix_sum b (S k) + (if decide (p ≤ k)%nat then d else 0)
     < prefix_sum a (S k) →
     b !! k = Some 6).

(** *** Notions used to reason about the reconciler *)

(** [chain px py ps qx qy]: starting after the pair [(px, py)], the index
    pairs [ps] take consecutive first components and strictly increasing
    second components, and end at [(qx, qy)]. *)
Inductive chain : Z → Z → list (nat * nat) → Z → Z → Prop :=
| chain_nil px py : chain px py [] px py
| chain_cons px py x y ps qx qy :
    Z.of_nat x = px + 1 → py < Z.of_nat y →
    chain (Z.of_nat x) (Z.of_nat y) ps qx qy →
    chain px py ((x, y) :: ps) qx qy.

(** The differences that [prune_empty] keeps. *)
Definition not_both_empty (d : Diff) : Prop := both_empty d = false.

#[global] Instance not_both_empty_dec d : Decision (not_both_empty d).
Proof. unfold not_both_empty. apply _. Defined.

(** The change of phoneme count that the replay applies at a position. *)
Definition delta_of (differences : list Diff) (pos : Z) : Z :=
  match find_diff differences pos with
  | Some d => diff_in_phonemes d
  | None => 0
  end.

(** What [k] consecutive positions from [cur] on add to the counts. *)
Fixpoint sum_delta (differences : list Diff) (cur : Z) (k : nat) : Z :=
  match k with
  | O => 0
  | S k' => 1 + delta_of differences cur + sum_delta differences (cur + 1) k'
  end.

(** The number of positions that the replay visits. *)
Definition replay_positions (word2ph : list Z) : nat :=
  foldr (λ e acc, (Z.to_nat e + acc)%nat) 0%nat word2ph.

(** ** Characters *)

(** The code point of a character given as its UTF-8 bytes. *)
Definition code_point (c : string) : N :=
  match map (λ a, N_of_ascii a) (list_ascii_of_string c) with
  | [b0] => b0
  | [b0; b1] => ((b0 mod 32) * 64 + b1 mod 64)%N
  | [b0; b1; b2] => ((b0 mod 16) * 4096 + (b1 mod 64) * 64 + b2 mod 64)%N
  | [b0; b1; b2; b3] =>
      ((b0 mod 8) * 262144 + (b1 mod 64) * 4096 + (b2 mod 64) * 64
       + b3 mod 64)%N
  | _ => 0%N
  end.

(** [[゠-ヿ]], the character class of [__KATAKANA_PATTERN]. *)
Definition is_katakana (c : string) : bool :=
  let cp := code_point c in (12448 <=? cp)%N && (cp <=? 12543)%N.

(** [\w] on the characters that [spaced_phonemes] is made of: ASCII letters,
    digits and the underscore, and the letters of the katakana block (all
    of it but U+30A0 and the middle dot U+30FB). *)
Definition is_word_char (c : string) : bool :=
  let cp := code_point c in
  ((48 <=? cp) && (cp <=? 57) || (65 <=? cp) && (cp <=? 90)
   || (97 <=? cp) && (cp <=? 122) || (cp =? 95)
   || (12449 <=? cp) && (cp <=? 12543) && negb (cp =? 12539))%N.

(** The whitespace that [str.strip()] removes, on the same characters. *)
Definition is_space (c : string) : bool :=
  let cp := code_point c in
  ((cp =? 32) || (9 <=? cp) && (cp <=? 13) || (cp =? 12288))%N.

(** [s.strip()] on the characters of [s]. *)
Definition py_strip (s : list string) : list string :=
  let lstrip := fix go (l : list string) : list string :=
    match l with
    | c :: l' => if is_space c then go l' else l
    | [] => []
    end in
  reverse (lstrip (reverse (lstrip s))).

(** [s.split(" ")] on the characters of [s]; [cur] is the piece being
    read.  The empty string splits into one empty piece. *)
Fixpoint py_split_space (s : list string) (cur : string) : list string :=
  match s with
  | [] => [cur]
  | c :: s' =>
      if decide (c = " ") then cur :: py_split_space s' ""
      else py_split_space s' (cur +:+ c)
  end.

(** [int(s)] for a decimal literal: surrounding whitespace, an optional
    sign, ASCII digits with single underscores between them. *)
Definition digit_value (c : string) : option Z :=
  let cp := code_point c in
  if ((48 <=? cp) && (cp <=? 57))%N then Some (Z.of_N cp - 48) else None.

Fixpoint py_int_digits (s : list string) (acc : Z) (after_digit : bool)
  : result Z :=
  match s with
  | [] => if after_digit then OK acc else Raise ValueError
  | c :: s' =>
      match digit_value c with
      | Some d => py_int_digits s' (acc * 10 + d) true
      | None =>
          if decide (c = "_") then
            if after_digit then py_int_digits s' acc false
            else Raise ValueError
          else Raise ValueError
      end
  end.

Definition py_int (s : string) : result Z :=
  match py_strip (py_chars s) with
  | "-" :: ds => v ← py_int_digits ds 0 false; OK (- v)
  | "+" :: ds => py_int_digits ds 0 false
  | ds => py_int_digits ds 0 false
  end.

(** ** 4.4 Mora-to-phoneme converter: [__kata_to_phoneme_list] *)

(** The elongation mark. *)
Definition long_mark : string := "ー".

Section MoraTable.
(** The constants of the repository that are not under [src/]:
    [PUNCTUATIONS] of [nlp/symbols.py], and [VOWELS] and
    [MORA_KATA_TO_MORA_PHONEMES] of [nlp/japanese/mora_list.py], the
    latter as the list of its items [(mora, (consonant, vowel))] with
    non-empty keys. *)
Context (PUNCTUATIONS : list string).
Context (VOWELS : list string).
Context (MORA_KATA_TO_MORA_PHONEMES : list (string * (option string * string))).

(** [sorted(MORA_KATA_TO_MORA_PHONEMES.keys(), key=len, reverse=True)],
    the alternatives of [__MORA_PATTERN] in the order in which the regular
    expression tries them (the sort is stable). *)
Definition mora_alternatives : list (string * (option string * string)) :=
  let klen := λ e : string * (option string * string), length (py_chars e.1) in
  let maxlen := foldr Nat.max 0%nat (map klen MORA_KATA_TO_MORA_PHONEMES) in
  flat_map (λ n, filter (λ e, klen e = n) MORA_KATA_TO_MORA_PHONEMES)
           (reverse (seq 1 maxlen)).

(** [mora2phonemes], as characters. *)
Definition mora2phonemes (e : string * (option string * string))
  : list string :=
  match e.2 with
  | (None, vowel) => " " :: py_chars vowel
  | (Some consonant, vowel) =>
      " " :: py_chars consonant ++ " " :: py_chars vowel
  end.

(** [__MORA_PATTERN.sub(...)]: at every position the first alternative
    that matches is replaced; [skip] counts the characters of a match
    still to be passed over. *)
Fixpoint mora_sub (text : list string) (skip : nat) : list string :=
  match text with
  | [] => []
  | c :: rest =>
      match skip with
      | S k => mora_sub rest k
      | O =>
          match find (λ e, bool_decide (py_chars e.1 `prefix_of` text))
                     mora_alternatives with
          | Some e =>
              mora2phonemes e ++ mora_sub rest (length (py_chars e.1) - 1)
          | None => c :: mora_sub rest 0
          end
      end
  end.

(** [__LONG_PATTERN.sub(long_replacement, ...)], where the pattern is one
    word character (group 1) followed by a run of elongation marks
    (group 2): [cur] is group 1 of the match being read, and every mark
    of its group 2 becomes a space and a copy of group 1. *)
Fixpoint long_sub (s : list string) (cur : option string) : list string :=
  match s with
  | [] => []
  | c :: rest =>
      let start :=
        if is_word_char c then c :: long_sub rest (Some c)
        else c :: long_sub rest None in
      match cur with
      | Some g =>
          if decide (c = long_mark) then " " :: g :: long_sub rest (Some g)
          else start
      | None => start
      end
  end.

(** [__kata_to_phoneme_list] on the characters of [text]. *)
Definition kata_chars_to_phoneme_list (text : list string)
  : result (list string) :=
  if forallb (λ c, str_in c PUNCTUATIONS) text then OK text
  else if negb (forallb is_katakana text) then Raise ValueError
  else
    let spaced_phonemes := mora_sub text 0 in
    let spaced_phonemes := long_sub spaced_phonemes None in
    OK (py_split_space (py_strip spaced_phonemes) "").

Definition __kata_to_phoneme_list (text : string) : result (list string) :=
  kata_chars_to_phoneme_list (py_chars text).

(** ** The long-vowel pass: [__handle_long] *)

(** The first symbol of word [i], after
    [if sep_phonemes[i][0] == "ー"]. *)
Definition handle_long_first (sep_phonemes : list (list string)) (i : nat)
    (word : list string) : result (list string) :=
  if decide (word !! 0%nat = Some long_mark) then
    if decide (i ≠ 0%nat) then
      prev_word ← py_get sep_phonemes (Z.of_nat i - 1);
      prev_phoneme ← py_get prev_word (-1);
      if str_in prev_phoneme VOWELS then OK (<[0%nat := prev_phoneme]> word)
      else OK (<[0%nat := "-"]> word)
    else OK (<[0%nat := "-"]> word)
  else OK word.

(** One turn of [for j in range(len(sep_phonemes[i]))]. *)
Definition handle_long_at (word : list string) (j : nat)
  : result (list string) :=
  if decide (word !! j = Some long_mark) then
    prev ← py_get word (Z.of_nat j - 1);
    last_char ← py_get (py_chars prev) (-1);
    OK (<[j := last_char]> word)
  else OK word.

(** One turn of [for i in range(len(sep_phonemes))]. *)
Definition handle_long_word (sep_phonemes : list (list string)) (i : nat)
  : result (list (list string)) :=
  match sep_phonemes !! i with
  | None => Raise IndexError
  | Some word =>
      if decide (length word = 0%nat) then OK sep_phonemes
      else
        word ← handle_long_first sep_phonemes i word;
        word ←
          (if str_in long_mark word
           then for_each (seq 0 (length word)) handle_long_at word
           else OK word);
        OK (<[i := word]> sep_phonemes)
  end.

Definition __handle_long (sep_phonemes : list (list string))
  : result (list (list string)) :=
  for_each (seq 0 (length sep_phonemes)) handle_long_word sep_phonemes.

(** The pass as section 4.4 of the specification words it: a mark becomes
    the dash when it is the first symbol of its word or when the phoneme
    before it is not a vowel, and a copy of the phoneme before it
    otherwise.  [prev] is the phoneme before the current one. *)
Fixpoint long_claim_word (word : list string) (first : bool)
    (prev : option string) : list string :=
  match word with
  | [] => []
  | c :: rest =>
      let c' :=
        if decide (c = long_mark) then
          match prev with
          | Some p =>
              if first || negb (str_in p VOWELS) then "-" else p
          | None => "-"
          end
        else c in
      c' :: long_claim_word rest false (Some c')
  end.

Fixpoint long_claim (sep_phonemes : list (list string))
    (prev : option string) : list (list string) :=
  match sep_phonemes with
  | [] => []
  | word :: rest =>
      let word' := long_claim_word word true prev in
      word' :: long_claim rest (match last word' with
                                | Some p => Some p
                                | None => prev
                                end)
  end.

(** The pass as the code has it, by recursion on the words.  The rest of
    a word after its first symbol: a mark becomes the last character of
    the symbol before it. *)
Fixpoint long_rest (prev : string) (rest : list string)
  : result (list string) :=
  match rest with
  | [] => OK []
  | c :: rest' =>
      c' ← (if decide (c = long_mark)
            then py_get (py_chars prev) (-1) else OK c);
      rest'' ← long_rest c' rest';
      OK (c' :: rest'')
  end.

(** A word, given the word before it as already processed: its first
    symbol, when a mark, becomes the dash in the first word or after a
    non-vowel, and the last phoneme of the word before it after a
    vowel. *)
Definition long_first (prev_word : option (list string)) (c : string)
  : result string :=
  if decide (c = long_mark) then
    match prev_word with
    | None => OK "-"
    | Some pw =>
        prev_phoneme ← py_get pw (-1);
        if str_in prev_phoneme VOWELS then OK prev_phoneme else OK "-"
    end
  else OK c.

Definition long_word (prev_word : option (list string)) (word : list string)
  : result (list string) :=
  match word with
  | [] => OK []
  | c :: rest =>
      c' ← long_first prev_word c;
      rest' ← long_rest c' rest;
      OK (c' :: rest')
  end.

Fixpoint long_words (prev_word : option (list string))
    (sep_phonemes : list (list string)) : result (list (list string)) :=
  match sep_phonemes with
  | [] => OK []
  | word :: rest =>
      word' ← long_word prev_word word;
      rest' ← long_words (Some word') rest;
      OK (word' :: rest')
  end.
End MoraTable.

(** ** 4.7 Accent code to tone run: [__convert_acc2hl] *)

(** The two marks of a tone run. *)
Definition binary_mark (t : string) : Prop := t = "0" ∨ t = "1".

Section AccentRun.
Context (PUNCTUATIONS : list string).
Context (MORA_KATA_TO_MORA_PHONEMES : list (string * (option string * string))).

Abbreviation phonemes_of :=
  (kata_chars_to_phoneme_list PUNCTUATIONS MORA_KATA_TO_MORA_PHONEMES).

(** [_YOUON_PATTERN.fullmatch(c)] for a single character [c]. *)
Definition is_youon (c : string) : bool :=
  str_in c ["ァ"; "ィ"; "ゥ"; "ェ"; "ォ"; "ャ"; "ュ"; "ョ"; "ヮ"].

(** [for phone in __kata_to_phoneme_list(part):
       accent_hl_list.append(tone)] *)
Definition append_tone (tone : string) (part : list string)
    (accent_hl_list : list string) : result (list string) :=
  phones ← phonemes_of part;
  OK (accent_hl_list ++ replicate (length phones) tone).

(** A tone run made of parts: every phoneme of a part gets the part's
    tone. *)
Fixpoint tone_run (parts : list (string * list string))
    (accent_hl_list : list string) : result (list string) :=
  match parts with
  | [] => OK accent_hl_list
  | (tone, part) :: rest =>
      l ← append_tone tone part accent_hl_list; tone_run rest l
  end.

(** [kana[i]] as a one-character reading. *)
Definition kana_at (kana : list string) (i : Z) : result (list string) :=
  c ← py_get kana i; OK [c].

(** [_YOUON_PATTERN.fullmatch(kana[i])] *)
Definition youon_at (kana : list string) (i : Z) : result bool :=
  c ← py_get kana i; OK (is_youon c).

(** The body of [__convert_acc2hl] below [accent: int = int(accent)]. *)
Definition convert_acc2hl_int (kana : list string) (accent : Z)
  : result (list string) :=
  let mora := py_len kana in
  let two_youon : result bool :=
    if decide (mora = 2) then youon_at kana 1 else OK false in
  if decide (mora = 1) then
    if decide (accent = 1) then append_tone "1" kana []
    else append_tone "0" kana []
  else
    b ← two_youon;
    if (b : bool) then
      if decide (accent = 1) then append_tone "1" kana []
      else append_tone "0" kana []
    else if decide (accent = 0) then
      y ← youon_at kana 1;
      if (y : bool) then
        l ← append_tone "0" (py_slice kana 0 2) [];
        append_tone "1" (py_slice_from kana 2) l
      else
        k0 ← kana_at kana 0;
        l ← append_tone "0" k0 [];
        append_tone "1" (py_slice_from kana 1) l
    else if decide (accent = 1) then
      y ← youon_at kana 1;
      if (y : bool) then
        l ← append_tone "1" (py_slice kana 0 2) [];
        append_tone "0" (py_slice_from kana 2) l
      else
        k0 ← kana_at kana 0;
        l ← append_tone "1" k0 [];
        append_tone "0" (py_slice_from kana 1) l
    else if decide (accent < mora) then
      let acc := accent - 1 in
      y1 ← youon_at kana 1;
      if (y1 : bool) && bool_decide (accent = 2) then
        l ← append_tone "0" (py_slice kana 0 2) [];
        k2 ← kana_at kana 2;
        l ← append_tone "1" k2 l;
        append_tone "0" (py_slice_from kana 3) l
      else
        y2 ← youon_at kana (acc + 1);
        if (y2 : bool) then
          l ← append_tone "0" (py_slice kana 0 acc) [];
          l ← append_tone "1" (py_slice kana acc (accent + 1)) l;
          append_tone "0" (py_slice_from kana (accent + 1)) l
        else
          l ← append_tone "0" (py_slice kana 0 acc) [];
          k ← kana_at kana acc;
          l ← append_tone "1" k l;
          append_tone "0" (py_slice_from kana accent) l
    else if decide (accent = mora) then
      let acc := accent - 1 in
      l ← append_tone "0" (py_slice kana 0 acc) [];
      k ← kana_at kana acc;
      append_tone "1" k l
    else OK [].

Definition __convert_acc2hl (kana accent : string) : result (list string) :=
  let kana := py_chars kana in
  if decide (accent = "ALL_H") then append_tone "1" kana []
  else if decide (accent = "ALL_L") then append_tone "0" kana []
  else
    accent ← py_int accent;
    convert_acc2hl_int kana accent.

(** The tone run as section 4.7 of the specification words it.  The units
    of a reading are its characters, a glide character being counted with
    the character before it. *)
Fixpoint kana_units (kana : list string) : list (list string) :=
  match kana with
  | [] => []
  | c :: rest =>
      match kana_units rest with
      | [y] :: units => if is_youon y then [c; y] :: units
                        else [c] :: [y] :: units
      | units => [c] :: units
      end
  end.

Inductive accent_code : Type :=
| AllHigh
| AllLow
| Nucleus (k : Z).

(** The tone of unit [u], counted from 1: flat is low then high from the
    second unit on; a nucleus at [k] is high on the units 1 to [k] and low
    after. *)
Definition unit_tone (code : accent_code) (u : Z) : string :=
  match code with
  | AllHigh => "1"
  | AllLow => "0"
  | Nucleus k =>
      if decide (k = 0) then (if decide (u = 1) then "0" else "1")
      else if decide (u <= k) then "1" else "0"
  end.

Fixpoint claimed_run (units : list (list string)) (code : accent_code)
    (u : Z) : result (list string) :=
  match units with
  | [] => OK []
  | unit :: rest =>
      phones ← phonemes_of unit;
      run ← claimed_run rest code (u + 1);
      OK (replicate (length phones) (unit_tone code u) ++ run)
  end.
End AccentRun.

(** ** 4.1 Prosody symbol extractor: [__pyopenjtalk_g2p_prosody] *)

(** A full-context label of the front-end, as the regular expressions of
    the module read it: the current phoneme [p3] and the numeric features,
    -50 where the pattern does not match. *)
Record Label : Type := mkLabel {
  p3 : string;
  a1 : Z;
  a2 : Z;
  a3 : Z;
  e3 : Z;
  f1 : Z;
}.

(** [s in t] for two strings. *)
Fixpoint is_substring (s t : string) : bool :=
  String.prefix s t ||
  match t with
  | EmptyString => false
  | String _ t' => is_substring s t'
  end.

(** [p3.lower()] for a substring of ["AEIOU"]. *)
Definition lower_vowels (s : string) : string :=
  string_of_list_ascii
    (map (λ a, if is_substring (String a EmptyString) "AEIOU"
               then ascii_of_nat (nat_of_ascii a + 32) else a)
         (list_ascii_of_string s)).

(** One turn of [for n in range(N)]. *)
Definition prosody_step (labels : list Label) (drop_unvoiced_vowels : bool)
    (phones : list string) (n : nat) : result (list string) :=
  let N := length labels in
  match labels !! n with
  | None => Raise IndexError
  | Some lab_curr =>
      let p3 := p3 lab_curr in
      let p3 := if drop_unvoiced_vowels && is_substring p3 "AEIOU"
                then lower_vowels p3 else p3 in
      if decide (p3 = "sil") then
        _ ← py_assert (bool_decide (n = 0%nat ∨ n = (N - 1)%nat));
        if decide (n = 0%nat) then OK (phones ++ ["^"])
        else if decide (e3 lab_curr = 0) then OK (phones ++ ["$"])
        else if decide (e3 lab_curr = 1) then OK (phones ++ ["?"])
        else OK phones
      else if decide (p3 = "pau") then OK (phones ++ ["_"])
      else
        let phones := phones ++ [p3] in
        match labels !! S n with
        | None => Raise IndexError
        | Some lab_next =>
            let a2_next := a2 lab_next in
            if bool_decide (a3 lab_curr = 1 ∧ a2_next = 1)
               && is_substring p3 "aeiouAEIOUNcl"
            then OK (phones ++ ["#"])
            else if decide (a1 lab_curr = 0 ∧ a2_next = a2 lab_curr + 1
                            ∧ a2 lab_curr ≠ f1 lab_curr)
            then OK (phones ++ ["]"])
            else if decide (a2 lab_curr = 1 ∧ a2_next = 2)
            then OK (phones ++ ["["])
            else OK phones
        end
  end.

Definition pyopenjtalk_g2p_prosody (labels : list Label)
    (drop_unvoiced_vowels : bool) : result (list string) :=
  for_each (seq 0 (length labels)) (prosody_step labels drop_unvoiced_vowels) [].

(** ** 4.2 Accent-phrase tone assigner: [__g2phone_tone_wo_punct] *)

(** The loop state is [(result, current_phrase, current_tone)]. *)
Definition tone_step (prosodies : list string)
    (st : list (string * Z) * list (string * Z) * Z) (il : nat * string)
  : result (list (string * Z) * list (string * Z) * Z) :=
  let '(res, current_phrase, current_tone) := st in
  let '(i, letter) := il in
  if decide (letter = "^") then
    _ ← py_assert (bool_decide (i = 0%nat));
    OK (res, current_phrase, current_tone)
  else if str_in letter ["$"; "?"; "_"; "#"] then
    fixed ← __fix_phone_tone current_phrase;
    _ ← (if str_in letter ["$"; "?"]
         then py_assert (bool_decide (i = (length prosodies - 1)%nat))
         else OK tt);
    OK (res ++ fixed, [], 0)
  else if decide (letter = "[") then OK (res, current_phrase, current_tone + 1)
  else if decide (letter = "]") then OK (res, current_phrase, current_tone - 1)
  else
    let letter := if decide (letter = "cl") then "q" else letter in
    OK (res, current_phrase ++ [(letter, current_tone)], current_tone).

(** [__g2phone_tone_wo_punct] on the prosody symbols of the text. *)
Definition g2phone_tone_of_prosodies (prosodies : list string)
  : result (list (string * Z)) :=
  st ← for_each (imap (λ i letter, (i, letter)) prosodies)
                (tone_step prosodies) ([], [], 0);
  OK st.1.1.

(** ** The pipeline: [text_to_sep_kata], [update_yomi], [g2p] *)

(** [hougen_mode]: [None], a list of dialect names as the signature has it,
    or a single name as the docstring has it. *)
Inductive hougen : Type :=
| HougenNone
| HougenList (names : list string)
| HougenStr (name : string).

#[global] Instance hougen_eq_dec : EqDecision hougen.
Proof. solve_decision. Defined.

(** [s.replace(c, "")] for a single character [c]. *)
Definition remove_char (c s : string) : string :=
  py_join (filter (λ x, x ≠ c) (py_chars s)).

(** [c * n] *)
Definition str_repeat (c : string) (n : nat) : string :=
  py_join (replicate n c).

(** [mapM]: a list comprehension whose element expression may raise. *)
Fixpoint map_result {A B : Type} (f : A → result B) (l : list A)
  : result (list B) :=
  match l with
  | [] => OK []
  | x :: l' => y ← f x; ys ← map_result f l'; OK (y :: ys)
  end.

Section Pipeline.
Context (PUNCTUATIONS : list string).
Context (VOWELS : list string).
Context (MORA_KATA_TO_MORA_PHONEMES : list (string * (option string * string))).

(** The collaborators outside the module. *)

(** [pyopenjtalk.run_frontend(text)], each part as
    [(replace_punctuation(parts["string"]), parts["pron"])]. *)
Context (run_frontend : string → list (string * string)).
(** [pyopenjtalk.make_label(pyopenjtalk.run_frontend(text))], read through
    the patterns of the module. *)
Context (make_label : string → list Label).
(** [bert_models.load_tokenizer(Languages.JP).tokenize(word)] *)
Context (tokenize : string → list string).
(** [__fugashi_sep_kata], the second analyzer: word, kana, accent and
    part-of-speech lists. *)
Context (fugashi_sep_kata :
           string → result (list string * list string * list string * list string)).
(** [__yomikata_patch], the homograph model. *)
Context (yomikata_patch : list string → list string → result (list string)).
(** [__hougen_patch] and [__keihan_patch], the dialect rule tables; the
    properties below hold whatever they return. *)
Context (hougen_patch :
           list string → list string → list string → hougen →
           result (list string * list string)).
Context (keihan_patch :
           list string → list string → list string → result (list string)).

Abbreviation kata_to_phoneme_list :=
  (__kata_to_phoneme_list PUNCTUATIONS MORA_KATA_TO_MORA_PHONEMES).

Definition __g2phone_tone_wo_punct (text : string)
  : result (list (string * Z)) :=
  prosodies ← pyopenjtalk_g2p_prosody (make_label text) true;
  g2phone_tone_of_prosodies prosodies.

(** One turn of [for parts in parsed] of [text_to_sep_kata]. *)
Definition sep_kata_step (raise_yomi_error : bool)
    (st : list string * list string) (parts : string * string)
  : result (list string * list string) :=
  let '(sep_text, sep_kata) := st in
  let word := parts.1 in
  let yomi := remove_char "’" parts.2 in
  _ ← py_assert (bool_decide (yomi ≠ ""));
  yomi ←
    (if decide (yomi = "、") then
       if negb (forallb (λ c, str_in c PUNCTUATIONS) (py_chars word)) then
         if raise_yomi_error then Raise YomiError
         else OK (str_repeat "'" (length (py_chars word)))
       else OK word
     else if decide (yomi = "？") then
       _ ← py_assert (bool_decide (word = "?"));
       OK "?"
     else OK yomi);
  OK (sep_text ++ [word], sep_kata ++ [yomi]).

Definition text_to_sep_kata (norm_text : string) (raise_yomi_error : bool)
  : result (list string * list string) :=
  for_each (run_frontend norm_text) (sep_kata_step raise_yomi_error) ([], []).

(** One turn of [for text in sep_text] of [update_yomi]; the state is
    [(word_list, kana_list, accent_list, pos_list)]. *)
Definition fugashi_step
    (st : list string * list string * list string * list string)
    (text : string)
  : result (list string * list string * list string * list string) :=
  let '(word_list, kana_list, accent_list, pos_list) := st in
  '(cur_word_list, cur_kana_list, cur_accent_list, cur_pos_list) ←
    fugashi_sep_kata text;
  OK (word_list ++ cur_word_list, kana_list ++ cur_kana_list,
      accent_list ++ cur_accent_list, pos_list ++ cur_pos_list).

(** The alternate pass of [update_yomi], up to its last decision:
    [(new_sep_text, new_sep_kata, new_sep_phonemes, new_phone_w_punct,
      new_phone_tone_list)]. *)
Definition alternate_pass (sep_text : list string) (use_yomikata : bool)
    (hougen_mode : hougen)
  : result (list string * list string * list (list string) * list string
            * list (string * Z)) :=
  '(word_list, kana_list, accent_list, pos_list) ←
    for_each sep_text fugashi_step ([], [], [], []);
  kana_list ← (if use_yomikata then yomikata_patch word_list kana_list
               else OK kana_list);
  '(kana_list, accent_list) ←
    (if decide (hougen_mode ≠ HougenNone)
     then hougen_patch kana_list accent_list pos_list hougen_mode
     else OK (kana_list, accent_list));
  accent_list ←
    (if decide (hougen_mode = HougenStr "kinki")
     then keihan_patch kana_list accent_list pos_list
     else OK accent_list);
  accent_hl_list ←
    for_each (seq 0 (length kana_list))
      (λ accent_hl_list num1,
         cur_kana ← py_get kana_list (Z.of_nat num1);
         cur_accent ← py_get accent_list (Z.of_nat num1);
         cur_acc_hl ← __convert_acc2hl PUNCTUATIONS
                         MORA_KATA_TO_MORA_PHONEMES cur_kana cur_accent;
         OK (accent_hl_list ++ cur_acc_hl))
      [];
  new_sep_phonemes ← map_result kata_to_phoneme_list kana_list;
  new_sep_phonemes ← __handle_long VOWELS new_sep_phonemes;
  let new_phone_w_punct := concat new_sep_phonemes in
  _ ← py_assert (bool_decide (length accent_hl_list
                              = length new_phone_w_punct));
  new_phone_tone_list ←
    for_each (seq 0 (length new_phone_w_punct))
      (λ new_phone_tone_list i,
         phone ← py_get new_phone_w_punct (Z.of_nat i);
         accent ← py_get accent_hl_list (Z.of_nat i);
         tone ← py_int accent;
         OK (new_phone_tone_list ++ [(phone, tone)]))
      [];
  OK (word_list, kana_list, new_sep_phonemes, new_phone_w_punct,
      new_phone_tone_list).

Definition update_yomi (sep_text sep_kata : list string)
    (sep_phonemes : list (list string)) (phone_w_punct : list string)
    (phone_tone_list : list (string * Z)) (use_yomikata : bool)
    (hougen_mode : hougen)
  : result (list string * list string * list (list string)
            * list (string * Z)) :=
  '(new_sep_text, new_sep_kata, new_sep_phonemes, new_phone_w_punct,
    new_phone_tone_list) ←
    alternate_pass sep_text use_yomikata hougen_mode;
  if decide (hougen_mode = HougenStr "tokyo") then
    if decide (phone_w_punct = new_phone_w_punct
               ∧ length new_sep_kata = length sep_kata)
    then OK (sep_text, sep_kata, sep_phonemes, phone_tone_list)
    else OK (new_sep_text, new_sep_kata, new_sep_phonemes,
             new_phone_tone_list)
  else OK (new_sep_text, new_sep_kata, new_sep_phonemes,
           new_phone_tone_list).

(** [for i in sep_text: sep_tokenized.append(...)] *)
Definition tokenize_words (sep_text : list string) : list (list string) :=
  map (λ i, if negb (str_in i PUNCTUATIONS) then tokenize i else [i])
      sep_text.

(** [for token, phoneme in zip(sep_tokenized, sep_phonemes):
       word2ph += __distribute_phone(len(phoneme), len(token))] *)
Definition distribute_words (sep_tokenized sep_phonemes : list (list string))
  : result (list Z) :=
  for_each (zip sep_tokenized sep_phonemes)
    (λ word2ph tp,
       d ← __distribute_phone (py_len tp.2) (py_len tp.1);
       OK (word2ph ++ d))
    [].

Definition g2p (norm_text : string) (use_jp_extra raise_yomi_error
    use_unidic3 use_yomikata : bool) (hougen_mode : hougen)
  : result (list string * list Z * list Z) :=
  phone_tone_list_wo_punct ← __g2phone_tone_wo_punct norm_text;
  '(sep_text, sep_kata) ← text_to_sep_kata norm_text raise_yomi_error;
  sep_phonemes ← map_result kata_to_phoneme_list sep_kata;
  sep_phonemes ← __handle_long VOWELS sep_phonemes;
  let phone_w_punct := concat sep_phonemes in
  phone_tone_list ←
    __align_tones PUNCTUATIONS phone_w_punct phone_tone_list_wo_punct;
  '(sep_text, sep_kata, sep_phonemes, phone_tone_list) ←
    (if use_unidic3
     then update_yomi sep_text sep_kata sep_phonemes phone_w_punct
                      phone_tone_list use_yomikata hougen_mode
     else OK (sep_text, sep_kata, sep_phonemes, phone_tone_list));
  let sep_tokenized := tokenize_words sep_text in
  word2ph ← distribute_words sep_tokenized sep_phonemes;
  let phone_tone_list := [("_", 0)] ++ phone_tone_list ++ [("_", 0)] in
  let word2ph := [1] ++ word2ph ++ [1] in
  let phones := phone_tone_list.*1 in
  let tones := phone_tone_list.*2 in
  _ ← py_assert (bool_decide (py_len phones = py_sum word2ph));
  let phones :=
    if negb use_jp_extra
    then map (λ phone, if decide (phone ≠ "N") then phone else "n") phones
    else phones in
  OK (phones, tones, word2ph).
End Pipeline.

(** ** Sample data for the examples *)

(** Modelled from the spec: [PUNCTUATIONS] of [nlp/symbols.py] is not under
    [src/]; the punctuation set of section 3, as the symbols that the
    docstrings of the module use. *)
Definition PUNCTUATIONS_ja : list string :=
  ["!"; "?"; "…"; ","; "."; "'"; "-"].

(** Modelled from the spec: [VOWELS] of [nlp/japanese/mora_list.py] is not
    under [src/]; the five vowels and the moraic nasal, which
    [__handle_long] treats as a vowel. *)
Definition VOWELS_ja : list string := ["a"; "i"; "u"; "e"; "o"; "N"].

(** Modelled from the spec: [MORA_KATA_TO_MORA_PHONEMES] of
    [nlp/japanese/mora_list.py] is not under [src/]; a few rows of the Mora
    Table of section 2, kana glyph to (consonant, vowel). *)
Definition MORA_ja : list (string * (option string * string)) :=
  [("キャ", (Some "ky", "a")); ("ア", (None, "a")); ("イ", (None, "i"));
   ("ウ", (None, "u")); ("エ", (None, "e")); ("オ", (None, "o"));
   ("カ", (Some "k", "a")); ("キ", (Some "k", "i")); ("ソ", (Some "s", "o"));
   ("ナ", (Some "n", "a")); ("ノ", (Some "n", "o")); ("ン", (None, "N"));
   ("ッ", (None, "q"))].

(** A front-end that knows the one-mora word ア: its parse, its three
    labels (silence, [a], silence), and the second analyzer giving it the
    accent code 1. *)
Definition sample_run_frontend (text : string) : list (string * string) :=
  if decide (text = "ア") then [("ア", "ア")] else [].

Definition sample_make_label (text : string) : list Label :=
  if decide (text = "ア") then
    [mkLabel "sil" (-50) (-50) (-50) (-50) (-50);
     mkLabel "a" 0 1 1 (-50) 1;
     mkLabel "sil" (-50) (-50) (-50) 0 (-50)]
  else [mkLabel "sil" (-50) (-50) (-50) (-50) (-50);
        mkLabel "sil" (-50) (-50) (-50) 0 (-50)].

Definition sample_tokenize (word : string) : list string := py_chars word.

Definition sample_fugashi (text : string)
  : result (list string * list string * list string * list string) :=
  OK ([text], [text], ["1"], ["名詞"]).

Definition sample_yomikata (word_list kana_list : list string)
  : result (list string) := OK kana_list.

Definition sample_hougen_patch (kana_list accent_list pos_list : list string)
    (mode : hougen) : result (list string * list string) :=
  OK (kana_list, accent_list).

Definition sample_keihan_patch (kana_list accent_list pos_list : list string)
  : result (list string) := OK accent_list.

Definition sample_g2p :=
  g2p PUNCTUATIONS_ja VOWELS_ja MORA_ja sample_run_frontend sample_make_label
      sample_tokenize sample_fugashi sample_yomikata sample_hougen_patch
      sample_keihan_patch.

Definition sample_update_yomi :=
  update_yomi PUNCTUATIONS_ja VOWELS_ja MORA_ja sample_fugashi sample_yomikata
              sample_hougen_patch sample_keihan_patch.

Definition sample_alternate_pass :=
  alternate_pass PUNCTUATIONS_ja VOWELS_ja MORA_ja sample_fugashi
                 sample_yomikata sample_hougen_patch sample_keihan_patch.

(** The prosody symbols that [__g2phone_tone_wo_punct] consumes: the start
    mark, the four phrase boundaries and the two pitch brackets. *)
Definition prosody_marks : list string := ["^"; "$"; "?"; "_"; "#"; "["; "]"].

(** The symbols at which the current accent phrase is flushed. *)
Definition phrase_boundaries : list string := ["$"; "?"; "_"; "#"].

(** The phonemes among the prosody symbols, with [cl] renamed to [q]. *)
Definition phonemes_of_prosodies (prosodies : list string) : list string :=
  map (λ letter, if decide (letter = "cl") then "q" else letter)
      (filter (λ letter, letter ∉ prosody_marks) prosodies).

(** A common subsequence of [X] and [Y], given by its index pairs: every
    pair points at equal elements, and the pairs increase strictly in both
    components. *)
Definition common_subsequence (X Y : list string) (ps : list (nat * nat))
  : Prop :=
  (∀ (k : nat) p, ps !! k = Some p →
     ∃ s, X !! p.1 = Some s ∧ Y !! p.2 = Some s) ∧
  (∀ (a b : nat) p q, (a < b)%nat → ps !! a = Some p → ps !! b = Some q →
     (p.1 < q.1)%nat ∧ (p.2 < q.2)%nat).

(** ** The Keihan accent table: [__keihan_patch] *)

(** [if sep_acc[i] == old: sep_acc[i] = new] *)
Definition acc_rewrite (sep_acc : list string) (i : nat) (old new : string)
  : result (list string) :=
  cur ← py_get sep_acc (Z.of_nat i);
  OK (if decide (cur = old) then <[i := new]> sep_acc else sep_acc).

(** One turn of [for i in range(len(sep_pos))]; the state is [sep_acc],
    which the function updates in place. *)
Definition keihan_step (sep_kata sep_pos : list string)
    (sep_acc : list string) (i : nat) : result (list string) :=
  pos ← py_get sep_pos (Z.of_nat i);
  if decide (pos = "名詞") then
    kana ← py_get sep_kata (Z.of_nat i);
    second ← py_get (py_chars kana) 1;
    if decide (second = "ー") then
      sep_acc ← acc_rewrite sep_acc i "0" "1";
      acc_rewrite sep_acc i "ALL_L" "0"
    else if decide (py_len (py_chars kana) = 2) then
      sep_acc ← acc_rewrite sep_acc i "0" "ALL_H";
      acc_rewrite sep_acc i "2" "1"
    else OK sep_acc
  else if decide (pos = "動詞") then
    kana ← py_get sep_kata (Z.of_nat i);
    sep_acc ←
      (if decide (py_len (py_chars kana) = 2) then
         sep_acc ← acc_rewrite sep_acc i "0" "ALL_H";
         acc_rewrite sep_acc i "1" "2"
       else OK sep_acc);
    if decide (py_len (py_chars kana) = 3) then
      sep_acc ← acc_rewrite sep_acc i "0" "ALL_H";
      acc_rewrite sep_acc i "2" "3"
    else OK sep_acc
  else if decide (pos = "形容詞") then
    kana ← py_get sep_kata (Z.of_nat i);
    sep_acc ←
      (if decide (py_len (py_chars kana) = 2) then
         acc_rewrite sep_acc i "1" "2"
       else OK sep_acc);
    if decide (py_len (py_chars kana) = 3) then
      sep_acc ← acc_rewrite sep_acc i "0" "1";
      acc_rewrite sep_acc i "2" "1"
    else OK sep_acc
  else OK sep_acc.

Definition __keihan_patch (sep_kata sep_acc sep_pos : list string)
  : result (list string) :=
  for_each (seq 0 (length sep_pos)) (keihan_step sep_kata sep_pos) sep_acc.

(** An accent code that [__convert_acc2hl] turns into a full tone run for
    the reading [kana]: a sentinel, or a nucleus position from 0 to the
    number of characters. *)
Definition accent_within (kana accent : string) : Prop :=
  accent = "ALL_H" ∨ accent = "ALL_L" ∨
  ∃ k, py_int accent = OK k ∧ 0 ≤ k ≤ py_len (py_chars kana).

(** The accent codes that the table writes for a reading, each with the
    number of characters of the readings it is written for. *)
Definition keihan_target (kana new : string) : Prop :=
  new = "ALL_H" ∨ new = "0" ∨
  (new = "1" ∧ 2 ≤ py_len (py_chars kana)) ∨
  (new = "2" ∧ py_len (py_chars kana) = 2) ∨
  (new = "3" ∧ py_len (py_chars kana) = 3).

(** ** Blank insertion: [__intersperse] and [get_text_onnx] of
    [models/infer_onnx.py] *)

(** The indices of the extended slice [start::step] of a list of length
    [len], for a positive [step]. *)
Definition stride_indices (len start step : nat) : list nat :=
  map (λ k, (start + k * step)%nat) (seq 0 ((len - start + step - 1) / step)).

(** [target[start::step] = values]: an extended slice takes exactly as
    many values as it has positions, and raises [ValueError] otherwise. *)
Definition py_set_stride {A : Type} (target : list A) (start step : nat)
    (values : list A) : result (list A) :=
  let idx := stride_indices (length target) start step in
  if decide (length idx = length values) then
    OK (foldl (λ r iv, <[iv.1 := iv.2]> r) target (zip idx values))
  else Raise ValueError.

Definition __intersperse {A : Type} (lst : list A) (item : A)
  : result (list A) :=
  let result := replicate (length lst * 2 + 1) item in
  py_set_stride result 1 2 lst.

(** The [if hps.data.add_blank] block of [get_text_onnx], on the three
    sequences and on [word2ph], which is updated in place. *)
Definition get_text_onnx_add_blank (phone tone language word2ph : list Z)
  : result (list Z * list Z * list Z * list Z) :=
  phone ← __intersperse phone 0;
  tone ← __intersperse tone 0;
  language ← __intersperse language 0;
  let word2ph :=
    foldl (λ w i, alter (λ v, v * 2) i w) word2ph (seq 0 (length word2ph)) in
  first ← py_get word2ph 0;
  OK (phone, tone, language, <[0%nat := first + 1]> word2ph).

(** ** More of [str] *)

(** [s.split(sep)] for a one-character separator, on the characters of
    [s]; [cur] is the piece being read. *)
Fixpoint py_split_on (sep : string) (s : list string) (cur : list string)
  : list (list string) :=
  match s with
  | [] => [cur]
  | c :: s' =>
      if decide (c = sep) then cur :: py_split_on sep s' []
      else py_split_on sep s' (cur ++ [c])
  end.

(** [l[i] = v]; [IndexError] out of range. *)
Definition py_set {A : Type} (l : list A) (i : Z) (v : A) : result (list A) :=
  let len := Z.of_nat (length l) in
  let k := if decide (i < 0) then i + len else i in
  if decide (0 ≤ k < len) then OK (<[Z.to_nat k := v]> l)
  else Raise IndexError.

(** The line feed, the one character that [.] does not match. *)
Definition line_feed : string := String (ascii_of_nat 10) EmptyString.

(** ** The homograph patch: [__yomikata_patch] *)

(** [__YOMI_PATTERN.fullmatch(i)] for the pattern [..*/..*]: no line feed,
    and a slash with at least one character before it and one after. *)
Definition yomi_pattern_fullmatch (i : list string) : bool :=
  forallb (λ c, bool_decide (c ≠ line_feed)) i
  && existsb (λ k, bool_decide (i !! k = Some "/"))
             (seq 1 (length i - 2)).

Section Yomikata.
(** The collaborators outside the module: [dBert().furigana] and
    [jaconv.hira2kata]. *)
Context (furigana : string → string).
Context (hira2kata : string → string).

(** The two lists [convert_list_text] and [convert_list_kana] that the
    reader's output gives. *)
Definition yomikata_conversions (sep_text : list string)
  : result (list string * list string) :=
  let norm_text := py_join sep_text in
  let out_text := py_chars (furigana norm_text) in
  let out_text := map (λ c, if decide (c = "{") then "|" else c) out_text in
  let out_text := map (λ c, if decide (c = "}") then "|" else c) out_text in
  let out_list := py_split_on "|" out_text [] in
  for_each out_list
    (λ '(convert_list_text, convert_list_kana) i,
       if yomi_pattern_fullmatch i then
         let word := py_split_on "/" i [] in
         word0 ← py_get word 0;
         word1 ← py_get word 1;
         let kana := hira2kata (py_join word1) in
         OK (convert_list_text ++ [py_join word0], convert_list_kana ++ [kana])
       else OK (convert_list_text, convert_list_kana))
    ([], []).

(** The inner loop [for ii in range(0, len(convert_list_text))] for the
    word at [i]. *)
Definition yomikata_overwrite (sep_text convert_list_text convert_list_kana
    : list string) (sep_kata : list string) (i : nat)
  : result (list string) :=
  for_each (seq 0 (length convert_list_text))
    (λ sep_kata ii,
       text ← py_get sep_text (Z.of_nat i);
       conv ← py_get convert_list_text (Z.of_nat ii);
       if decide (text = conv) then
         kana ← py_get convert_list_kana (Z.of_nat ii);
         py_set sep_kata (Z.of_nat i) kana
       else OK sep_kata)
    sep_kata.

Definition __yomikata_patch (sep_text sep_kata : list string)
  : result (list string) :=
  '(convert_list_text, convert_list_kana) ← yomikata_conversions sep_text;
  for_each (seq 0 (length sep_text))
    (yomikata_overwrite sep_text convert_list_text convert_list_kana)
    sep_kata.
End Yomikata.

(** A reader that annotates nothing, and one that annotates the word 何. *)
Definition sample_furigana (norm_text : string) : string :=
  if decide (norm_text = "何が") then "{何/なに}が" else norm_text.

Definition sample_hira2kata (s : string) : string :=
  if decide (s = "なに") then "ナニ" else s.

(** ** The second analyzer: [__fugashi_sep_kata] *)

(** The quotation mark. *)
Definition double_quote : string := String (ascii_of_nat 34) EmptyString.

(** The position of the last [c] in [l]. *)
Definition last_index (c : string) (l : list string) : option nat :=
  foldl (λ found ix, if decide (ix.2 = c) then Some ix.1 else found) None
        (imap (λ i x, (i, x)) l).

(** The characters up to the end of the line. *)
Fixpoint line_rest (s : list string) : list string :=
  match s with
  | [] => []
  | c :: s' => if decide (c = line_feed) then [] else c :: line_rest s'
  end.

(** [re.search(r'".*,.*"', feature)], as [(start, end)]: the first
    quotation mark that has, further on its line, a comma and then another
    quotation mark; both [.*] being greedy, the match ends after the last
    quotation mark of that line.  [p] is the position of [s] in the
    string. *)
Fixpoint quoted_accent_search (s : list string) (p : nat)
  : option (nat * nat) :=
  match s with
  | [] => None
  | c :: rest =>
      let here :=
        if decide (c = double_quote) then
          let seg := line_rest rest in
          match last_index double_quote seg with
          | Some q =>
              if bool_decide ("," ∈ take q seg)
              then Some (p, (p + q + 2)%nat) else None
          | None => None
          end
        else None in
      match here with
      | Some m => Some m
      | None => quoted_accent_search rest (S p)
      end
  end.

(** A character of the class
    [[ァ-ロワ-ヴぁ-ろわ-ん－a-zA-Zａ-ｚＡ-Ｚ]]. *)
Definition is_kana_or_latin (c : string) : bool :=
  let cp := code_point c in
  ((12449 <=? cp) && (cp <=? 12525) || (12527 <=? cp) && (cp <=? 12532)
   || (12353 <=? cp) && (cp <=? 12429) || (12431 <=? cp) && (cp <=? 12435)
   || (cp =? 65293)
   || (97 <=? cp) && (cp <=? 122) || (65 <=? cp) && (cp <=? 90)
   || (65345 <=? cp) && (cp <=? 65370) || (65313 <=? cp) && (cp <=? 65338))%N.

(** [re.match(pattern, s)] for a pattern [[class]+]: the first character
    is in the class. *)
Definition match_class (class : string → bool) (s : string) : bool :=
  match py_chars s with
  | c :: _ => class c
  | [] => false
  end.

Section Fugashi.
Context (PUNCTUATIONS : list string).
Context (run_frontend : string → list (string * string)).
(** The tagger that [dict_path] and [user_dict_path] select, applied to
    the text: for every word, [(str(word), word.feature_raw)]. *)
Context (tagger : string → list (string * string)).

(** The feature string with a quoted pair of accents rewritten: the
    commas inside the quotation marks become slashes and the quotation
    marks go. *)
Definition unquote_accents (feature : list string) : list string :=
  match quoted_accent_search feature 0 with
  | Some (accStart, accEnd) =>
      let accent :=
        map (λ c, if decide (c = ",") then "/" else c)
            (py_slice feature (Z.of_nat accStart) (Z.of_nat accEnd)) in
      py_slice feature 0 (Z.of_nat accStart)
      ++ filter (λ c, c ≠ double_quote) accent
      ++ py_slice_from feature (Z.of_nat accEnd)
  | None => feature
  end.

(** One turn of [for word in tagger(text)]; the state is
    [(word_list, kana_list, accent_list, pos_list)]. *)
Definition fugashi_word
    (st : list string * list string * list string * list string)
    (word : string * string)
  : result (list string * list string * list string * list string) :=
  let '(word_list, kana_list, accent_list, pos_list) := st in
  let surface := word.1 in
  let feature := unquote_accents (py_chars word.2) in
  let feature := map py_join (py_split_on "," feature []) in
  if decide (length feature = 29%nat) then
    pos1 ← py_get feature 0;
    kana ← py_get feature 9;
    accent ← py_get feature 24;
    let kana := if decide (kana = "*") then "'" else kana in
    let kana :=
      if match_class (λ c, str_in c ["!"; "?"]) surface then surface
      else kana in
    OK (word_list ++ [surface], kana_list ++ [kana],
        accent_list ++ [accent], pos_list ++ [pos1])
  else if match_class is_kana_or_latin surface then
    '(word, kana) ← text_to_sep_kata PUNCTUATIONS run_frontend surface false;
    OK (word_list ++ word, kana_list ++ kana,
        accent_list ++ replicate (length word) "0",
        pos_list ++ replicate (length word) "未分類")
  else
    OK (word_list ++ [surface], kana_list ++ ["'"],
        accent_list ++ ["*"], pos_list ++ ["未分類"]).

(** One turn of the last loop, [for i in range(len(accent_list))]. *)
Definition fugashi_accent (accent_list : list string) (i : nat)
  : result (list string) :=
  accent ← py_get accent_list (Z.of_nat i);
  if decide (accent = "*") then py_set accent_list (Z.of_nat i) "0"
  else if decide (length (py_chars accent) = 3%nat) then
    first ← py_get (py_split_on "/" (py_chars accent) []) 0;
    py_set accent_list (Z.of_nat i) (py_join first)
  else OK accent_list.

Definition __fugashi_sep_kata (text : string)
  : result (list string * list string * list string * list string) :=
  '(word_list, kana_list, accent_list, pos_list) ←
    for_each (tagger text) fugashi_word ([], [], [], []);
  accent_list ←
    for_each (seq 0 (length accent_list)) fugashi_accent accent_list;
  OK (word_list, kana_list, accent_list, pos_list).
End Fugashi.

(** A tagger that knows no word: every text is one word with an empty
    feature string. *)
Definition sample_tagger (text : string) : list (string * string) :=
  [(text, "")].

(** ** The dialect rules: [__hougen_patch] *)

(** [s.replace(old, new)] on characters, for a non-empty [old]: the
    occurrences of [old] are replaced from left to right, without
    overlap; [skip] counts the characters of an occurrence still to be
    passed over. *)
Fixpoint str_replace (old new s : list string) (skip : nat) : list string :=
  match s with
  | [] => []
  | c :: rest =>
      match skip with
      | S k => str_replace old new rest k
      | O =>
          if bool_decide (old `prefix_of` s)
          then new ++ str_replace old new rest (length old - 1)
          else c :: str_replace old new rest 0
      end
  end.

Definition py_replace (old new s : string) : string :=
  py_join (str_replace (py_chars old) (py_chars new) (py_chars s) 0).

(** [old in s] on characters. *)
Fixpoint str_contains (old s : list string) : bool :=
  bool_decide (old `prefix_of` s) ||
  match s with
  | [] => false
  | _ :: rest => str_contains old rest
  end.

(** [if old in s: s = s.replace(old, new)] *)
Definition replace_if_in (old new s : string) : string :=
  if str_contains (py_chars old) (py_chars s) then py_replace old new s
  else s.

(** [s[:k] + x + s[k:]] *)
Definition str_insert_at (s : string) (k : nat) (x : string) : string :=
  py_join (py_slice (py_chars s) 0 (Z.of_nat k) ++ [x]
           ++ py_slice_from (py_chars s) (Z.of_nat k)).

(** [str(n)] for a natural number: its decimal digits. *)
Fixpoint nat_digits (fuel n : nat) (acc : string) : string :=
  match fuel with
  | O => acc
  | S fuel' =>
      let acc' := String (ascii_of_nat (48 + n mod 10)) acc in
      if decide (n < 10)%nat then acc' else nat_digits fuel' (n / 10) acc'
  end.

Definition py_str_nat (n : nat) : string := nat_digits (S n) n "".

(** The length of the run of characters of a class at the head of [s]. *)
Fixpoint run_length (class : string → bool) (s : list string) : nat :=
  match s with
  | c :: rest => if class c then S (run_length class rest) else O
  | [] => O
  end.

(** [pattern.search(s)] for a pattern [[single]|[repeated]+], as
    [(start, end)]: the first character that is in one of the two
    classes, alone when it is in [single], with the run of [repeated]
    that it starts otherwise.  [p] is the position of [s] in the
    string. *)
Fixpoint class_search (single repeated : string → bool) (s : list string)
    (p : nat) : option (nat * nat) :=
  match s with
  | [] => None
  | c :: rest =>
      if single c then Some (p, S p)
      else if repeated c then Some (p, (p + run_length repeated s)%nat)
      else class_search single repeated rest (S p)
  end.

Definition in_class (class : string) (c : string) : bool :=
  str_in c (py_chars class).

(** [__KYUSYU_HATUON_PATTERN.fullmatch(c)] for one character [c]. *)
Definition kyusyu_hatuon (c : string) : bool := in_class "ヌニムモミ" c.

(** [__YOUON_PATTERN.search], [__A_DAN_PATTERN.search] and the like. *)
Definition youon_search (s : string) : option (nat * nat) :=
  class_search (λ _, false) (in_class "ァィゥェォャュョヮ") (py_chars s) 0.
Definition a_dan_search (s : string) : option (nat * nat) :=
  class_search (in_class "アカサタナハマヤラワガダバパ") (in_class "ャヮ")
               (py_chars s) 0.
Definition i_dan_search (s : string) : option (nat * nat) :=
  class_search (in_class "イキシチニヒミリギジビピ") (in_class "ィ")
               (py_chars s) 0.
Definition e_dan_search (s : string) : option (nat * nat) :=
  class_search (in_class "エケセテネヘメレゲデベペ") (in_class "ェ")
               (py_chars s) 0.
Definition o_dan_search (s : string) : option (nat * nat) :=
  class_search (in_class "オコソトノホモヨロゴゾドボポ") (in_class "ョォ")
               (py_chars s) 0.

(** The state of [__hougen_patch]: [(sep_kata, sep_acc)], both updated in
    place. *)
Definition hougen_state : Type := list string * list string.

(** [sep_kata[i] = f(sep_kata[i])] *)
Definition update_kana (st : hougen_state) (i : Z)
    (f : string → result string) : result hougen_state :=
  kana ← py_get st.1 i;
  kana ← f kana;
  sep_kata ← py_set st.1 i kana;
  OK (sep_kata, st.2).

(** [sep_acc[i] = v] *)
Definition set_acc (st : hougen_state) (i : Z) (v : string)
  : result hougen_state :=
  sep_acc ← py_set st.2 i v;
  OK (st.1, sep_acc).

(** [for i in range(len(sep_kata)): body] *)
Definition each_kana (body : hougen_state → nat → result hougen_state)
    (st : hougen_state) : result hougen_state :=
  for_each (seq 0 (length st.1)) body st.

(** The replacements of a block, applied in order. *)
Definition replace_all_in (pairs : list (string * string)) (s : string)
  : string :=
  foldl (λ s p, replace_if_in p.1 p.2 s) s pairs.

Definition hougen_kyusyu (st : hougen_state) (i : nat)
  : result hougen_state :=
  update_kana st (Z.of_nat i) (λ kana,
    let kana := py_replace "エ" "イェ" kana in
    let kana := py_replace "セ" "シェ" kana in
    let kana := py_replace "ゼ" "ジェ" kana in
    let num := py_len (py_chars kana) in
    last_char ← py_get (py_chars kana) (num - 1);
    if kyusyu_hatuon last_char
    then OK (py_join (py_slice (py_chars kana) 0 (num - 1) ++ ["ン"]))
    else OK kana).

Definition hougen_kinki (sep_pos : list string) (st : hougen_state) (i : nat)
  : result hougen_state :=
  pos ← py_get sep_pos (Z.of_nat i);
  kana ← py_get st.1 (Z.of_nat i);
  if bool_decide (pos = "名詞")
     && bool_decide (py_len (py_chars kana) = 1) then
    (* [sep_kata[i] == "!" or "?" or "'"] is a non-empty string when it is
       not [True] *)
    update_kana st (Z.of_nat i) (λ kana, OK (kana +:+ "ー"))
  else OK st.

Definition hougen_replace (pairs : list (string * string))
    (st : hougen_state) (i : nat) : result hougen_state :=
  update_kana st (Z.of_nat i) (λ kana, OK (replace_all_in pairs kana)).

(** A replacement block that also sets the first accent code, at every
    turn. *)
Definition hougen_replace_acc (pairs : list (string * string)) (acc : string)
    (st : hougen_state) (i : nat) : result hougen_state :=
  st ← hougen_replace pairs st i;
  set_acc st 0 acc.

Definition hougen_hatuonbin (st : hougen_state) (i : nat)
  : result hougen_state :=
  update_kana st (Z.of_nat i) (λ kana,
    if decide (py_len (py_chars kana) ≠ 1) then
      let inner := py_slice (py_chars kana) 1 (-1) in
      if str_contains ["ナ"] inner then OK (py_replace "ナ" "ン" kana)
      else if str_contains ["ノ"] inner then OK (py_replace "ノ" "ン" kana)
      else if str_contains ["ル"] inner then OK (py_replace "ル" "ン" kana)
      else if str_contains ["ラ"] inner then OK (py_replace "ラ" "ン" kana)
      else OK kana
    else OK kana).

(** [add_youon_a] and [add_youon_e]: the glide goes after the match, which
    becomes the nucleus. *)
Definition hougen_add_youon_nucleus (search : string → option (nat * nat))
    (glide : string) (st : hougen_state) (i : nat) : result hougen_state :=
  kana ← py_get st.1 (Z.of_nat i);
  match search kana with
  | Some (_, e) =>
      st ← update_kana st (Z.of_nat i)
             (λ kana, OK (str_insert_at kana e glide));
      set_acc st (Z.of_nat i) (py_str_nat e)
  | None => OK st
  end.

Definition hougen_add_youon_i (st : hougen_state) (i : nat)
  : result hougen_state :=
  kana ← py_get st.1 (Z.of_nat i);
  match i_dan_search kana with
  | Some (_, e) =>
      next_is_ya ←
        (if decide (Z.of_nat e < py_len (py_chars kana)) then
           c ← py_get (py_chars kana) (Z.of_nat e);
           OK (bool_decide (c = "ャ"))
         else OK true);
      if bool_decide (Z.of_nat e < py_len (py_chars kana))
         && negb next_is_ya
         || negb (str_contains ["ャ"] (py_chars kana)) then
        st ← update_kana st (Z.of_nat i)
               (λ kana, OK (str_insert_at kana e "ィ"));
        set_acc st (Z.of_nat i) "1"
      else OK st
  | None => OK st
  end.

Definition hougen_add_youon_o (st : hougen_state) (i : nat)
  : result hougen_state :=
  kana ← py_get st.1 (Z.of_nat i);
  match o_dan_search kana with
  | Some (_, e) =>
      st ← update_kana st (Z.of_nat i)
             (λ kana, OK (str_insert_at kana e "ォ"));
      set_acc st (Z.of_nat i) "1"
  | None => OK st
  end.

(** [1st_mora_tyouon] and [1st_mora_sokuon]: [mark] goes after the first
    mora of the first word, which gets the accent code 1. *)
Definition hougen_first_mora (mark : string) (st : hougen_state)
  : result hougen_state :=
  first ← py_get st.1 0;
  st ←
    match youon_search first with
    | Some (s, e) =>
        if decide (s = 1%nat)
        then update_kana st 0 (λ kana, OK (str_insert_at kana e mark))
        else OK st
    | None =>
        update_kana st 0 (λ kana,
          c ← py_get (py_chars kana) 0;
          OK (py_join ([c] ++ [mark] ++ py_slice_from (py_chars kana) 1)))
    end;
  set_acc st 0 "1".

Definition hougen_first_mora_remove (st : hougen_state)
  : result hougen_state :=
  first ← py_get st.1 0;
  match youon_search first with
  | Some (s, e) =>
      if decide (s = 1%nat)
      then update_kana st 0 (λ kana,
             OK (py_join (["ッ"]
                          ++ py_slice_from (py_chars kana) (Z.of_nat e))))
      else OK st
  | None =>
      update_kana st 0 (λ kana,
        OK (py_join (["ッ"] ++ py_slice_from (py_chars kana) 1)))
  end.

Definition hougen_first_mora_renboin (st : hougen_state)
  : result hougen_state :=
  first ← py_get st.1 0;
  match o_dan_search first with
  | Some (_, e) =>
      st ← update_kana st 0 (λ kana, OK (str_insert_at kana e "ゥ"));
      set_acc st 0 "1"
  | None =>
      first ← py_get st.1 0;
      match e_dan_search first with
      | Some (_, e) =>
          st ← update_kana st 0 (λ kana, OK (str_insert_at kana e "ィ"));
          set_acc st 0 "1"
      | None => OK st
      end
  end.

Definition hougen_last_mora_acc_h (st : hougen_state)
  : result hougen_state :=
  last_word ← py_get st.1 (py_len st.1 - 1);
  set_acc st (py_len st.2 - 1) (py_str_nat (length (py_chars last_word))).

Definition hougen_last_word_acc_1 (st : hougen_state)
  : result hougen_state :=
  set_acc st (py_len st.2 - 1) "1".

(** The blocks of [__hougen_patch], each with the name that enables it, in
    the order of the code. *)
Definition hougen_blocks (sep_pos : list string)
  : list (string * (hougen_state → result hougen_state)) :=
  [("kyusyu", each_kana hougen_kyusyu);
   ("kinki", each_kana (hougen_kinki sep_pos));
   ("convert2b2v",
    each_kana (hougen_replace
      [("バ", "ヴァ"); ("ビ", "ヴィ"); ("ブ", "ヴ"); ("ベ", "ヴェ");
       ("ボ", "ヴォ")]));
   ("convert2t2ts",
    each_kana (hougen_replace
      [("タ", "ツァ"); ("チ", "ツィ"); ("テ", "ツェ"); ("ト", "ツォ")]));
   ("convert2d2r",
    each_kana (hougen_replace_acc
      [("ダ", "ラ"); ("デ", "レ"); ("ド", "ロ")] "0"));
   ("convert2r2d",
    each_kana (hougen_replace_acc
      [("ラ", "ダ"); ("レ", "デ"); ("ロ", "ド")] "1"));
   ("convert2s2z_sh2j",
    each_kana (hougen_replace_acc
      [("サ", "ザ"); ("スィ", "ズィ"); ("ス", "ズ"); ("セ", "ゼ");
       ("ソ", "ゾ"); ("シャ", "ジャ"); ("シ", "ジ"); ("シュ", "ジュ");
       ("シェ", "ジェ"); ("ショ", "ジョ")] "1"));
   ("hatuonbin", each_kana hougen_hatuonbin);
   ("youjigo_like",
    each_kana (hougen_replace
      [("サ", "チャ"); ("シ", "チ"); ("ス", "チュ"); ("セ", "チェ");
       ("ソ", "チョ")]));
   ("add_youon_a", each_kana (hougen_add_youon_nucleus a_dan_search "ァ"));
   ("add_youon_i", each_kana hougen_add_youon_i);
   ("add_youon_e", each_kana (hougen_add_youon_nucleus e_dan_search "ェ"));
   ("add_youon_o", each_kana hougen_add_youon_o);
   ("1st_mora_tyouon", hougen_first_mora "ー");
   ("1st_mora_sokuon", hougen_first_mora "ッ");
   ("1st_mora_remove", hougen_first_mora_remove);
   ("1st_mora_renboin", hougen_first_mora_renboin);
   ("last_mora_acc_h", hougen_last_mora_acc_h);
   ("last_word_acc_1", hougen_last_word_acc_1)].

(** [__hougen_patch] for a list of dialect names, as its signature has
    it: every block whose name is in [hougen_id] runs, in the order of the
    code. *)
Definition __hougen_patch (sep_kata sep_acc sep_pos hougen_id : list string)
  : result (list string * list string) :=
  for_each (hougen_blocks sep_pos)
    (λ st block, if str_in block.1 hougen_id then block.2 st else OK st)
    (sep_kata, sep_acc).

(** Two states with lists of the same lengths. *)
Definition same_shape (st st' : hougen_state) : Prop :=
  length st'.1 = length st.1 ∧ length st'.2 = length st.2.

(** ** Notions used to reason about [__kata_to_phoneme_list] *)

(** A character that is not white space. *)
Definition plain_char (c : string) : Prop := c ≠ "" ∧ is_space c = false.

(** Characters in which every space is followed by a character that is
    not white space. *)
Inductive well_spaced : list string → Prop :=
| well_spaced_nil : well_spaced []
| well_spaced_char c l :
    plain_char c → well_spaced l → well_spaced (c :: l)
| well_spaced_space c l :
    plain_char c → well_spaced l → well_spaced (" " :: c :: l).

(** A mora table whose phonemes are not empty and hold no white space. *)
Definition mora_table_plain
    (MORA : list (string * (option string * string))) : Prop :=
  ∀ k c v, (k, (c, v)) ∈ MORA →
    v ≠ "" ∧ Forall plain_char (py_chars v) ∧
    ∀ c', c = Some c' → c' ≠ "" ∧ Forall plain_char (py_chars c').

(* ===================================================================== *)
(** * Properties *)
(* ===================================================================== *)

Lemma bind_OK {A B} (m : result A) (f : A → result B) b :
  (m ≫= f) = OK b → ∃ a, m = OK a ∧ f a = OK b.
Proof. destruct m as [a|e]; simpl; [eauto | discriminate]. Qed.

Lemma bind_Raise {A B} (m : result A) (f : A → result B) e :
  m = Raise e → (m ≫= f) = Raise e.
Proof. intros ->. reflexivity. Qed.

Ltac inv_bind H :=
  let a := fresh "a" in
  let Ha := fresh "Ha" in
  apply bind_OK in H; destruct H as (a & Ha & H).

(** ** [__distribute_phone] *)

Lemma foldl_min_le (l : list Z) (x : Z) :
  foldl Z.min x l ≤ x ∧ ∀ y, y ∈ l → foldl Z.min x l ≤ y.
Proof.
  revert x. induction l as [|a l IH]; intros x; simpl.
  - split; [lia | intros y Hy; inversion Hy].
  - destruct (IH (Z.min x a)) as [H1 H2]. split; [lia|].
    intros y Hy. apply elem_of_cons in Hy as [->|Hy]; [lia | auto].
Qed.

Lemma foldl_min_in (l : list Z) (x : Z) :
  foldl Z.min x l = x ∨ foldl Z.min x l ∈ l.
Proof.
  revert x. induction l as [|a l IH]; intros x; simpl; [by left|].
  destruct (IH (Z.min x a)) as [H|H].
  - rewrite H. destruct (Z.min_spec x a) as [[_ ->]|[_ ->]];
      [by left | right; apply list_elem_of_here].
  - right. by apply list_elem_of_further.
Qed.

Lemma py_min_spec (l : list Z) (m : Z) :
  py_min l = OK m → m ∈ l ∧ ∀ y, y ∈ l → m ≤ y.
Proof.
  destruct l as [|x l]; simpl; [discriminate|]. intros [= <-].
  destruct (foldl_min_le l x) as [H1 H2]. split.
  - destruct (foldl_min_in l x) as [->|H];
      [apply list_elem_of_here | by apply list_elem_of_further].
  - intros y Hy. apply elem_of_cons in Hy as [->|Hy]; auto.
Qed.

Lemma py_index_spec (v : Z) (l : list Z) (i : nat) :
  py_index v l = OK i →
  l !! i = Some v ∧ ∀ j x, (j < i)%nat → l !! j = Some x → x ≠ v.
Proof.
  revert i. induction l as [|a l IH]; intros i; simpl; [discriminate|].
  destruct (decide (a = v)) as [->|Hne].
  - intros [= <-]. split; [done | intros; lia].
  - intros H. inv_bind H. injection H as <-.
    destruct (IH _ Ha) as [H1 H2]. split; [done|].
    intros [|j] x Hj; simpl; [intros [= ->]; done|].
    apply H2. lia.
Qed.

Lemma py_index_total (v : Z) (l : list Z) :
  v ∈ l → ∃ i, py_index v l = OK i.
Proof.
  induction l as [|a l IH]; intros Hin; [inversion Hin|]. simpl.
  destruct (decide (a = v)); [eauto|].
  apply elem_of_cons in Hin as [->|Hin]; [done|].
  destruct (IH Hin) as [i ->]. simpl. eauto.
Qed.

Lemma py_sum_cons (a : Z) (l : list Z) : py_sum (a :: l) = a + py_sum l.
Proof. reflexivity. Qed.

Lemma py_sum_app (l1 l2 : list Z) : py_sum (l1 ++ l2) = py_sum l1 + py_sum l2.
Proof.
  induction l1 as [|a l1 IH]; simpl; [done|]. rewrite !py_sum_cons, IH. lia.
Qed.

Lemma py_sum_insert (l : list Z) (i : nat) (x y : Z) :
  l !! i = Some x → py_sum (<[i:=y]> l) = py_sum l - x + y.
Proof.
  revert i. induction l as [|a l IH]; intros [|i]; simpl; try discriminate.
  - intros [= ->]. rewrite !py_sum_cons. lia.
  - intros H. rewrite !py_sum_cons, (IH _ H). lia.
Qed.

Lemma py_sum_replicate (n : nat) : py_sum (replicate n 0) = 0.
Proof. induction n; simpl; [done | rewrite py_sum_cons; lia]. Qed.

(** The loop body increments the leftmost slot holding the minimum. *)
Lemma distribute_step_leftmost_min (l l' : list Z) :
  distribute_step l = OK l' →
  ∃ (i : nat) (m : Z),
    l !! i = Some m ∧
    (∀ (j : nat) x, l !! j = Some x → m ≤ x) ∧
    (∀ (j : nat) x, (j < i)%nat → l !! j = Some x → m < x) ∧
    l' = <[i:=m + 1]> l.
Proof.
  unfold distribute_step. intros H.
  apply bind_OK in H as (m & Hm & H). apply bind_OK in H as (i & Hi & H).
  injection H as <-.
  apply py_min_spec in Hm as [Hin Hle].
  apply py_index_spec in Hi as [Hi Hlt].
  exists i, m. split_and!; [done| | |done].
  - intros j x Hj. apply Hle. by eapply list_elem_of_lookup_2.
  - intros j x Hji Hj. specialize (Hlt _ _ Hji Hj).
    assert (m ≤ x) by (apply Hle; by eapply list_elem_of_lookup_2). lia.
Qed.

Lemma distribute_step_total (l : list Z) :
  l ≠ [] →
  ∃ l', distribute_step l = OK l' ∧ length l' = length l ∧
        py_sum l' = py_sum l + 1.
Proof.
  intros Hne. unfold distribute_step.
  destruct (py_min l) as [m|e] eqn:Hm; [|destruct l; [done | discriminate]].
  destruct (py_min_spec _ _ Hm) as [Hin _].
  destruct (py_index_total _ _ Hin) as [i Hi]. simpl. rewrite Hi. simpl.
  eexists. split; [done|]. apply py_index_spec in Hi as [Hi _].
  split; [by rewrite length_insert|].
  rewrite (py_sum_insert _ _ _ _ Hi). lia.
Qed.

Lemma distribute_loop_total (n : nat) (l : list Z) :
  l ≠ [] →
  ∃ l', repeat_body n distribute_step l = OK l' ∧ length l' = length l ∧
        py_sum l' = py_sum l + Z.of_nat n.
Proof.
  revert l. induction n as [|n IH]; intros l Hne; simpl.
  - exists l. split_and!; [done..|lia].
  - destruct (distribute_step_total l Hne) as (l1 & -> & Hlen & Hsum). simpl.
    destruct (IH l1) as (l2 & -> & Hlen2 & Hsum2).
    { intros ->. destruct l; [done | discriminate]. }
    exists l2. split_and!; [done | congruence | lia].
Qed.

Lemma distribute_loop_single (n : nat) (x : Z) :
  repeat_body n distribute_step [x] = OK [x + Z.of_nat n].
Proof.
  revert x. induction n as [|n IH]; intros x; simpl.
  - do 2 f_equal. lia.
  - assert (distribute_step [x] = OK [x + 1]) as ->.
    { unfold distribute_step. simpl. destruct (decide (x = x)); done. }
    simpl. rewrite IH. do 2 f_equal. lia.
Qed.

(** C6. [__distribute_phone] hands out the phonemes one at a time, each to
    the leftmost unit that currently holds the minimum count;
    [__distribute_phone(7, 3) = [3, 2, 2]], [__distribute_phone(n, 1) = [n]]
    for every [n >= 0], and for [n_phone >= 0], [n_word >= 1] the result has
    [n_word] entries that sum to [n_phone]. *)
Theorem distribute_phone_round_robin (n_phone n_word : Z)
    (Hphone : 0 ≤ n_phone) (Hword : 1 ≤ n_word) :
  __distribute_phone 7 3 = OK [3; 2; 2] ∧
  __distribute_phone n_phone 1 = OK [n_phone] ∧
  (∃ l, __distribute_phone n_phone n_word = OK l ∧
        py_len l = n_word ∧ py_sum l = n_phone) ∧
  (∀ l l', distribute_step l = OK l' →
     ∃ (i : nat) (m : Z),
       l !! i = Some m ∧
       (∀ (j : nat) x, l !! j = Some x → m ≤ x) ∧
       (∀ (j : nat) x, (j < i)%nat → l !! j = Some x → m < x) ∧
       l' = <[i:=m + 1]> l).
Proof.
  split_and!.
  - reflexivity.
  - unfold __distribute_phone. change (Z.to_nat 1) with 1%nat. simpl.
    rewrite distribute_loop_single. do 2 f_equal. lia.
  - unfold __distribute_phone.
    destruct (distribute_loop_total (Z.to_nat n_phone)
                (replicate (Z.to_nat n_word) 0)) as (l & Hl & Hlen & Hsum).
    { destruct (Z.to_nat n_word) eqn:E; [lia | discriminate]. }
    exists l. split; [done|]. unfold py_len.
    rewrite Hlen, length_replicate, Hsum, py_sum_replicate. lia.
  - apply distribute_step_leftmost_min.
Qed.

Lemma distribute_phone_round_robin_witness :
  0 ≤ 7 ∧ 1 ≤ 3 ∧
  ∃ l, __distribute_phone 7 3 = OK l ∧ py_len l = 3 ∧ py_sum l = 7.
Proof.
  split; [lia|]. split; [lia|].
  apply (distribute_phone_round_robin 7 3); lia.
Defined.

(** ** [__align_tones] *)

Section AlignTonesFacts.
Context (PUNCTUATIONS : list string).

Lemma align_loop_spec (phones : list string) (ptl : list (string * Z))
    (res : list (string * Z)) (i : nat) :
  (for_each phones (align_step PUNCTUATIONS ptl) (res, i)
     ≫= λ st, OK st.1)
  = (align_spec PUNCTUATIONS phones ptl i ≫= λ rest, OK (res ++ rest)).
Proof.
  revert res i. induction phones as [|ph phones IH]; intros res i; simpl.
  - by rewrite app_nil_r.
  - destruct (decide (length ptl ≤ i)%nat) as [Hge|Hlt].
    + rewrite (lookup_ge_None_2 ptl i Hge). simpl. rewrite IH.
      destruct (align_spec _ phones ptl i); simpl; [|done].
      by rewrite <- app_assoc.
    + destruct (lookup_lt_is_Some_2 ptl i) as [[p t] Hpt]; [lia|].
      rewrite Hpt. destruct (decide (ph = p)) as [->|Hne]; simpl.
      * rewrite IH. destruct (align_spec _ phones ptl (S i)); simpl; [|done].
        by rewrite <- app_assoc.
      * destruct (str_in ph PUNCTUATIONS); simpl; [|done].
        rewrite IH. destruct (align_spec _ phones ptl i); simpl; [|done].
        by rewrite <- app_assoc.
Qed.

Lemma align_spec_phones (phones : list string) (ptl : list (string * Z))
    (i : nat) (out : list (string * Z)) :
  align_spec PUNCTUATIONS phones ptl i = OK out → out.*1 = phones.
Proof.
  revert i out. induction phones as [|ph phones IH]; intros i out; simpl.
  - by intros [= <-].
  - destruct (ptl !! i) as [[p t]|].
    + destruct (decide (ph = p)) as [->|Hne].
      * intros H. inv_bind H. injection H as <-. simpl. f_equal. eauto.
      * destruct (str_in ph PUNCTUATIONS); [|discriminate].
        intros H. inv_bind H. injection H as <-. simpl. f_equal. eauto.
    + intros H. inv_bind H. injection H as <-. simpl. f_equal. eauto.
Qed.

(** Tones produced by the aligner are 0 or come from the tone list. *)
Lemma align_spec_tones (P : Z → Prop) (phones : list string)
    (ptl : list (string * Z)) (i : nat) (out : list (string * Z)) :
  P 0 → Forall P ptl.*2 →
  align_spec PUNCTUATIONS phones ptl i = OK out → Forall P out.*2.
Proof.
  intros H0 Hptl. revert i out.
  induction phones as [|ph phones IH]; intros i out; simpl.
  - intros [= <-]. constructor.
  - destruct (ptl !! i) as [[p t]|] eqn:Hi.
    + assert (HPt : P t).
      { rewrite Forall_forall in Hptl. apply Hptl.
        apply list_elem_of_fmap. exists (p, t). split; [done|].
        by eapply list_elem_of_lookup_2. }
      destruct (decide (ph = p)) as [->|Hne].
      * intros H. inv_bind H. injection H as <-. simpl.
        constructor; eauto.
      * destruct (str_in ph PUNCTUATIONS); [|discriminate].
        intros H. inv_bind H. injection H as <-. simpl.
        constructor; eauto.
    + intros H. inv_bind H. injection H as <-. simpl. constructor; eauto.
Qed.

Lemma align_tones_eq_spec (phones : list string) (ptl : list (string * Z)) :
  __align_tones PUNCTUATIONS phones ptl = align_spec PUNCTUATIONS phones ptl 0.
Proof.
  unfold __align_tones. rewrite align_loop_spec.
  destruct (align_spec _ phones ptl 0); done.
Qed.

(** C3. [__align_tones] is the cursor walk of section 4.5: past the end of
    the tone list a phoneme gets tone 0 and the cursor stays; a phoneme
    equal to the cursor's entry takes its tone and advances the cursor; a
    punctuation gets tone 0 and the cursor stays; anything else is an
    alignment error.  On success there is exactly one output pair per
    input phoneme, in input order. *)
Theorem align_tones_cursor_walk (phones : list string)
    (ptl : list (string * Z)) :
  __align_tones PUNCTUATIONS phones ptl
    = align_spec PUNCTUATIONS phones ptl 0 ∧
  ∀ out, __align_tones PUNCTUATIONS phones ptl = OK out →
         out.*1 = phones ∧ length out = length phones.
Proof.
  split; [apply align_tones_eq_spec|].
  intros out. rewrite align_tones_eq_spec. intros H.
  apply align_spec_phones in H. split; [done|].
  by rewrite <- H, length_fmap.
Qed.
End AlignTonesFacts.

Lemma align_tones_cursor_walk_witness :
  __align_tones ["!"; "?"; ","; "."] ["."; "w"; "a"; ","; "s"; "o"; "."]
                [("w", 0); ("a", 1); ("s", 0); ("o", 1)]
  = OK [(".", 0); ("w", 0); ("a", 1); (",", 0); ("s", 0); ("o", 1); (".", 0)]
  ∧ ∀ out,
      __align_tones ["!"; "?"; ","; "."]
                    ["."; "w"; "a"; ","; "s"; "o"; "."]
                    [("w", 0); ("a", 1); ("s", 0); ("o", 1)] = OK out →
      out.*1 = ["."; "w"; "a"; ","; "s"; "o"; "."].
Proof.
  split; [reflexivity|]. intros out H.
  exact (proj1 (proj2 (align_tones_cursor_walk _ _ _) out H)).
Defined.

(** ** [__fix_phone_tone] *)

Lemma fix_phone_tone_shift (l : list (string * Z)) :
  map (λ '(letter, tone), (letter, if decide (tone = -1) then 0 else 1)) l
  = map shift_tone l.
Proof. apply map_ext. by intros [p t]. Qed.

(** C2. [__fix_phone_tone] returns the buffer unchanged when its tone set is
    {0} or {0,1}; when it is {-1,0} every tone -1 becomes 0 and every tone 0
    becomes 1; for every other tone set (the empty set and {1} included) it
    raises instead of returning. *)
Theorem fix_phone_tone_cases (l : list (string * Z)) :
  (tone_values l = {[0]} ∨ tone_values l = {[0; 1]} →
     __fix_phone_tone l = OK l) ∧
  (tone_values l = {[-1; 0]} →
     ∃ out, __fix_phone_tone l = OK out ∧ length out = length l ∧
       ∀ (i : nat) p t, l !! i = Some (p, t) →
         (t = -1 → out !! i = Some (p, 0)) ∧
         (t = 0 → out !! i = Some (p, 1))) ∧
  (tone_values l ≠ {[0]} → tone_values l ≠ {[0; 1]} →
   tone_values l ≠ {[-1; 0]} →
     ∃ e, __fix_phone_tone l = Raise e) ∧
  (tone_values l = ∅ ∨ tone_values l = {[1]} →
     ∃ e, __fix_phone_tone l = Raise e).
Proof.
  split_and!.
  - unfold __fix_phone_tone. intros [H|H]; rewrite H; reflexivity.
  - unfold __fix_phone_tone. intros H. rewrite H.
    eexists. split; [reflexivity|]. rewrite fix_phone_tone_shift.
    split; [by rewrite length_map|].
    intros i p t Hi. rewrite list_lookup_fmap, Hi. unfold shift_tone. simpl.
    split; intros ->; reflexivity.
  - unfold __fix_phone_tone. intros H1 H2 H3.
    destruct (decide (size (tone_values l) = 1%nat)).
    + rewrite bool_decide_eq_false_2 by done. simpl. eauto.
    + destruct (decide (size (tone_values l) = 2%nat)); [|eauto].
      rewrite decide_False by done. rewrite decide_False by done. eauto.
  - unfold __fix_phone_tone. intros [H|H]; rewrite H; eexists; reflexivity.
Qed.

Lemma fix_phone_tone_cases_witness :
  tone_values [("a", 0); ("i", -1); ("u", -1)] = {[-1; 0]} ∧
  ∃ out, __fix_phone_tone [("a", 0); ("i", -1); ("u", -1)] = OK out ∧
         out = [("a", 1); ("i", 0); ("u", 0)].
Proof.
  split; [reflexivity|].
  destruct (proj1 (proj2 (fix_phone_tone_cases
              [("a", 0); ("i", -1); ("u", -1)])) eq_refl)
    as (out & Hout & _).
  exists out. split; [exact Hout|].
  vm_compute in Hout. by injection Hout as <-.
Defined.

(** Every tone returned by [__fix_phone_tone] is 0 or 1. *)
Lemma fix_phone_tone_binary (l out : list (string * Z)) :
  __fix_phone_tone l = OK out → Forall (λ t, t = 0 ∨ t = 1) out.*2.
Proof.
  unfold __fix_phone_tone.
  assert (Hsub : ∀ s : gset Z, tone_values l = s →
            Forall (λ t, t ∈ s) l.*2).
  { intros s <-. apply Forall_forall. intros t Ht. unfold tone_values.
    by apply elem_of_list_to_set. }
  destruct (decide (size (tone_values l) = 1%nat)).
  - destruct (bool_decide (tone_values l = {[0]})) eqn:E; [|discriminate].
    apply bool_decide_eq_true_1 in E. simpl. intros [= <-].
    eapply Forall_impl; [exact (Hsub _ E)|]. simpl. intros t Ht.
    apply elem_of_singleton in Ht. auto.
  - destruct (decide (size (tone_values l) = 2%nat)); [|discriminate].
    destruct (decide (tone_values l = {[0; 1]})) as [E|_].
    + intros [= <-]. eapply Forall_impl; [exact (Hsub _ E)|]. simpl.
      intros t Ht.
      apply elem_of_union in Ht as [Ht|Ht]; apply elem_of_singleton in Ht; auto.
    + destruct (decide (tone_values l = {[-1; 0]})); [|discriminate].
      intros [= <-]. rewrite fix_phone_tone_shift.
      apply Forall_forall. intros t Ht.
      apply list_elem_of_fmap in Ht as ([p t'] & -> & Ht).
      apply list_elem_of_fmap in Ht as ([p0 t0] & [= -> ->] & _).
      simpl. destruct (decide (t0 = -1)); auto.
Qed.

(** ** [adjust_word2ph]: the two sweeps *)

Section Sweeps.
Implicit Types (a r : list Z) (idx i : nat) (diff : Z).

Lemma low_ok_refl x : low_ok x x.
Proof. unfold low_ok. lia. Qed.

Lemma low_ok_trans x y z : low_ok x y → low_ok y z → low_ok x z.
Proof. unfold low_ok. lia. Qed.

Lemma high_ok_refl x : high_ok x x.
Proof. unfold high_ok. lia. Qed.

Lemma high_ok_trans x y z : high_ok x y → high_ok y z → high_ok x z.
Proof. unfold high_ok. lia. Qed.

Lemma Forall2_refl_rel (R : Z → Z → Prop) a :
  (∀ x, R x x) → Forall2 R a a.
Proof. intros HR. induction a; constructor; auto. Qed.

Lemma Forall2_trans_rel (R : Z → Z → Prop) a b c :
  (∀ x y z, R x y → R y z → R x z) →
  Forall2 R a b → Forall2 R b c → Forall2 R a c.
Proof.
  intros HR Hab. revert c. induction Hab; intros c Hbc;
    inversion Hbc; subst; constructor; eauto.
Qed.

Lemma Forall2_update (R : Z → Z → Prop) a (p : nat) v y :
  (∀ x, R x x) → a !! p = Some v → R v y → Forall2 R a (<[p:=y]> a).
Proof.
  intros HR Hp Hvy. rewrite <- (list_insert_id a p v Hp) at 1.
  apply Forall2_insert; [by apply Forall2_refl_rel | done].
Qed.

Lemma repay_shortfall_low idx offsets a diff :
  0 < diff → Forall2 low_ok a (repay_shortfall idx offsets a diff).
Proof.
  revert a diff. induction offsets as [|i offsets IH]; intros a diff Hd; simpl.
  - apply Forall2_refl_rel, low_ok_refl.
  - destruct (a !! (idx + i)%nat) as [v|] eqn:Hv;
      [|apply Forall2_refl_rel, low_ok_refl].
    destruct (decide (v - diff >= 1)).
    + eapply Forall2_update; [apply low_ok_refl | done | unfold low_ok; lia].
    + assert (Forall2 low_ok a (<[(idx + i)%nat:=1]> a)).
      { eapply Forall2_update;
          [apply low_ok_refl | done | unfold low_ok; lia]. }
      destruct (decide (diff - (v - 1) = 0)); [done|].
      eapply Forall2_trans_rel; [apply low_ok_trans | done |].
      apply IH. lia.
Qed.

Lemma repay_shortfall_idx idx offsets a diff :
  Forall (λ i, 1 ≤ i)%nat offsets →
  repay_shortfall idx offsets a diff !! idx = a !! idx.
Proof.
  revert a diff. induction offsets as [|i offsets IH]; intros a diff Hoff;
    simpl; [done|].
  inversion Hoff as [|? ? Hi Hoff']; subst.
  destruct (a !! (idx + i)%nat) as [v|] eqn:Hv; [|done].
  destruct (decide (v - diff >= 1)).
  - apply list_lookup_insert_ne. lia.
  - destruct (decide (diff - (v - 1) = 0)).
    + apply list_lookup_insert_ne. lia.
    + rewrite IH by done. apply list_lookup_insert_ne. lia.
Qed.

Lemma seq_ge (k n : nat) : Forall (λ i, k ≤ i)%nat (seq k n).
Proof.
  apply Forall_forall. intros i Hi. apply elem_of_seq in Hi. lia.
Qed.

Lemma raise_slot_low a idx : Forall2 low_ok a (raise_slot a idx).
Proof.
  unfold raise_slot. destruct (a !! idx) as [e|] eqn:He;
    [|apply Forall2_refl_rel, low_ok_refl].
  destruct (decide (e < 1)); [|apply Forall2_refl_rel, low_ok_refl].
  eapply Forall2_trans_rel; [apply low_ok_trans | |].
  - eapply (Forall2_update low_ok a idx e 1);
      [apply low_ok_refl | done | unfold low_ok; lia].
  - apply repay_shortfall_low. lia.
Qed.

Lemma raise_slot_idx a idx e :
  a !! idx = Some e → ∃ y, raise_slot a idx !! idx = Some y ∧ 1 ≤ y.
Proof.
  intros He. unfold raise_slot. rewrite He.
  destruct (decide (e < 1)); [|exists e; split; [done | lia]].
  exists 1. split; [|lia].
  rewrite repay_shortfall_idx by apply seq_ge.
  apply list_lookup_insert_eq. by eapply lookup_lt_Some.
Qed.

Lemma low_ok_ge x y : low_ok x y → 1 ≤ x → 1 ≤ y.
Proof. unfold low_ok. lia. Qed.

(** The first sweep, slot by slot: after the slots [0..k-1] every one of
    them holds at least 1. *)
Lemma sweep_low_prefix a (k : nat) :
  (k ≤ length a)%nat →
  Forall2 low_ok a (foldl raise_slot a (seq 0 k)) ∧
  ∀ (j : nat) y, (j < k)%nat →
    foldl raise_slot a (seq 0 k) !! j = Some y → 1 ≤ y.
Proof.
  induction k as [|k IH]; intros Hk.
  - split; [apply Forall2_refl_rel, low_ok_refl | intros; lia].
  - rewrite seq_S, foldl_app. simpl.
    destruct IH as [IH1 IH2]; [lia|].
    set (r := foldl raise_slot a (seq 0 k)) in *.
    pose proof (raise_slot_low r k) as Hstep.
    split; [eapply Forall2_trans_rel; [apply low_ok_trans|done..]|].
    intros j y Hj Hy.
    destruct (decide (j = k)) as [->|Hne].
    + assert (is_Some (r !! k)) as [e He].
      { apply lookup_lt_is_Some. rewrite <- (Forall2_length _ _ _ IH1). lia. }
      destruct (raise_slot_idx r k e He) as (y' & Hy' & Hge). congruence.
    + destruct (Forall2_lookup_r _ _ _ _ _ Hstep Hy) as (x & Hx & Hxy).
      eapply low_ok_ge; [done|]. eapply IH2; [|done]. lia.
Qed.

Lemma sweep_low_spec a :
  Forall2 low_ok a (sweep_low a) ∧ Forall (λ y, 1 ≤ y) (sweep_low a) ∧
  ∀ (j : nat) x, a !! j = Some x → x < 1 → sweep_low a !! j = Some 1.
Proof.
  unfold sweep_low.
  destruct (sweep_low_prefix a (length a)) as [H1 H2]; [done|].
  assert (Hall : Forall (λ y, 1 ≤ y) (foldl raise_slot a (seq 0 (length a)))).
  { apply Forall_lookup. intros j y Hy. eapply H2; [|done].
    apply lookup_lt_Some in Hy. by rewrite (Forall2_length _ _ _ H1). }
  split_and!; [done..|].
  intros j x Hx Hlt.
  destruct (Forall2_lookup_l _ _ _ _ _ H1 Hx) as (y & Hy & Hxy).
  rewrite Hy. f_equal.
  pose proof (Forall_lookup_1 _ _ _ _ Hall Hy) as Hge. simpl in Hge.
  unfold low_ok in Hxy. lia.
Qed.

Lemma push_surplus_high idx offsets a diff :
  0 < diff → Forall2 high_ok a (push_surplus idx offsets a diff).
Proof.
  revert a diff. induction offsets as [|i offsets IH]; intros a diff Hd; simpl.
  - apply Forall2_refl_rel, high_ok_refl.
  - destruct (a !! (idx + i)%nat) as [v|] eqn:Hv;
      [|apply Forall2_refl_rel, high_ok_refl].
    destruct (decide (v + diff <= 6)).
    + eapply Forall2_update; [apply high_ok_refl | done | unfold high_ok; lia].
    + assert (Forall2 high_ok a (<[(idx + i)%nat:=6]> a)).
      { eapply Forall2_update;
          [apply high_ok_refl | done | unfold high_ok; lia]. }
      destruct (decide (diff - (6 - v) = 0)); [done|].
      eapply Forall2_trans_rel; [apply high_ok_trans | done |].
      apply IH. lia.
Qed.

Lemma push_surplus_idx idx offsets a diff :
  Forall (λ i, 1 ≤ i)%nat offsets →
  push_surplus idx offsets a diff !! idx = a !! idx.
Proof.
  revert a diff. induction offsets as [|i offsets IH]; intros a diff Hoff;
    simpl; [done|].
  inversion Hoff as [|? ? Hi Hoff']; subst.
  destruct (a !! (idx + i)%nat) as [v|] eqn:Hv; [|done].
  destruct (decide (v + diff <= 6)).
  - apply list_lookup_insert_ne. lia.
  - destruct (decide (diff - (6 - v) = 0)).
    + apply list_lookup_insert_ne. lia.
    + rewrite IH by done. apply list_lookup_insert_ne. lia.
Qed.

Lemma cap_slot_high a idx : Forall2 high_ok a (cap_slot a idx).
Proof.
  unfold cap_slot. destruct (a !! idx) as [e|] eqn:He;
    [|apply Forall2_refl_rel, high_ok_refl].
  destruct (decide (e > 6)); [|apply Forall2_refl_rel, high_ok_refl].
  eapply Forall2_trans_rel; [apply high_ok_trans | |].
  - eapply (Forall2_update high_ok a idx e 6);
      [apply high_ok_refl | done | unfold high_ok; lia].
  - apply push_surplus_high. lia.
Qed.

Lemma cap_slot_idx a idx e :
  a !! idx = Some e → ∃ y, cap_slot a idx !! idx = Some y ∧ y ≤ 6.
Proof.
  intros He. unfold cap_slot. rewrite He.
  destruct (decide (e > 6)); [|exists e; split; [done | lia]].
  exists 6. split; [|lia].
  rewrite push_surplus_idx by apply seq_ge.
  apply list_lookup_insert_eq. by eapply lookup_lt_Some.
Qed.

Lemma sweep_high_prefix a (k : nat) :
  (k ≤ length a)%nat →
  Forall2 high_ok a (foldl cap_slot a (seq 0 k)) ∧
  ∀ (j : nat) y, (j < k)%nat →
    foldl cap_slot a (seq 0 k) !! j = Some y → y ≤ 6.
Proof.
  induction k as [|k IH]; intros Hk.
  - split; [apply Forall2_refl_rel, high_ok_refl | intros; lia].
  - rewrite seq_S, foldl_app. simpl.
    destruct IH as [IH1 IH2]; [lia|].
    set (r := foldl cap_slot a (seq 0 k)) in *.
    pose proof (cap_slot_high r k) as Hstep.
    split; [eapply Forall2_trans_rel; [apply high_ok_trans|done..]|].
    intros j y Hj Hy.
    destruct (decide (j = k)) as [->|Hne].
    + assert (is_Some (r !! k)) as [e He].
      { apply lookup_lt_is_Some. rewrite <- (Forall2_length _ _ _ IH1). lia. }
      destruct (cap_slot_idx r k e He) as (y' & Hy' & Hge). congruence.
    + destruct (Forall2_lookup_r _ _ _ _ _ Hstep Hy) as (x & Hx & Hxy).
      assert (x ≤ 6) by (eapply IH2; [|done]; lia).
      unfold high_ok in Hxy. lia.
Qed.

Lemma sweep_high_spec a :
  Forall2 high_ok a (sweep_high a) ∧ Forall (λ y, y ≤ 6) (sweep_high a) ∧
  ∀ (j : nat) x, a !! j = Some x → 6 < x → sweep_high a !! j = Some 6.
Proof.
  unfold sweep_high.
  destruct (sweep_high_prefix a (length a)) as [H1 H2]; [done|].
  assert (Hall : Forall (λ y, y ≤ 6) (foldl cap_slot a (seq 0 (length a)))).
  { apply Forall_lookup. intros j y Hy. eapply H2; [|done].
    apply lookup_lt_Some in Hy. by rewrite (Forall2_length _ _ _ H1). }
  split_and!; [done..|].
  intros j x Hx Hlt.
  destruct (Forall2_lookup_l _ _ _ _ _ H1 Hx) as (y & Hy & Hxy).
  rewrite Hy. f_equal.
  pose proof (Forall_lookup_1 _ _ _ _ Hall Hy) as Hge. simpl in Hge.
  unfold high_ok in Hxy. lia.
Qed.

(** After both sweeps every slot is in [1, 6]. *)
Lemma sweeps_bounds a :
  Forall (λ y, 1 ≤ y ≤ 6) (sweep_high (sweep_low a)).
Proof.
  destruct (sweep_low_spec a) as (_ & Hlow & _).
  destruct (sweep_high_spec (sweep_low a)) as (Hrel & Hhigh & _).
  apply Forall_lookup. intros j y Hy.
  split; [|exact (Forall_lookup_1 _ _ _ _ Hhigh Hy)].
  destruct (Forall2_lookup_r _ _ _ _ _ Hrel Hy) as (x & Hx & Hxy).
  pose proof (Forall_lookup_1 _ _ _ _ Hlow Hx) as Hge. simpl in Hge.
  unfold high_ok in Hxy. lia.
Qed.
End Sweeps.

(** *** What the sweeps move *)

Lemma prefix_sum_insert (l : list Z) (p k : nat) (v y : Z) :
  l !! p = Some v →
  prefix_sum (<[p:=y]> l) k
  = prefix_sum l k + (if decide (p < k)%nat then y - v else 0).
Proof.
  intros Hv. unfold prefix_sum. destruct (decide (p < k)%nat).
  - rewrite take_insert_lt by done.
    rewrite (py_sum_insert _ _ v) by (by rewrite lookup_take_lt). lia.
  - rewrite take_insert_ge by lia. lia.
Qed.

Lemma prefix_sum_all (l : list Z) (k : nat) :
  (length l ≤ k)%nat → prefix_sum l k = py_sum l.
Proof. intros H. unfold prefix_sum. by rewrite take_ge. Qed.

Lemma repay_shortfall_owes (a : list Z) (idx : nat) (cnt i : nat)
    (c : list Z) (d : Z) :
  0 < d → owes_low a c (idx + i) d → (length a ≤ idx + i + cnt)%nat →
  owes_low a (repay_shortfall idx (seq i cnt) c d) 0 0.
Proof.
  revert i c d. induction cnt as [|cnt IH]; intros i c d Hd (Hlen & Hb & Hc) Hn.
  - simpl. split_and!; [done|..].
    + intros k. specialize (Hb k). repeat case_decide; lia.
    + intros k Hk Hlt. apply Hc; [done|]. repeat case_decide; lia.
  - simpl. destruct (c !! (idx + i)%nat) as [v|] eqn:Hv.
    2:{ apply lookup_ge_None_1 in Hv. split_and!; [done|..].
        - intros k. specialize (Hb k). repeat case_decide; lia.
        - intros k Hk Hlt. apply Hc; [done|]. repeat case_decide; lia. }
    destruct (decide (v - d >= 1)).
    + split_and!; [by rewrite length_insert|..].
      * intros k. rewrite (prefix_sum_insert _ _ _ _ _ Hv).
        specialize (Hb k). repeat case_decide; lia.
      * intros k Hk. rewrite (prefix_sum_insert _ _ _ _ _ Hv). intros Hlt.
        destruct (decide (k = (idx + i)%nat)) as [->|Hne].
        -- assert (c !! (idx + i)%nat = Some 1) as Hone.
           { apply Hc; [done|]. repeat case_decide; lia. }
           rewrite Hv in Hone. injection Hone as ->. lia.
        -- rewrite list_lookup_insert_ne by done.
           apply Hc; [done|]. repeat case_decide; lia.
    + destruct (decide (d - (v - 1) = 0)); [lia|].
      replace (idx + S i)%nat with (idx + i + 1)%nat in * by lia.
      specialize (IH (S i) (<[(idx + i)%nat:=1]> c) (d - (v - 1))).
      replace (idx + S i)%nat with (idx + i + 1)%nat in IH by lia.
      apply IH; [lia| |lia].
      split_and!; [by rewrite length_insert|..].
      * intros k. rewrite (prefix_sum_insert _ _ _ _ _ Hv).
        specialize (Hb k). repeat case_decide; lia.
      * intros k Hk. rewrite (prefix_sum_insert _ _ _ _ _ Hv). intros Hlt.
        destruct (decide (k = (idx + i)%nat)) as [->|Hne].
        -- apply list_lookup_insert_eq. apply lookup_lt_Some in Hv. lia.
        -- rewrite list_lookup_insert_ne by done.
           apply Hc; [done|]. repeat case_decide; lia.
Qed.

Lemma raise_slot_owes (a c : list Z) (idx : nat) :
  owes_low a c 0 0 → owes_low a (raise_slot c idx) 0 0.
Proof.
  intros (Hlen & Hb & Hc). unfold raise_slot.
  destruct (c !! idx) as [e|] eqn:He; [|done].
  destruct (decide (e < 1)); [|done].
  replace (seq 1 (length c - 1)) with (seq 1 (length a - 1)) by (by rewrite Hlen).
  apply repay_shortfall_owes; [lia| |apply lookup_lt_Some in He; lia].
  split_and!; [by rewrite length_insert|..].
  - intros k. rewrite (prefix_sum_insert _ _ _ _ _ He).
    specialize (Hb k). repeat case_decide; lia.
  - intros k Hk. rewrite (prefix_sum_insert _ _ _ _ _ He). intros Hlt.
    destruct (decide (k = idx)) as [->|Hne].
    + apply list_lookup_insert_eq. by eapply lookup_lt_Some.
    + rewrite list_lookup_insert_ne by done.
      apply Hc; [done|]. repeat case_decide; lia.
Qed.

Lemma owes_low_refl (a : list Z) : owes_low a a 0 0.
Proof.
  split_and!; [done|..].
  - intros k. case_decide; lia.
  - intros k _ H. case_decide; lia.
Qed.

(** The first sweep makes up every shortfall from the following slots. *)
Lemma sweep_low_repaid (a : list Z) :
  length (sweep_low a) = length a ∧
  (∀ k : nat, prefix_sum a k ≤ prefix_sum (sweep_low a) k) ∧
  (∀ k : nat, (k < length a)%nat →
     prefix_sum a (S k) < prefix_sum (sweep_low a) (S k) →
     sweep_low a !! k = Some 1).
Proof.
  assert (H : owes_low a (sweep_low a) 0 0).
  { unfold sweep_low. generalize (seq 0 (length a)). intros l.
    assert (Hgen : ∀ c, owes_low a c 0 0 → owes_low a (foldl raise_slot c l) 0 0).
    { induction l as [|i l IH]; intros c Hc; simpl; [done|].
      apply IH. by apply raise_slot_owes. }
    apply Hgen, owes_low_refl. }
  destruct H as (Hlen & Hb & Hc). split_and!; [done|..].
  - intros k. specialize (Hb k). case_decide; lia.
  - intros k Hk Hlt. apply Hc; [done|]. case_decide; lia.
Qed.

Lemma push_surplus_owes (a : list Z) (idx : nat) (cnt i : nat)
    (c : list Z) (d : Z) :
  0 < d → owes_high a c (idx + i) d → (length a ≤ idx + i + cnt)%nat →
  owes_high a (push_surplus idx (seq i cnt) c d) 0 0.
Proof.
  revert i c d. induction cnt as [|cnt IH]; intros i c d Hd (Hlen & Hb & Hc) Hn.
  - simpl. split_and!; [done|..].
    + intros k. specialize (Hb k). repeat case_decide; lia.
    + intros k Hk Hlt. apply Hc; [done|]. repeat case_decide; lia.
  - simpl. destruct (c !! (idx + i)%nat) as [v|] eqn:Hv.
    2:{ apply lookup_ge_None_1 in Hv. split_and!; [done|..].
        - intros k. specialize (Hb k). repeat case_decide; lia.
        - intros k Hk Hlt. apply Hc; [done|]. repeat case_decide; lia. }
    destruct (decide (v + d <= 6)).
    + split_and!; [by rewrite length_insert|..].
      * intros k. rewrite (prefix_sum_insert _ _ _ _ _ Hv).
        specialize (Hb k). repeat case_decide; lia.
      * intros k Hk. rewrite (prefix_sum_insert _ _ _ _ _ Hv). intros Hlt.
        destruct (decide (k = (idx + i)%nat)) as [->|Hne].
        -- assert (c !! (idx + i)%nat = Some 6) as Hone.
           { apply Hc; [done|]. repeat case_decide; lia. }
           rewrite Hv in Hone. injection Hone as ->. lia.
        -- rewrite list_lookup_insert_ne by done.
           apply Hc; [done|]. repeat case_decide; lia.
    + destruct (decide (d - (6 - v) = 0)); [lia|].
      replace (idx + S i)%nat with (idx + i + 1)%nat in * by lia.
      specialize (IH (S i) (<[(idx + i)%nat:=6]> c) (d - (6 - v))).
      replace (idx + S i)%nat with (idx + i + 1)%nat in IH by lia.
      apply IH; [lia| |lia].
      split_and!; [by rewrite length_insert|..].
      * intros k. rewrite (prefix_sum_insert _ _ _ _ _ Hv).
        specialize (Hb k). repeat case_decide; lia.
      * intros k Hk. rewrite (prefix_sum_insert _ _ _ _ _ Hv). intros Hlt.
        destruct (decide (k = (idx + i)%nat)) as [->|Hne].
        -- apply list_lookup_insert_eq. apply lookup_lt_Some in Hv. lia.
        -- rewrite list_lookup_insert_ne by done.
           apply Hc; [done|]. repeat case_decide; lia.
Qed.

Lemma cap_slot_owes (a c : list Z) (idx : nat) :
  owes_high a c 0 0 → owes_high a (cap_slot c idx) 0 0.
Proof.
  intros (Hlen & Hb & Hc). unfold cap_slot.
  destruct (c !! idx) as [e|] eqn:He; [|done].
  destruct (decide (e > 6)); [|done].
  replace (seq 1 (length c - 1)) with (seq 1 (length a - 1)) by (by rewrite Hlen).
  apply push_surplus_owes; [lia| |apply lookup_lt_Some in He; lia].
  split_and!; [by rewrite length_insert|..].
  - intros k. rewrite (prefix_sum_insert _ _ _ _ _ He).
    specialize (Hb k). repeat case_decide; lia.
  - intros k Hk. rewrite (prefix_sum_insert _ _ _ _ _ He). intros Hlt.
    destruct (decide (k = idx)) as [->|Hne].
    + apply list_lookup_insert_eq. by eapply lookup_lt_Some.
    + rewrite list_lookup_insert_ne by done.
      apply Hc; [done|]. repeat case_decide; lia.
Qed.

Lemma owes_high_refl (a : list Z) : owes_high a a 0 0.
Proof.
  split_and!; [done|..].
  - intros k. case_decide; lia.
  - intros k _ H. case_decide; lia.
Qed.

(** The second sweep pushes every surplus into the following slots. *)
Lemma sweep_high_pushed (a : list Z) :
  length (sweep_high a) = length a ∧
  (∀ k : nat, prefix_sum (sweep_high a) k ≤ prefix_sum a k) ∧
  (∀ k : nat, (k < length a)%nat →
     prefix_sum (sweep_high a) (S k) < prefix_sum a (S k) →
     sweep_high a !! k = Some 6).
Proof.
  assert (H : owes_high a (sweep_high a) 0 0).
  { unfold sweep_high. generalize (seq 0 (length a)). intros l.
    assert (Hgen : ∀ c, owes_high a c 0 0 → owes_high a (foldl cap_slot c l) 0 0).
    { induction l as [|i l IH]; intros c Hc; simpl; [done|].
      apply IH. by apply cap_slot_owes. }
    apply Hgen, owes_high_refl. }
  destruct H as (Hlen & Hb & Hc). split_and!; [done|..].
  - intros k. specialize (Hb k). case_decide; lia.
  - intros k Hk Hlt. apply Hc; [done|]. case_decide; lia.
Qed.

Lemma prefix_sum_S (l : list Z) (k : nat) (y : Z) :
  l !! k = Some y → prefix_sum l (S k) = prefix_sum l k + y.
Proof.
  intros H. unfold prefix_sum. rewrite (take_S_r _ _ _ H), py_sum_app.
  change (py_sum [y]) with (y + 0). lia.
Qed.

(** A list is determined by its prefix sums and a bound that every slot
    meets, once a prefix holding more than [a]'s has its last slot at the
    bound. *)
Lemma repaid_unique (a b b' : list Z) :
  length b = length a → length b' = length a →
  Forall (λ y, 1 ≤ y) b → Forall (λ y, 1 ≤ y) b' →
  (∀ k : nat, prefix_sum a k ≤ prefix_sum b k) →
  (∀ k : nat, (k < length a)%nat →
     prefix_sum a (S k) < prefix_sum b (S k) → b !! k = Some 1) →
  (∀ k : nat, prefix_sum a k ≤ prefix_sum b' k) →
  (∀ k : nat, (k < length a)%nat →
     prefix_sum a (S k) < prefix_sum b' (S k) → b' !! k = Some 1) →
  b = b'.
Proof.
  intros Hlen Hlen' Hge Hge' Hb Hc Hb' Hc'.
  assert (Htake : ∀ k : nat, (k ≤ length a)%nat → take k b = take k b').
  { induction k as [|k IH]; intros Hk; [done|].
    specialize (IH ltac:(lia)).
    destruct (lookup_lt_is_Some_2 b k ltac:(lia)) as [y Hy].
    destruct (lookup_lt_is_Some_2 b' k ltac:(lia)) as [y' Hy'].
    rewrite (take_S_r _ _ _ Hy), (take_S_r _ _ _ Hy'), IH. f_equal. f_equal.
    pose proof (prefix_sum_S _ _ _ Hy) as Hs.
    pose proof (prefix_sum_S _ _ _ Hy') as Hs'.
    assert (He : prefix_sum b k = prefix_sum b' k)
      by (unfold prefix_sum; by rewrite IH).
    pose proof (Forall_lookup_1 _ _ _ _ Hge Hy) as H1. simpl in H1.
    pose proof (Forall_lookup_1 _ _ _ _ Hge' Hy') as H1'. simpl in H1'.
    pose proof (Hb (S k)) as Hle. pose proof (Hb' (S k)) as Hle'.
    destruct (decide (prefix_sum a (S k) < prefix_sum b (S k))) as [Hlt|Hnlt];
      destruct (decide (prefix_sum a (S k) < prefix_sum b' (S k)))
        as [Hlt'|Hnlt'].
    - pose proof (Hc k ltac:(lia) Hlt). pose proof (Hc' k ltac:(lia) Hlt').
      congruence.
    - pose proof (Hc k ltac:(lia) Hlt) as H. rewrite Hy in H.
      injection H as ->. lia.
    - pose proof (Hc' k ltac:(lia) Hlt') as H. rewrite Hy' in H.
      injection H as ->. lia.
    - lia. }
  specialize (Htake (length a) ltac:(lia)).
  by rewrite !take_ge in Htake by lia.
Qed.

Lemma pushed_unique (a b b' : list Z) :
  length b = length a → length b' = length a →
  Forall (λ y, y ≤ 6) b → Forall (λ y, y ≤ 6) b' →
  (∀ k : nat, prefix_sum b k ≤ prefix_sum a k) →
  (∀ k : nat, (k < length a)%nat →
     prefix_sum b (S k) < prefix_sum a (S k) → b !! k = Some 6) →
  (∀ k : nat, prefix_sum b' k ≤ prefix_sum a k) →
  (∀ k : nat, (k < length a)%nat →
     prefix_sum b' (S k) < prefix_sum a (S k) → b' !! k = Some 6) →
  b = b'.
Proof.
  intros Hlen Hlen' Hge Hge' Hb Hc Hb' Hc'.
  assert (Htake : ∀ k : nat, (k ≤ length a)%nat → take k b = take k b').
  { induction k as [|k IH]; intros Hk; [done|].
    specialize (IH ltac:(lia)).
    destruct (lookup_lt_is_Some_2 b k ltac:(lia)) as [y Hy].
    destruct (lookup_lt_is_Some_2 b' k ltac:(lia)) as [y' Hy'].
    rewrite (take_S_r _ _ _ Hy), (take_S_r _ _ _ Hy'), IH. f_equal. f_equal.
    pose proof (prefix_sum_S _ _ _ Hy) as Hs.
    pose proof (prefix_sum_S _ _ _ Hy') as Hs'.
    assert (He : prefix_sum b k = prefix_sum b' k)
      by (unfold prefix_sum; by rewrite IH).
    pose proof (Forall_lookup_1 _ _ _ _ Hge Hy) as H1. simpl in H1.
    pose proof (Forall_lookup_1 _ _ _ _ Hge' Hy') as H1'. simpl in H1'.
    pose proof (Hb (S k)) as Hle. pose proof (Hb' (S k)) as Hle'.
    destruct (decide (prefix_sum b (S k) < prefix_sum a (S k))) as [Hlt|Hnlt];
      destruct (decide (prefix_sum b' (S k) < prefix_sum a (S k)))
        as [Hlt'|Hnlt'].
    - pose proof (Hc k ltac:(lia) Hlt). pose proof (Hc' k ltac:(lia) Hlt').
      congruence.
    - pose proof (Hc k ltac:(lia) Hlt) as H. rewrite Hy in H.
      injection H as ->. lia.
    - pose proof (Hc' k ltac:(lia) Hlt') as H. rewrite Hy' in H.
      injection H as ->. lia.
    - lia. }
  specialize (Htake (length a) ltac:(lia)).
  by rewrite !take_ge in Htake by lia.
Qed.

(** C4. Whenever [adjust_word2ph] returns, every entry of the result is in
    [1, 6] and the re-attached boundary entries are 1.  The first sweep
    raises every slot below 1 to exactly 1 and only lowers the other slots,
    never below 1; the second sweep caps every slot above 6 to exactly 6 and
    only raises the other slots, never above 6.  Neither sweep discards what
    it moves.  What the first sweep adds to a slot it deducts from the
    following ones: counted from the left, the slots hold after it at least
    what they held before, and hold more only up to a slot left at exactly
    1, the rest of the shortfall being owed by the slots after it; the total
    is kept unless the last slot is left at 1.  What the second sweep takes
    from a slot it pushes into the following ones: counted from the left,
    the slots hold at most what they held, and hold less only up to a slot
    left at exactly 6; the total is kept unless the last slot is left at
    6.  With the bound on every slot, this determines what each sweep
    returns. *)
Theorem adjust_word2ph_bounds (word2ph : list Z)
    (generated_phone given_phone : list string) (out : list Z)
    (Hout : adjust_word2ph word2ph generated_phone given_phone = OK out) :
  Forall (λ e, 1 ≤ e ≤ 6) out ∧ head out = Some 1 ∧ last out = Some 1 ∧
  ∃ a : list Z,
    out = [1] ++ sweep_high (sweep_low a) ++ [1] ∧
    Forall (λ y, 1 ≤ y) (sweep_low a) ∧
    (∀ (j : nat) x, a !! j = Some x → x < 1 → sweep_low a !! j = Some 1) ∧
    (∀ (j : nat) x, a !! j = Some x → 1 ≤ x →
       ∃ y, sweep_low a !! j = Some y ∧ 1 ≤ y ≤ x) ∧
    Forall (λ y, y ≤ 6) (sweep_high (sweep_low a)) ∧
    (∀ (j : nat) x, sweep_low a !! j = Some x → 6 < x →
       sweep_high (sweep_low a) !! j = Some 6) ∧
    (∀ (j : nat) x, sweep_low a !! j = Some x → x ≤ 6 →
       ∃ y, sweep_high (sweep_low a) !! j = Some y ∧ x ≤ y ≤ 6) ∧
    adjusted_before_assert word2ph generated_phone given_phone = OK a ∧
    py_sum a = py_len (py_slice given_phone 1 (-1)) ∧
    (∀ k : nat, prefix_sum a k ≤ prefix_sum (sweep_low a) k) ∧
    (∀ k : nat, (k < length a)%nat →
       prefix_sum a (S k) < prefix_sum (sweep_low a) (S k) →
       sweep_low a !! k = Some 1) ∧
    (py_sum (sweep_low a) = py_sum a ∨ last (sweep_low a) = Some 1) ∧
    (∀ k : nat, prefix_sum (sweep_high (sweep_low a)) k
                ≤ prefix_sum (sweep_low a) k) ∧
    (∀ k : nat, (k < length a)%nat →
       prefix_sum (sweep_high (sweep_low a)) (S k)
       < prefix_sum (sweep_low a) (S k) →
       sweep_high (sweep_low a) !! k = Some 6) ∧
    (py_sum (sweep_high (sweep_low a)) = py_sum (sweep_low a)
     ∨ last (sweep_high (sweep_low a)) = Some 6) ∧
    (∀ b : list Z,
       length b = length a → Forall (λ y, 1 ≤ y) b →
       (∀ k : nat, prefix_sum a k ≤ prefix_sum b k) →
       (∀ k : nat, (k < length a)%nat →
          prefix_sum a (S k) < prefix_sum b (S k) → b !! k = Some 1) →
       b = sweep_low a) ∧
    (∀ b : list Z,
       length b = length a → Forall (λ y, y ≤ 6) b →
       (∀ k : nat, prefix_sum b k ≤ prefix_sum (sweep_low a) k) →
       (∀ k : nat, (k < length a)%nat →
          prefix_sum b (S k) < prefix_sum (sweep_low a) (S k) →
          b !! k = Some 6) →
       b = sweep_high (sweep_low a)).
Proof.
  unfold adjust_word2ph in Hout.
  apply bind_OK in Hout as (a & Ha & Hout).
  apply bind_OK in Hout as ([] & Hsum & Hout).
  injection Hout as <-.
  split_and!.
  - apply Forall_cons. split; [lia|].
    apply Forall_app. split; [apply sweeps_bounds | repeat constructor; lia].
  - reflexivity.
  - simpl app. rewrite app_comm_cons. apply last_snoc.
  - exists a.
    destruct (sweep_low_spec a) as (Hl1 & Hl2 & Hl3).
    destruct (sweep_high_spec (sweep_low a)) as (Hh1 & Hh2 & Hh3).
    destruct (sweep_low_repaid a) as (Hlen & Hlb & Hlc).
    destruct (sweep_high_pushed (sweep_low a)) as (Hlen' & Hhb & Hhc).
    rewrite Hlen in Hhc.
    split_and!; try done.
    + intros j x Hx Hge.
      destruct (Forall2_lookup_l _ _ _ _ _ Hl1 Hx) as (y & Hy & Hxy).
      exists y. split; [done|]. unfold low_ok in Hxy. lia.
    + intros j x Hx Hle.
      destruct (Forall2_lookup_l _ _ _ _ _ Hh1 Hx) as (y & Hy & Hxy).
      exists y. split; [done|]. unfold high_ok in Hxy. lia.
    + unfold py_assert in Hsum.
      destruct (bool_decide _) eqn:E; [|discriminate].
      by apply bool_decide_eq_true_1 in E.
    + destruct (decide (py_sum (sweep_low a) = py_sum a)) as [|Hne];
        [by left | right].
      destruct (length a) as [|n] eqn:En.
      { destruct a; [|discriminate]. by destruct Hne. }
      rewrite last_lookup, Hlen. simpl. apply Hlc; [lia|].
      pose proof (Hlb (S n)) as Hle.
      rewrite !prefix_sum_all in * by lia. lia.
    + destruct (decide (py_sum (sweep_high (sweep_low a))
                        = py_sum (sweep_low a))) as [|Hne];
        [by left | right].
      destruct (length a) as [|n] eqn:En.
      { destruct a; [|discriminate]. by destruct Hne. }
      rewrite last_lookup, Hlen', Hlen. simpl. apply Hhc; [lia|].
      pose proof (Hhb (S n)) as Hle.
      rewrite !prefix_sum_all in * by lia. lia.
    + intros b Hb1 Hb2 Hb3 Hb4.
      by apply (repaid_unique a b (sweep_low a)).
    + intros b Hb1 Hb2 Hb3 Hb4.
      apply (pushed_unique (sweep_low a) b (sweep_high (sweep_low a)));
        rewrite ?Hlen; try done.
      by rewrite Hlen'.
Qed.

Lemma adjust_word2ph_bounds_witness :
  (adjust_word2ph [1; 1; 1; 1] ["_"; "a"; "i"; "_"]
     ["_"; "k"; "o"; "N"; "n"; "i"; "ch"; "w"; "a"; "i"; "_"]
   = OK [1; 6; 3; 1] ∧
   adjusted_before_assert [1; 1; 1; 1] ["_"; "a"; "i"; "_"]
     ["_"; "k"; "o"; "N"; "n"; "i"; "ch"; "w"; "a"; "i"; "_"]
   = OK [8; 1] ∧
   Forall (λ e, 1 ≤ e ≤ 6) [1; 6; 3; 1]) ∧
  (adjust_word2ph [1; 2; 3; 1] ["_"; "a"; "sh"; "i"; "t"; "a"; "_"]
     ["_"; "a"; "s"; "u"; "_"]
   = OK [1; 1; 2; 1] ∧
   adjusted_before_assert [1; 2; 3; 1] ["_"; "a"; "sh"; "i"; "t"; "a"; "_"]
     ["_"; "a"; "s"; "u"; "_"]
   = OK [0; 3] ∧
   Forall (λ e, 1 ≤ e ≤ 6) [1; 1; 2; 1]).
Proof.
  split.
  - split; [reflexivity|]. split; [reflexivity|].
    exact (proj1 (adjust_word2ph_bounds [1; 1; 1; 1] ["_"; "a"; "i"; "_"]
                    ["_"; "k"; "o"; "N"; "n"; "i"; "ch"; "w"; "a"; "i"; "_"]
                    [1; 6; 3; 1] eq_refl)).
  - split; [reflexivity|]. split; [reflexivity|].
    exact (proj1 (adjust_word2ph_bounds [1; 2; 3; 1]
                    ["_"; "a"; "sh"; "i"; "t"; "a"; "_"]
                    ["_"; "a"; "s"; "u"; "_"] [1; 1; 2; 1] eq_refl)).
Defined.

(** ** [adjust_word2ph]: slices *)

Lemma py_slice_strip {A} (x y : A) (l : list A) :
  py_slice ([x] ++ l ++ [y]) 1 (-1) = l.
Proof.
  unfold py_slice, slice_bound.
  destruct (decide (1 < 0)); [lia|]. destruct (decide (-1 < 0)); [|lia].
  rewrite !length_app.
  replace (Z.to_nat (Z.min 1 _)) with 1%nat by (simpl; lia).
  replace (Z.to_nat (Z.max _ 0)) with (S (length l)) by (simpl; lia).
  simpl. rewrite Nat.sub_0_r, drop_0. apply take_app_length.
Qed.

Lemma py_slice_empty {A} (l : list A) (lo hi : Z) :
  0 ≤ lo → 0 ≤ hi → hi ≤ lo → py_slice l lo hi = [].
Proof.
  intros Hlo Hhi Hle. unfold py_slice, slice_bound.
  rewrite !decide_False by lia.
  replace (_ - _)%nat with 0%nat by lia. done.
Qed.

Lemma py_slice_length {A} (l : list A) (lo hi : Z) :
  0 ≤ lo → lo ≤ hi → hi ≤ py_len l →
  py_len (py_slice l lo hi) = hi - lo.
Proof.
  intros Hlo Hhi Hle. unfold py_slice, slice_bound, py_len in *.
  rewrite !decide_False by lia.
  rewrite length_take, length_drop. lia.
Qed.

(** ** [adjust_word2ph]: the table of the longest common subsequence *)

Lemma lcs_row_length (x : string) (Y : list string) (prev : list nat)
    (left : nat) :
  length prev = S (length Y) → length (lcs_row x Y prev left) = length Y.
Proof.
  revert prev left. induction Y as [|y Y IH]; intros prev left Hlen.
  - by destruct prev.
  - destruct prev as [|diag [|up prest]]; simpl in Hlen; try lia.
    simpl. f_equal. apply IH. simpl. lia.
Qed.

(** Where row [i] holds [i] from column [k] on and [Y[k] = x], row [i + 1]
    holds [i + 1] from column [k + 1] on. *)
Lemma lcs_row_diag (x : string) (i : nat) (Y : list string)
    (prev : list nat) (left k : nat) :
  length prev = S (length Y) →
  (∀ q, (k ≤ q)%nat → (q < length prev)%nat → prev !! q = Some i) →
  Y !! k = Some x ∨ (k = 0%nat ∧ left = S i) →
  ∀ q, (k ≤ q)%nat → (q < length Y)%nat →
       lcs_row x Y prev left !! q = Some (S i).
Proof.
  revert prev left k. induction Y as [|y Y IH]; intros prev left k Hlen Hprev Hk q Hq1 Hq2;
    [simpl in Hq2; lia|].
  destruct prev as [|diag [|up prest]]; simpl in Hlen; try lia.
  simpl. destruct k as [|k].
  - assert (diag = i) as ->.
    { specialize (Hprev 0%nat). simpl in Hprev.
      assert (Some diag = Some i) as [= ->] by (apply Hprev; lia). done. }
    assert (up = i) as ->.
    { specialize (Hprev 1%nat). simpl in Hprev.
      assert (Some up = Some i) as [= ->] by (apply Hprev; lia). done. }
    assert ((if decide (x = y) then S i else Nat.max i left) = S i) as ->.
    { destruct (decide (x = y)); [done|].
      destruct Hk as [Hk|[_ ->]]; [simpl in Hk; congruence | lia]. }
    destruct q as [|q]; [done|]. simpl.
    apply (IH (i :: prest) (S i) 0%nat); simpl in *; try lia.
    intros q' _ Hq'. apply (Hprev (S q')); lia.
  - destruct q as [|q]; [lia|]. simpl.
    apply (IH (up :: prest) _ k); simpl in *; try lia.
    + intros q' Hq1' Hq2'. apply (Hprev (S q')); lia.
    + destruct Hk as [Hk|[? _]]; [by left | lia].
Qed.

Lemma lcs_rows_diag (Y : list string) (Xs : list string) (prev : list nat)
    (i0 : nat) :
  length prev = S (length Y) →
  (∀ j, (i0 ≤ j)%nat → (j ≤ length Y)%nat → prev !! j = Some i0) →
  (∀ t x, Xs !! t = Some x → Y !! (i0 + t)%nat = Some x) →
  ∀ t, (t < length Xs)%nat →
    ∃ row, lcs_rows Xs Y prev !! t = Some row ∧
           ∀ j, (i0 + t + 1 ≤ j)%nat → (j ≤ length Y)%nat →
                row !! j = Some (i0 + t + 1)%nat.
Proof.
  revert prev i0. induction Xs as [|x Xs IH]; intros prev i0 Hlen Hprev HX t Ht;
    [simpl in Ht; lia|].
  simpl.
  set (row := 0%nat :: lcs_row x Y prev 0).
  assert (Hrow : ∀ j, (i0 + 1 ≤ j)%nat → (j ≤ length Y)%nat →
                      row !! j = Some (i0 + 1)%nat).
  { intros [|q] Hj1 Hj2; [lia|]. unfold row. simpl.
    replace (i0 + 1)%nat with (S i0) by lia.
    apply (lcs_row_diag x i0 Y prev 0%nat i0); try lia; try done.
    - intros q' Hq1 Hq2. apply Hprev; lia.
    - left. specialize (HX 0%nat x eq_refl). by rewrite Nat.add_0_r in HX. }
  destruct t as [|t].
  - exists row. split; [done|]. intros j Hj1 Hj2. rewrite Nat.add_0_r.
    apply Hrow; lia.
  - simpl in Ht. destruct (IH row (S i0)) with (t := t) as (r & Hr & Hrj).
    + unfold row. simpl. by rewrite lcs_row_length.
    + intros j Hj1 Hj2. replace (S i0) with (i0 + 1)%nat by lia.
      apply Hrow; lia.
    + intros t' x' Hx'. replace (S i0 + t')%nat with (i0 + S t')%nat by lia.
      by apply HX.
    + lia.
    + exists r. split; [done|]. intros j Hj1 Hj2.
      replace (i0 + S t + 1)%nat with (S i0 + t + 1)%nat by lia.
      apply Hrj; lia.
Qed.

Lemma tbl_row_0 (r : list nat) (L : list (list nat)) (j : nat) :
  tbl (r :: L) 0 j = default 0%nat (r !! j).
Proof. reflexivity. Qed.

Lemma tbl_row_S (r : list nat) (L : list (list nat)) (i j : nat) :
  tbl (r :: L) (S i) j = default 0%nat (L !! i ≫= λ row, row !! j).
Proof. reflexivity. Qed.

(** With [X] a prefix of [Y], [L[i][j] = i] for every [i <= j]. *)
Lemma lcs_table_prefix (X Sfx : list string) (i j : nat) :
  (i ≤ length X)%nat → (i ≤ j)%nat → (j ≤ length (X ++ Sfx))%nat →
  tbl (lcs_table X (X ++ Sfx)) i j = i.
Proof.
  intros Hi Hij Hj. unfold lcs_table.
  set (Y := X ++ Sfx) in *.
  destruct i as [|i].
  - rewrite tbl_row_0, lookup_replicate_2 by lia. done.
  - rewrite tbl_row_S.
    destruct (lcs_rows_diag Y X (replicate (S (length Y)) 0%nat) 0%nat)
      with (t := i) as (row & Hrow & Hrj).
    + by rewrite length_replicate.
    + intros j' _ Hj'. apply lookup_replicate_2. lia.
    + intros t x Hx. simpl. unfold Y. by apply lookup_app_l_Some.
    + lia.
    + rewrite Hrow. cbn. rewrite (Hrj j) by lia. cbn. lia.
Qed.

(** ** [adjust_word2ph]: the trace back over a prefix *)

Lemma chain_snoc px py ps qx qy (x y : nat) :
  chain px py ps qx qy → Z.of_nat x = qx + 1 → qy < Z.of_nat y →
  chain px py (ps ++ [(x, y)]) (Z.of_nat x) (Z.of_nat y).
Proof.
  induction 1 as [px py|px py x' y' ps qx qy Hx Hy Hc IH]; intros Hx2 Hy2.
  - simpl. apply chain_cons; [done..|]. apply chain_nil.
  - simpl. apply chain_cons; [done..|]. by apply IH.
Qed.

Lemma chain_end px py ps qx qy :
  chain px py ps qx qy → qx = px + Z.of_nat (length ps) ∧ py ≤ qy.
Proof.
  induction 1 as [px py|px py x' y' ps qx qy Hx Hy Hc [IH1 IH2]]; simpl.
  - lia.
  - lia.
Qed.

Section TracePrefix.
Context (X Sfx : list string).
Let Y := X ++ Sfx.
Let L := lcs_table X Y.

Lemma prefix_lookup (i : nat) :
  (i < length X)%nat → Y !! i = X !! i.
Proof. intros Hi. unfold Y. by rewrite lookup_app_l. Qed.

(** From a cell [(i, j)] with [i <= j] the trace back matches every one of
    the first [i] phonemes of [X]. *)
Lemma lcs_trace_prefix (fuel i j : nat) :
  (i ≤ length X)%nat → (i ≤ j)%nat → (j ≤ length Y)%nat →
  (i + j ≤ fuel)%nat →
  ∃ qy : Z,
    chain (-1) (-1) (reverse (lcs_trace fuel X Y L i j))
          (Z.of_nat i - 1) qy ∧
    Z.of_nat i - 1 ≤ qy ≤ Z.of_nat j - 1 ∧
    ((1 ≤ i)%nat → Y !! Z.to_nat qy = X !! (i - 1)%nat).
Proof.
  revert i j. induction fuel as [|fuel IH]; intros i j Hi Hij Hj Hfuel.
  - assert (i = 0%nat) as -> by lia. simpl. exists (-1).
    split_and!; [apply chain_nil | lia.. ].
  - simpl. destruct (decide (0 < i ∧ 0 < j)%nat) as [[Hi0 Hj0]|Hn].
    + destruct (decide (X !! (i - 1)%nat = Y !! (j - 1)%nat)) as [Heq|Hne].
      * destruct (IH (i - 1)%nat (j - 1)%nat) as (qy & Hc & Hb & _);
          [lia..|].
        exists (Z.of_nat (j - 1)). rewrite reverse_cons.
        split_and!.
        -- replace (Z.of_nat i - 1) with (Z.of_nat (i - 1)) by lia.
           eapply chain_snoc; [done | lia..].
        -- lia.
        -- lia.
        -- intros _. by rewrite Nat2Z.id.
      * assert (i < j)%nat as Hlt.
        { destruct (decide (i = j)) as [->|]; [|lia].
          exfalso. apply Hne. symmetry. apply prefix_lookup. lia. }
        assert (H1 : tbl L i (j - 1) = i)
          by (apply (lcs_table_prefix X Sfx); fold Y; lia).
        assert (H2 : tbl L (i - 1) j = (i - 1)%nat)
          by (apply (lcs_table_prefix X Sfx); fold Y; lia).
        rewrite H1, H2, decide_False by lia.
        destruct (IH i (j - 1)%nat) as (qy & Hc & Hb & HY); [lia..|].
        exists qy. split_and!; [done | lia | lia | done].
    + assert (i = 0%nat) as -> by lia. exists (-1).
      split_and!; [apply chain_nil | lia.. ].
Qed.
End TracePrefix.

(** ** [adjust_word2ph]: the differences along a chain *)

Lemma py_len_nonneg {A} (l : list A) : 0 ≤ py_len l.
Proof. unfold py_len. lia. Qed.

Lemma common_step_chain (X Y : list string) (ps : list (nat * nat))
    (px py qx qy : Z) (ds : list Diff) :
  chain px py ps qx qy → -1 ≤ px → -1 ≤ py → qy ≤ py_len Y →
  ∃ D : list Diff,
    foldl (common_step X Y) (ds, px, py) ps = (ds ++ D, qx, qy) ∧
    length D = length ps ∧
    (∀ (t : nat) d, D !! t = Some d →
       begin_index (generated d) = px + 1 + Z.of_nat t ∧
       value (generated d) = []) ∧
    py_sum (map (λ d, py_len (value (given d))) D)
      = qy - py - Z.of_nat (length ps).
Proof.
  intros Hc. revert ds.
  induction Hc as [px py|px py x y ps qx qy Hx Hy Hc IH]; intros ds Hpx Hpy Hqy.
  - exists []. simpl. rewrite app_nil_r. split_and!; [done..| |].
    + intros t d Ht. by rewrite lookup_nil in Ht.
    + unfold py_sum. simpl. lia.
  - destruct (chain_end _ _ _ _ _ Hc) as [_ Hyq].
    simpl. unfold dict_truthy. simpl.
    edestruct (IH (ds ++ [mkDiff
                 (mkDiffDetail (px + 1) (Z.of_nat x)
                    (py_slice X (px + 1) (Z.of_nat x)))
                 (mkDiffDetail (py + 1) (Z.of_nat y)
                    (py_slice Y (py + 1) (Z.of_nat y)))]))
      as (D & HD & Hlen & Hgen & Hsum); [lia..|].
    eexists (_ :: D). rewrite HD, <- app_assoc. simpl.
    split_and!; [done | by rewrite Hlen | |].
    + intros [|t] d Ht; simpl in Ht.
      * injection Ht as <-. simpl. split; [lia|].
        apply py_slice_empty; lia.
      * destruct (Hgen t d Ht) as [Hb Hv]. split; [lia | done].
    + rewrite py_sum_cons, Hsum. simpl.
      rewrite py_slice_length by lia. lia.
Qed.

(** ** [adjust_word2ph]: dropping the empty differences *)

Lemma list_remove_first_middle (d : Diff) (l1 l2 : list Diff) :
  d ∉ l1 → list_remove_first d (l1 ++ d :: l2) = OK (l1 ++ l2).
Proof.
  induction l1 as [|x l1 IH]; intros Hnin; simpl.
  - by rewrite decide_True.
  - rewrite decide_False by (intros ->; apply Hnin, list_elem_of_here).
    rewrite IH; [done|]. intros Hin. apply Hnin. by apply list_elem_of_further.
Qed.

Lemma prune_empty_loop (todo done : list Diff) :
  for_each todo
    (λ acc diff, if both_empty diff then list_remove_first diff acc else OK acc)
    (filter not_both_empty done ++ todo)
  = OK (filter not_both_empty done ++ filter not_both_empty todo).
Proof.
  revert done. induction todo as [|d todo IH]; intros done; simpl.
  - done.
  - destruct (both_empty d) eqn:Hd.
    + rewrite list_remove_first_middle.
      2:{ intros Hin. apply list_elem_of_filter in Hin as [Hne _].
          unfold not_both_empty in Hne. congruence. }
      simpl. rewrite filter_cons_False by (unfold not_both_empty; congruence).
      specialize (IH (done ++ [d])).
      rewrite filter_app, filter_cons_False, filter_nil, app_nil_r in IH
        by (unfold not_both_empty; congruence).
      exact IH.
    + simpl. rewrite filter_cons_True by done.
      specialize (IH (done ++ [d])).
      rewrite filter_app, filter_cons_True, filter_nil in IH by done.
      rewrite <- !app_assoc in IH. exact IH.
Qed.

Lemma prune_empty_filter (ds : list Diff) :
  prune_empty ds = OK (filter not_both_empty ds).
Proof. apply (prune_empty_loop ds []). Qed.

(** ** [adjust_word2ph]: looking a difference up by its start *)

Lemma find_diff_none (ds : list Diff) (p : Z) :
  (∀ d, d ∈ ds → begin_index (generated d) ≠ p) → find_diff ds p = None.
Proof.
  induction ds as [|d ds IH]; intros H; simpl; [done|].
  rewrite decide_False by (apply H, list_elem_of_here).
  apply IH. intros d' Hd'. apply H. by apply list_elem_of_further.
Qed.

(** In a list whose [t]-th difference starts at [k + t], dropping the empty
    differences does not change what the replay adds at [k + t]. *)
Lemma delta_of_pruned (DS : list Diff) (k : Z) :
  (∀ (t : nat) d, DS !! t = Some d →
     begin_index (generated d) = k + Z.of_nat t) →
  ∀ (t : nat) d, DS !! t = Some d →
    delta_of (filter not_both_empty DS) (k + Z.of_nat t) = diff_in_phonemes d.
Proof.
  revert k. induction DS as [|d0 DS IH]; intros k Hidx t d Ht;
    [by rewrite lookup_nil in Ht|].
  assert (Hb0 : begin_index (generated d0) = k).
  { rewrite (Hidx 0%nat d0 eq_refl). lia. }
  assert (Hidx' : ∀ (t : nat) d, DS !! t = Some d →
            begin_index (generated d) = (k + 1) + Z.of_nat t).
  { intros t' d' Ht'. rewrite (Hidx (S t') d' Ht'). lia. }
  destruct t as [|t]; simpl in Ht.
  - injection Ht as <-. replace (k + Z.of_nat 0) with k by lia.
    destruct (both_empty d0) eqn:Hd0.
    + rewrite filter_cons_False by (unfold not_both_empty; congruence).
      unfold delta_of. rewrite find_diff_none.
      * unfold both_empty in Hd0. apply andb_true_iff in Hd0 as [H1 H2].
        apply bool_decide_eq_true_1 in H1, H2.
        unfold diff_in_phonemes, py_len. lia.
      * intros d' Hd'. apply list_elem_of_filter in Hd' as [_ Hd'].
        apply list_elem_of_lookup_1 in Hd' as [t' Ht'].
        rewrite (Hidx' t' d' Ht'). lia.
    + rewrite filter_cons_True by done. unfold delta_of. simpl.
      by rewrite decide_True.
  - replace (k + Z.of_nat (S t)) with ((k + 1) + Z.of_nat t) by lia.
    destruct (both_empty d0) eqn:Hd0.
    + rewrite filter_cons_False by (unfold not_both_empty; congruence).
      by apply IH.
    + rewrite filter_cons_True by done.
      specialize (IH (k + 1) Hidx' t d Ht).
      unfold delta_of in *. simpl. rewrite decide_False by lia. exact IH.
Qed.

Lemma sum_delta_indexed (ds D : list Diff) (cur : Z) :
  (∀ (t : nat) d, D !! t = Some d →
     delta_of ds (cur + Z.of_nat t) = diff_in_phonemes d) →
  sum_delta ds cur (length D)
  = Z.of_nat (length D) + py_sum (map diff_in_phonemes D).
Proof.
  revert cur. induction D as [|d D IH]; intros cur H.
  - reflexivity.
  - cbn [length sum_delta map]. rewrite py_sum_cons.
    rewrite (IH (cur + 1)).
    + specialize (H 0%nat d eq_refl). replace (cur + Z.of_nat 0) with cur in H by lia.
      rewrite H. lia.
    + intros t d' Ht. specialize (H (S t) d' Ht).
      replace (cur + 1 + Z.of_nat t) with (cur + Z.of_nat (S t)) by lia. done.
Qed.

(** ** [adjust_word2ph]: the replay *)

Lemma py_sum_alter (f : Z → Z) (l : list Z) (i : nat) (x : Z) :
  l !! i = Some x → py_sum (alter f i l) = py_sum l - x + f x.
Proof.
  unfold alter. revert i. induction l as [|a l IH]; intros [|i]; simpl; try discriminate.
  - intros [= ->]. rewrite !py_sum_cons. lia.
  - intros H. rewrite !py_sum_cons, (IH _ H). lia.
Qed.

Lemma sum_delta_add (ds : list Diff) (cur : Z) (a b : nat) :
  sum_delta ds cur (a + b)
  = sum_delta ds cur a + sum_delta ds (cur + Z.of_nat a) b.
Proof.
  revert cur. induction a as [|a IH]; intros cur; simpl.
  - replace (cur + Z.of_nat 0) with cur by lia. lia.
  - rewrite IH.
    replace (cur + 1 + Z.of_nat a) with (cur + Z.of_nat (S a)) by lia. lia.
Qed.

Lemma replay_phone_sum (ds : list Diff) (idx : nat) (adj : list Z) (cur : Z) :
  (idx < length adj)%nat →
  length (replay_phone ds idx (adj, cur)).1 = length adj ∧
  (replay_phone ds idx (adj, cur)).2 = cur + 1 ∧
  py_sum (replay_phone ds idx (adj, cur)).1
    = py_sum adj + 1 + delta_of ds cur.
Proof.
  intros Hidx. unfold replay_phone, delta_of.
  destruct (lookup_lt_is_Some_2 adj idx Hidx) as [v Hv].
  destruct (find_diff ds cur) as [d|]; simpl.
  - rewrite !length_alter. split_and!; [done..|].
    rewrite (py_sum_alter _ _ idx (v + diff_in_phonemes d)).
    + rewrite (py_sum_alter _ _ idx v Hv). lia.
    + by rewrite list_lookup_alter_eq, Hv.
  - rewrite !length_alter. split_and!; [done..|].
    rewrite (py_sum_alter _ _ idx v Hv). lia.
Qed.

Lemma replay_iter_sum (ds : list Diff) (idx k : nat) (adj : list Z) (cur : Z) :
  (idx < length adj)%nat →
  length (Nat.iter k (replay_phone ds idx) (adj, cur)).1 = length adj ∧
  (Nat.iter k (replay_phone ds idx) (adj, cur)).2 = cur + Z.of_nat k ∧
  py_sum (Nat.iter k (replay_phone ds idx) (adj, cur)).1
    = py_sum adj + sum_delta ds cur k.
Proof.
  revert adj cur. induction k as [|k IH]; intros adj cur Hidx.
  - simpl. split_and!; [done | lia | lia].
  - rewrite Nat.iter_succ_r.
    destruct (replay_phone_sum ds idx adj cur Hidx) as (H1 & H2 & H3).
    destruct (replay_phone ds idx (adj, cur)) as [adj1 cur1]. simpl in *.
    destruct (IH adj1 cur1) as (H4 & H5 & H6); [lia|].
    rewrite H4, H5, H6, H1, H2, H3. split_and!; [done | lia | lia].
Qed.

Lemma replay_fold_sum (ds : list Diff) (W : list Z) (i0 : nat)
    (adj : list Z) (cur : Z) :
  (i0 + length W ≤ length adj)%nat →
  let st := foldl (replay_slot ds) (adj, cur) (imap (λ i e, ((i0 + i)%nat, e)) W) in
  length st.1 = length adj ∧
  py_sum st.1 = py_sum adj + sum_delta ds cur (replay_positions W).
Proof.
  revert i0 adj cur. induction W as [|e W IH]; intros i0 adj cur Hlen.
  - simpl. split; [done | lia].
  - cbn [imap foldl replay_positions foldr].
    change (replay_slot ds (adj, cur) ((i0 + 0)%nat, e))
      with (Nat.iter (Z.to_nat e) (replay_phone ds (i0 + 0)) (adj, cur)).
    simpl in Hlen.
    destruct (replay_iter_sum ds (i0 + 0) (Z.to_nat e) adj cur) as (H1 & H2 & H3);
      [lia|].
    destruct (Nat.iter (Z.to_nat e) (replay_phone ds (i0 + 0)) (adj, cur))
      as [adj1 cur1]. simpl in H1, H2, H3.
    rewrite (imap_ext _ (λ i e, ((S i0 + i)%nat, e))).
    2:{ intros i x _. simpl. f_equal. lia. }
    destruct (IH (S i0) adj1 cur1) as [H4 H5]; [lia|].
    cbn zeta in *. rewrite H4, H5, H1, H3, H2.
    split; [done|]. fold (replay_positions W). rewrite sum_delta_add. lia.
Qed.

Lemma provisional_word2ph_sum (ds : list Diff) (W : list Z) :
  py_sum (provisional_word2ph ds W) = sum_delta ds 0 (replay_positions W).
Proof.
  unfold provisional_word2ph.
  destruct (replay_fold_sum ds W 0 (replicate (length W) 0) 0) as [_ H].
  { rewrite length_replicate. lia. }
  cbn zeta in H. simpl in H. rewrite H, py_sum_replicate. lia.
Qed.

Lemma replay_positions_sum (W : list Z) :
  Forall (λ e, 0 ≤ e) W → Z.of_nat (replay_positions W) = py_sum W.
Proof.
  induction 1 as [|e W He HW IH]; [done|].
  simpl. rewrite py_sum_cons. fold (replay_positions W). lia.
Qed.

(** Without differences the replay counts the phonemes of every slot. *)
Lemma replay_iter_plain (idx k : nat) (adj : list Z) (cur : Z) :
  Nat.iter k (replay_phone [] idx) (adj, cur)
  = (alter (λ v, v + Z.of_nat k) idx adj, cur + Z.of_nat k).
Proof.
  revert adj cur. induction k as [|k IH]; intros adj cur.
  - simpl. f_equal; [|lia]. symmetry. apply list_alter_id. intros x. lia.
  - rewrite Nat.iter_succ_r.
    change (replay_phone [] idx (adj, cur))
      with (alter (λ v, v + 1) idx adj, cur + 1).
    rewrite IH. f_equal; [|lia].
    rewrite list_alter_alter_eq. apply list_alter_ext; [|done].
    intros x _. simpl. lia.
Qed.

Lemma replay_fold_plain (W done : list Z) (cur : Z) :
  (foldl (replay_slot []) (done ++ replicate (length W) 0, cur)
         (imap (λ i e, ((length done + i)%nat, e)) W)).1
  = done ++ map (λ e, Z.of_nat (Z.to_nat e)) W.
Proof.
  revert done cur. induction W as [|e W IH]; intros done cur.
  - done.
  - cbn [imap foldl length replicate map].
    change (replay_slot [] (done ++ 0 :: replicate (length W) 0, cur)
              ((length done + 0)%nat, e))
      with (Nat.iter (Z.to_nat e) (replay_phone [] (length done + 0))
              (done ++ 0 :: replicate (length W) 0, cur)).
    rewrite replay_iter_plain, alter_app_r. simpl.
    set (v := 0 + Z.of_nat (Z.to_nat e)).
    rewrite (imap_ext _ (λ i e, ((length (done ++ [v]) + i)%nat, e))).
    2:{ intros i x _. simpl. f_equal. rewrite length_app. simpl. lia. }
    replace (done ++ v :: replicate (length W) 0)
      with ((done ++ [v]) ++ replicate (length W) 0)
      by (by rewrite <- app_assoc).
    rewrite IH, <- app_assoc. done.
Qed.

Lemma provisional_word2ph_plain (W : list Z) :
  Forall (λ e, 0 ≤ e) W → provisional_word2ph [] W = W.
Proof.
  intros HW. unfold provisional_word2ph.
  pose proof (replay_fold_plain W [] 0) as H. simpl in H. rewrite H. clear H.
  induction HW as [|e W He HW IH]; [done|]. simpl. f_equal; [lia | done].
Qed.

(** ** [adjust_word2ph]: the differences when [generated] is a prefix of
    [given] *)

Lemma diff_in_phonemes_given (D : list Diff) :
  (∀ (t : nat) d, D !! t = Some d → value (generated d) = []) →
  map diff_in_phonemes D = map (λ d, py_len (value (given d))) D.
Proof.
  induction D as [|d D IH]; intros H; [done|]. simpl. f_equal.
  - unfold diff_in_phonemes. rewrite (H 0%nat d eq_refl). unfold py_len. simpl. lia.
  - apply IH. intros t d' Ht. by apply (H (S t)).
Qed.

Lemma py_sum_zero_all (l : list Z) :
  Forall (λ x, 0 ≤ x) l → py_sum l = 0 → Forall (λ x, x = 0) l.
Proof.
  induction 1 as [|x l Hx Hl IH]; [constructor|].
  rewrite py_sum_cons. intros Hsum.
  assert (0 ≤ py_sum l).
  { clear -Hl. induction Hl; [done|]. rewrite py_sum_cons. lia. }
  constructor; [lia|]. apply IH. lia.
Qed.

Section ExtractPrefix.
Context (X Sfx : list string).
Let Y := X ++ Sfx.

Lemma extract_differences_prefix (qy : Z) :
  chain (-1) (-1) (longest_common_subsequence X Y) (py_len X - 1) qy →
  qy ≤ py_len Y - 1 →
  ∃ D fins : list Diff,
    extract_differences X Y = OK (filter not_both_empty (D ++ fins)) ∧
    length D = length X ∧
    (∀ (t : nat) d, (D ++ fins) !! t = Some d →
       begin_index (generated d) = 0 + Z.of_nat t) ∧
    (∀ (t : nat) d, D !! t = Some d → value (generated d) = []) ∧
    py_sum (map (λ d, py_len (value (given d))) D) = qy + 1 - py_len X ∧
    (qy = py_len Y - 1 → fins = []).
Proof.
  intros Hc Hqy. unfold extract_differences.
  destruct (common_step_chain X Y _ _ _ _ _ [] Hc)
    as (D & HD & Hlen & Hgen & Hsum); [lia..|].
  destruct (chain_end _ _ _ _ _ Hc) as [Hqx _].
  assert (HlenD : length D = length X) by (unfold py_len in *; lia).
  rewrite HD. simpl.
  destruct (decide (py_len X - 1 < py_len X - 1 ∨ qy < py_len Y - 1))
    as [Hfin|Hnofin].
  - eexists D, [_]. rewrite prune_empty_filter.
    split_and!; [done | done | | | |].
    + intros t d Ht.
      assert (Hcase : (t < length D ∨ t = length D)%nat).
      { apply lookup_lt_Some in Ht. rewrite length_app in Ht. simpl in Ht. lia. }
      destruct Hcase as [Ht'|Heq]; [|subst t].
      * rewrite lookup_app_l in Ht by done.
        destruct (Hgen t d Ht) as [Hb _]. lia.
      * rewrite lookup_app_r, Nat.sub_diag in Ht by done.
        injection Ht as <-. simpl. unfold py_len in *. lia.
    + intros t d Ht. by destruct (Hgen t d Ht).
    + unfold py_len in *. lia.
    + intros ->. lia.
  - exists D, []. rewrite prune_empty_filter, app_nil_r.
    split_and!; [done | done | | | |done].
    + intros t d Ht.
      destruct (Hgen t d Ht) as [Hb _]. lia.
    + intros t d Ht. by destruct (Hgen t d Ht).
    + unfold py_len in *. lia.
Qed.

(** The provisional counts sum to one more than the position that the
    last phoneme of [generated] is matched with. *)
Lemma provisional_sum_prefix (W : list Z) (qy : Z) :
  chain (-1) (-1) (longest_common_subsequence X Y) (py_len X - 1) qy →
  qy ≤ py_len Y - 1 →
  replay_positions W = length X →
  ∃ ds, extract_differences X Y = OK ds ∧
        py_sum (provisional_word2ph ds W) = qy + 1 ∧
        (qy = py_len X - 1 → Sfx = [] → ds = []).
Proof.
  intros Hc Hqy HW.
  destruct (extract_differences_prefix qy Hc Hqy)
    as (D & fins & Hext & Hlen & Hidx & Hgen & Hsum & Hfin).
  eexists. split; [exact Hext|]. split.
  - rewrite provisional_word2ph_sum, HW, <- Hlen.
    rewrite (sum_delta_indexed _ D).
    + rewrite (diff_in_phonemes_given D Hgen), Hsum. unfold py_len in *. lia.
    + intros t d Ht.
      apply (delta_of_pruned (D ++ fins) 0 Hidx t d).
      by apply lookup_app_l_Some.
  - intros -> HS. rewrite Hfin.
    2:{ unfold Y. rewrite HS, app_nil_r. done. }
    rewrite app_nil_r.
    assert (Hz : Forall (λ x, x = 0) (map (λ d, py_len (value (given d))) D)).
    { apply py_sum_zero_all.
      - apply Forall_forall. intros x Hx.
        apply list_elem_of_fmap in Hx as (d & -> & _). apply py_len_nonneg.
      - rewrite Hsum. lia. }
    clear -Hz Hgen. induction D as [|d D IH]; [done|].
    inversion Hz as [|? ? Hd HD]; subst.
    rewrite filter_cons_False.
    + apply IH; [|done]. intros t d' Ht. by apply (Hgen (S t)).
    + unfold not_both_empty, both_empty.
      rewrite (Hgen 0%nat d eq_refl). simpl.
      rewrite bool_decide_eq_true_2; [done|]. unfold py_len in Hd. lia.
Qed.
End ExtractPrefix.

(** ** [adjust_word2ph]: the sweeps leave counts within [1, 6] alone *)

Lemma sweep_low_id (a : list Z) : Forall (λ e, 1 ≤ e) a → sweep_low a = a.
Proof.
  intros Ha. unfold sweep_low. generalize (seq 0 (length a)) as idxs.
  induction idxs as [|idx idxs IH]; [done|]. simpl.
  assert (raise_slot a idx = a) as ->; [|done].
  unfold raise_slot. destruct (a !! idx) as [e|] eqn:He; [|done].
  pose proof (Forall_lookup_1 _ _ _ _ Ha He) as Hge. simpl in Hge.
  by rewrite decide_False by lia.
Qed.

Lemma sweep_high_id (a : list Z) : Forall (λ e, e ≤ 6) a → sweep_high a = a.
Proof.
  intros Ha. unfold sweep_high. generalize (seq 0 (length a)) as idxs.
  induction idxs as [|idx idxs IH]; [done|]. simpl.
  assert (cap_slot a idx = a) as ->; [|done].
  unfold cap_slot. destruct (a !! idx) as [e|] eqn:He; [|done].
  pose proof (Forall_lookup_1 _ _ _ _ Ha He) as Hge. simpl in Hge.
  by rewrite decide_False by lia.
Qed.

Lemma lcs_trace_unfold (fuel : nat) (X Y : list string) (L : list (list nat))
    (i j : nat) :
  lcs_trace (S fuel) X Y L i j =
  if decide (0 < i ∧ 0 < j)%nat then
    if decide (X !! (i - 1)%nat = Y !! (j - 1)%nat) then
      ((i - 1)%nat, (j - 1)%nat) :: lcs_trace fuel X Y L (i - 1) (j - 1)
    else if decide (tbl L i (j - 1) ≤ tbl L (i - 1) j)%nat then
      lcs_trace fuel X Y L (i - 1) j
    else lcs_trace fuel X Y L i (j - 1)
  else [].
Proof. reflexivity. Qed.

(** C5, as the code has it.  [adjust_word2ph] called with the generated
    phonemes as the given ones returns [word2ph] unchanged when the boundary
    entries are 1 and every interior entry lies in [1, 6] (and the interior
    entries sum to the number of generated phonemes). *)
Theorem adjust_word2ph_same_phones (W : list Z)
    (generated_phone : list string)
    (Hrange : Forall (λ e, 1 ≤ e ≤ 6) W)
    (Hsum : py_sum W = py_len (py_slice generated_phone 1 (-1))) :
  adjust_word2ph ([1] ++ W ++ [1]) generated_phone generated_phone
  = OK ([1] ++ W ++ [1]).
Proof.
  unfold adjust_word2ph, adjusted_before_assert.
  rewrite py_slice_strip.
  set (X := py_slice generated_phone 1 (-1)) in *.
  assert (HW0 : Forall (λ e, 0 ≤ e) W).
  { eapply Forall_impl; [exact Hrange|]. simpl. lia. }
  destruct (lcs_trace_prefix X [] (length X + length (X ++ []))
              (length X) (length (X ++ []))) as (qy & Hc & Hb & _);
    [rewrite ?length_app; simpl; lia..|].
  rewrite length_app in Hb. simpl in Hb.
  destruct (provisional_sum_prefix X [] W qy) as (ds & Hext & _ & Hnil).
  - replace (py_len X - 1) with (Z.of_nat (length X) - 1) by done. exact Hc.
  - unfold py_len. rewrite length_app. simpl. lia.
  - apply Nat2Z.inj. rewrite replay_positions_sum by done. exact Hsum.
  - rewrite app_nil_r in Hext. rewrite Hext. simpl.
    rewrite Hnil by (done || (unfold py_len; lia)).
    rewrite provisional_word2ph_plain by done.
    rewrite bool_decide_eq_true_2 by done. simpl.
    rewrite sweep_low_id, sweep_high_id; [done| |].
    + eapply Forall_impl; [exact Hrange|]. simpl. lia.
    + eapply Forall_impl; [exact Hrange|]. simpl. lia.
Qed.

Lemma adjust_word2ph_same_phones_witness :
  Forall (λ e, 1 ≤ e ≤ 6) [2; 1] ∧
  adjust_word2ph [1; 2; 1; 1] ["_"; "k"; "a"; "N"; "_"]
                 ["_"; "k"; "a"; "N"; "_"] = OK [1; 2; 1; 1].
Proof.
  assert (H : Forall (λ e, 1 ≤ e ≤ 6) [2; 1]) by (repeat constructor; lia).
  split; [exact H|].
  exact (adjust_word2ph_same_phones [2; 1] ["_"; "k"; "a"; "N"; "_"]
           H eq_refl).
Defined.

(** C5 as the specification states it does not hold: an interior entry 0,
    which [__distribute_phone] produces for a word with more characters than
    phonemes, is raised to 1 by the first sweep. *)
Lemma adjust_word2ph_same_phones_counterexample :
  py_sum (py_slice [1; 1; 0; 1] 1 (-1))
    = py_len (py_slice ["_"; "a"; "_"] 1 (-1)) ∧
  adjust_word2ph [1; 1; 0; 1] ["_"; "a"; "_"] ["_"; "a"; "_"]
    = OK [1; 1; 1; 1] ∧
  adjust_word2ph [1; 1; 0; 1] ["_"; "a"; "_"] ["_"; "a"; "_"]
    ≠ OK [1; 1; 0; 1].
Proof. split_and!; [reflexivity | reflexivity | discriminate]. Qed.

(** ** [adjust_word2ph]: a given sequence that extends the generated one *)

Section SuffixAssertion.
Context (X Sfx : list string).
Hypothesis (HX : X ≠ []) (HSfx : Sfx ≠ []) (Hlast : last Sfx ≠ last X).
Let Y := X ++ Sfx.

Lemma suffix_lengths : (0 < length X)%nat ∧ (length X < length Y)%nat.
Proof.
  unfold Y. rewrite length_app.
  destruct X; [done|]. destruct Sfx; [done|]. simpl. lia.
Qed.

(** The trace back starts with a mismatch and steps to the left. *)
Lemma lcs_trace_suffix_first :
  lcs_trace (length X + length Y) X Y (lcs_table X Y) (length X) (length Y)
  = lcs_trace (length X + length Y - 1) X Y (lcs_table X Y)
              (length X) (length Y - 1).
Proof.
  destruct suffix_lengths as [Hm Hn].
  replace (length X + length Y)%nat with (S (length X + length Y - 1)) at 1
    by lia.
  rewrite lcs_trace_unfold.
  rewrite decide_True by lia.
  rewrite decide_False.
  2:{ replace (X !! (length X - 1)%nat) with (last X)
        by (rewrite last_lookup; f_equal; lia).
      replace (Y !! (length Y - 1)%nat) with (last Y)
        by (rewrite last_lookup; f_equal; lia).
      unfold Y. rewrite last_app.
      destruct (last Sfx) eqn:E; [congruence|].
      apply last_None in E. done. }
  unfold Y. rewrite !lcs_table_prefix by (fold Y; lia).
  rewrite decide_False by lia. done.
Qed.

Lemma lcs_suffix_chain :
  ∃ qy : Z,
    chain (-1) (-1) (longest_common_subsequence X Y) (py_len X - 1) qy ∧
    py_len X - 1 ≤ qy ≤ py_len Y - 2 ∧
    Y !! Z.to_nat qy = last X.
Proof.
  destruct suffix_lengths as [Hm Hn].
  unfold longest_common_subsequence. rewrite lcs_trace_suffix_first.
  destruct (lcs_trace_prefix X Sfx (length X + length Y - 1)
              (length X) (length Y - 1)) as (qy & Hc & Hb & HqY);
    [fold Y; lia..|].
  exists qy. unfold py_len. split_and!; [done | lia | lia |].
  fold Y in HqY. rewrite HqY by lia. rewrite last_lookup. f_equal. lia.
Qed.

Lemma provisional_sum_suffix (W : list Z) :
  Forall (λ e, 0 ≤ e) W → py_sum W = py_len X →
  ∃ ds, extract_differences X Y = OK ds ∧
        py_len X ≤ py_sum (provisional_word2ph ds W) < py_len Y ∧
        ((∀ x, last X = Some x → x ∉ Sfx) →
         py_sum (provisional_word2ph ds W) = py_len X).
Proof.
  intros HW Hsum.
  destruct lcs_suffix_chain as (qy & Hc & Hb & HqY).
  destruct (provisional_sum_prefix X Sfx W qy) as (ds & Hext & Hs & _).
  - exact Hc.
  - fold Y. lia.
  - apply Nat2Z.inj. rewrite replay_positions_sum by done. exact Hsum.
  - exists ds. split; [exact Hext|]. rewrite Hs. split; [lia|].
    intros Hnot.
    destruct (decide (qy = py_len X - 1)) as [->|Hne]; [lia|].
    exfalso. destruct (last X) as [x|] eqn:Ex.
    + apply (Hnot x eq_refl).
      unfold Y in HqY. rewrite lookup_app_r in HqY by (unfold py_len in *; lia).
      by eapply list_elem_of_lookup_2.
    + apply last_None in Ex. done.
Qed.
End SuffixAssertion.

(** C10, as the code has it.  When the word2ph counts are non-negative and
    sum to the number of generated phonemes, the generated sequence is not
    empty and the given sequence is the generated one followed by a
    non-empty suffix whose last phoneme differs from the generated
    sequence's last phoneme, [adjust_word2ph] raises [AssertionError]: the
    provisional counts sum to at least the generated length and to less than
    the given length, and to exactly the generated length when the last
    generated phoneme does not occur in the suffix. *)
Theorem adjust_word2ph_suffix_assertion (word2ph : list Z)
    (generated_phone given_phone Sfx : list string)
    (Hnonneg : Forall (λ e, 0 ≤ e) (py_slice word2ph 1 (-1)))
    (Hsum : py_sum (py_slice word2ph 1 (-1))
            = py_len (py_slice generated_phone 1 (-1)))
    (Hgen : py_slice generated_phone 1 (-1) ≠ [])
    (Hgiven : py_slice given_phone 1 (-1)
              = py_slice generated_phone 1 (-1) ++ Sfx)
    (HSfx : Sfx ≠ [])
    (Hlast : last Sfx ≠ last (py_slice generated_phone 1 (-1))) :
  adjust_word2ph word2ph generated_phone given_phone = Raise AssertionError ∧
  ∃ a, adjusted_before_assert word2ph generated_phone given_phone = OK a ∧
       py_len (py_slice generated_phone 1 (-1)) ≤ py_sum a
         < py_len (py_slice given_phone 1 (-1)) ∧
       ((∀ x, last (py_slice generated_phone 1 (-1)) = Some x → x ∉ Sfx) →
        py_sum a = py_len (py_slice generated_phone 1 (-1))).
Proof.
  unfold adjust_word2ph, adjusted_before_assert. rewrite Hgiven.
  destruct (provisional_sum_suffix _ Sfx Hgen HSfx Hlast _ Hnonneg Hsum)
    as (ds & Hext & Hb & Hexact).
  rewrite Hext. simpl. split.
  - rewrite bool_decide_eq_false_2 by lia. done.
  - eexists. split; [done|]. split; [lia | exact Hexact].
Qed.

Lemma adjust_word2ph_suffix_assertion_witness :
  adjust_word2ph [1; 1; 2; 1] ["_"; "a"; "s"; "u"; "_"]
                 ["_"; "a"; "s"; "u"; "t"; "a"; "_"]
  = Raise AssertionError.
Proof.
  refine (proj1 (adjust_word2ph_suffix_assertion [1; 1; 2; 1]
                   ["_"; "a"; "s"; "u"; "_"]
                   ["_"; "a"; "s"; "u"; "t"; "a"; "_"] ["t"; "a"]
                   _ eq_refl _ eq_refl _ _)).
  - vm_compute. repeat constructor; discriminate.
  - discriminate.
  - discriminate.
  - vm_compute. discriminate.
Defined.

(** C10 as stated does not hold in its last part: the provisional counts
    need not sum to the generated length.  Here the generated phonemes are
    [a b], the given ones [a b b c]; the assertion fails, with provisional
    counts that sum to 3, not to 2. *)
Lemma adjust_word2ph_suffix_counterexample :
  py_slice ["_"; "a"; "b"; "b"; "c"; "_"] 1 (-1)
    = py_slice ["_"; "a"; "b"; "_"] 1 (-1) ++ ["b"; "c"] ∧
  py_sum (py_slice [1; 2; 1] 1 (-1))
    = py_len (py_slice ["_"; "a"; "b"; "_"] 1 (-1)) ∧
  adjusted_before_assert [1; 2; 1] ["_"; "a"; "b"; "_"]
                         ["_"; "a"; "b"; "b"; "c"; "_"] = OK [3] ∧
  py_sum [3] ≠ py_len (py_slice ["_"; "a"; "b"; "_"] 1 (-1)).
Proof. split_and!; [reflexivity.. | discriminate]. Qed.

(** ** [__handle_long] *)

Lemma py_get_lookup {A} (l : list A) (i : nat) (x : A) :
  l !! i = Some x → py_get l (Z.of_nat i) = OK x.
Proof.
  intros H. unfold py_get.
  destruct (decide (Z.of_nat i < 0)); [lia|].
  destruct (decide (Z.of_nat i < 0)); [lia|]. by rewrite Nat2Z.id, H.
Qed.

Lemma py_get_pred {A} (l : list A) (i : nat) (x : A) :
  (1 ≤ i)%nat → l !! (i - 1)%nat = Some x →
  py_get l (Z.of_nat i - 1) = OK x.
Proof.
  intros Hi H. replace (Z.of_nat i - 1) with (Z.of_nat (i - 1)) by lia.
  by apply py_get_lookup.
Qed.

Lemma py_get_last {A} (l : list A) :
  py_get l (-1) = match last l with Some x => OK x | None => Raise IndexError end.
Proof.
  unfold py_get. destruct (decide (-1 < 0)); [|lia]. rewrite last_lookup.
  destruct l as [|a l]; [done|].
  destruct (decide (-1 + Z.of_nat (length (a :: l)) < 0)); [simpl in *; lia|].
  replace (Z.to_nat (-1 + Z.of_nat (length (a :: l)))) with (pred (length (a :: l)))
    by (simpl; lia).
  destruct ((a :: l) !! pred (length (a :: l))) eqn:E; [done|].
  apply lookup_ge_None in E. simpl in E. lia.
Qed.

Section HandleLongFacts.
Context (VOWELS : list string).
Hypothesis Hmark : long_mark ∉ VOWELS.

Lemma long_rest_no_mark (p : string) (rest : list string) :
  long_mark ∉ rest → long_rest p rest = OK rest.
Proof.
  revert p. induction rest as [|c rest IH]; intros p Hn; simpl; [done|].
  rewrite decide_False.
  2:{ intros ->. apply Hn, list_elem_of_here. }
  simpl. rewrite IH; [done|]. intros Hin. apply Hn. by apply list_elem_of_further.
Qed.

(** The inner loop from position [length pre] on. *)
Lemma handle_long_at_loop (rest pre : list string) (p : string) :
  last pre = Some p →
  for_each (seq (length pre) (length rest)) handle_long_at (pre ++ rest)
  = (long_rest p rest ≫= λ rest', OK (pre ++ rest')).
Proof.
  revert pre p. induction rest as [|c rest IH]; intros pre p Hp.
  - simpl. by rewrite app_nil_r.
  - cbn [length seq for_each long_rest].
    assert (Hc : (pre ++ c :: rest) !! length pre = Some c).
    { rewrite lookup_app_r by lia. by rewrite Nat.sub_diag. }
    assert (Hprev : py_get (pre ++ c :: rest) (Z.of_nat (length pre) - 1) = OK p).
    { apply py_get_pred.
      - destruct pre; [done | simpl; lia].
      - rewrite lookup_app_l by (destruct pre; [done | simpl; lia]).
        rewrite <- Hp, last_lookup. f_equal. lia. }
    assert (Hstep : handle_long_at (pre ++ c :: rest) (length pre)
              = ((if decide (c = long_mark)
                  then py_get (py_chars p) (-1) else OK c)
                 ≫= λ c', OK ((pre ++ [c']) ++ rest))).
    { unfold handle_long_at. rewrite Hc.
      destruct (decide (c = long_mark)) as [->|Hne].
      - rewrite decide_True by done. rewrite Hprev. simpl.
        destruct (py_get (py_chars p) (-1)) as [ch|e]; simpl; [|done].
        f_equal. rewrite <- app_assoc. simpl.
        replace (length pre) with (length pre + 0)%nat at 1 by lia.
        by rewrite insert_app_r.
      - rewrite decide_False by congruence. simpl.
        by rewrite <- app_assoc. }
    rewrite Hstep.
    destruct (if decide (c = long_mark)
              then py_get (py_chars p) (-1) else OK c) as [c'|e];
      simpl; [|done].
    specialize (IH (pre ++ [c']) c' (last_snoc _ _)).
    rewrite length_app in IH. simpl in IH.
    replace (length pre + 1)%nat with (S (length pre)) in IH by lia.
    rewrite IH. destruct (long_rest c' rest); simpl; [|done].
    by rewrite <- app_assoc.
Qed.

(** The whole inner loop on a word whose first symbol is not a mark. *)
Lemma handle_long_marks (c : string) (rest : list string) :
  c ≠ long_mark →
  (if str_in long_mark (c :: rest)
   then for_each (seq 0 (length (c :: rest))) handle_long_at (c :: rest)
   else OK (c :: rest))
  = (long_rest c rest ≫= λ rest', OK (c :: rest')).
Proof.
  intros Hc. unfold str_in. case_bool_decide as Hin.
  - cbn [length seq for_each].
    assert (Hstep : handle_long_at (c :: rest) 0 = OK (c :: rest)).
    { unfold handle_long_at. simpl. by rewrite decide_False by congruence. }
    rewrite Hstep. simpl.
    apply (handle_long_at_loop rest [c] c). done.
  - rewrite long_rest_no_mark; [done|].
    intros Hin'. apply Hin. by apply list_elem_of_further.
Qed.

Lemma long_first_not_mark (prev_word : option (list string)) (c c' : string) :
  long_first VOWELS prev_word c = OK c' → c' ≠ long_mark.
Proof.
  unfold long_first. destruct (decide (c = long_mark)) as [->|Hne].
  - destruct prev_word as [pw|]; [|intros [= <-]; discriminate].
    destruct (py_get pw (-1)) as [ph|e]; simpl; [|discriminate].
    destruct (str_in ph VOWELS) eqn:Hv; intros [= <-]; [|discriminate].
    intros ->. apply Hmark. by apply bool_decide_eq_true_1 in Hv.
  - intros [= <-]. done.
Qed.

Lemma handle_long_first_spec (pre : list (list string)) (c : string)
    (wrest : list string) (rest : list (list string)) :
  handle_long_first VOWELS (pre ++ (c :: wrest) :: rest) (length pre)
                    (c :: wrest)
  = (long_first VOWELS (last pre) c ≫= λ c', OK (c' :: wrest)).
Proof.
  unfold handle_long_first, long_first.
  change ((c :: wrest) !! 0%nat) with (Some c).
  destruct (decide (c = long_mark)) as [->|Hne].
  - rewrite decide_True by done.
    destruct pre as [|w0 pre' _] using rev_ind.
    + rewrite decide_False by (intros H; by apply H). done.
    + rewrite decide_True by (rewrite length_app; simpl; lia).
      rewrite last_snoc.
      assert (Hg : py_get ((pre' ++ [w0]) ++ (long_mark :: wrest) :: rest)
                     (Z.of_nat (length (pre' ++ [w0])) - 1) = OK w0).
      { apply py_get_pred; [rewrite length_app; simpl; lia|].
        rewrite lookup_app_l by (rewrite length_app; simpl; lia).
        rewrite length_app. simpl.
        replace (length pre' + 1 - 1)%nat with (length pre' + 0)%nat by lia.
        by rewrite lookup_app_r, Nat.add_0_r, Nat.sub_diag by lia. }
      rewrite Hg. simpl.
      destruct (py_get w0 (-1)) as [prev_phoneme|e]; simpl; [|done].
      destruct (str_in prev_phoneme VOWELS); done.
  - rewrite decide_False by congruence. done.
Qed.

(** One turn of the outer loop, on the word after [pre]. *)
Lemma handle_long_word_spec (pre : list (list string)) (word : list string)
    (rest : list (list string)) :
  handle_long_word VOWELS (pre ++ word :: rest) (length pre)
  = (long_word VOWELS (last pre) word ≫= λ word',
     OK (pre ++ word' :: rest)).
Proof.
  unfold handle_long_word.
  rewrite lookup_app_r by lia. rewrite Nat.sub_diag.
  change ((word :: rest) !! 0%nat) with (Some word). cbv iota beta.
  assert (Hins : ∀ w, <[length pre:=w]> (pre ++ word :: rest)
                      = pre ++ w :: rest).
  { intros w. replace (length pre) with (length pre + 0)%nat at 1 by lia.
    by rewrite insert_app_r. }
  destruct word as [|c wrest].
  - done.
  - rewrite decide_False by (simpl; lia).
    rewrite handle_long_first_spec. unfold long_word.
    destruct (long_first VOWELS (last pre) c) as [c'|e] eqn:Hc'; [|done].
    change (OK c' ≫= λ c'0, OK (c'0 :: wrest)) with (OK (c' :: wrest)).
    change (OK (c' :: wrest) ≫= ?f) with (f (c' :: wrest)). cbv beta.
    rewrite handle_long_marks by (by eapply long_first_not_mark).
    change (OK c' ≫= ?f) with (f c'). cbv beta.
    destruct (long_rest c' wrest) as [r|e]; [|done].
    simpl. by rewrite Hins.
Qed.

Lemma handle_long_loop (ws pre : list (list string)) :
  for_each (seq (length pre) (length ws)) (handle_long_word VOWELS)
           (pre ++ ws)
  = (long_words VOWELS (last pre) ws ≫= λ ws', OK (pre ++ ws')).
Proof.
  revert pre. induction ws as [|w ws IH]; intros pre.
  - simpl. by rewrite app_nil_r.
  - cbn [length seq for_each long_words].
    rewrite handle_long_word_spec.
    destruct (long_word VOWELS (last pre) w) as [w'|e]; simpl; [|done].
    specialize (IH (pre ++ [w'])).
    rewrite length_app, last_snoc in IH. simpl in IH.
    replace (length pre + 1)%nat with (S (length pre)) in IH by lia.
    replace (pre ++ w' :: ws) with ((pre ++ [w']) ++ ws)
      by (by rewrite <- app_assoc).
    rewrite IH. destruct (long_words VOWELS (Some w') ws); simpl; [|done].
    by rewrite <- app_assoc.
Qed.

(** C7, as the code has it.  [__handle_long] turns an elongation mark that
    is the first symbol of its word into the dash when the word is the
    first one or when the last phoneme of the word before it is not a
    vowel, and into a copy of that last phoneme when it is a vowel; a mark
    at any later position of a word becomes the last character of the
    symbol before it, whether that symbol is a vowel or not. *)
Theorem handle_long_by_words (sep_phonemes : list (list string)) :
  __handle_long VOWELS sep_phonemes = long_words VOWELS None sep_phonemes.
Proof.
  unfold __handle_long.
  pose proof (handle_long_loop sep_phonemes []) as H. simpl in H.
  rewrite H. destruct (long_words VOWELS None sep_phonemes); done.
Qed.
End HandleLongFacts.

Lemma handle_long_by_words_witness :
  (long_mark ∉ VOWELS_ja) ∧
  __handle_long VOWELS_ja [["ー"; "ー"; "s"; "o"]; ["ー"; "ー"]; ["."]; ["ー"]]
  = OK [["-"; "-"; "s"; "o"]; ["o"; "o"]; ["."]; ["-"]].
Proof.
  assert (H : long_mark ∉ VOWELS_ja).
  { intros Hin. vm_compute in Hin.
    repeat (apply elem_of_cons in Hin as [Hin|Hin]; [discriminate|]).
    by apply elem_of_nil in Hin. }
  split; [exact H|].
  rewrite (handle_long_by_words VOWELS_ja H). reflexivity.
Defined.

(** C7 as the specification states it does not hold: the mark that opens the
    second word comes after the vowel [a] and becomes a copy of it, not the
    dash. *)
Lemma handle_long_first_symbol_counterexample :
  __handle_long VOWELS_ja [["a"]; ["ー"]] = OK [["a"]; ["a"]] ∧
  long_claim VOWELS_ja [["a"]; ["ー"]] None = [["a"]; ["-"]].
Proof. split; reflexivity. Qed.

(** ** [__convert_acc2hl] *)

Lemma py_slice_take {A} (l : list A) (hi : Z) :
  0 ≤ hi → py_slice l 0 hi = take (Z.to_nat hi) l.
Proof.
  intros Hhi. unfold py_slice, slice_bound.
  destruct (decide (0 < 0)); [lia|]. destruct (decide (hi < 0)); [lia|].
  replace (Z.to_nat (Z.min 0 _)) with 0%nat by lia.
  rewrite drop_0, Nat.sub_0_r.
  destruct (decide (hi ≤ Z.of_nat (length l))).
  - f_equal. lia.
  - rewrite !take_ge by lia. done.
Qed.

Lemma py_slice_take_drop {A} (l : list A) (lo hi : Z) :
  0 ≤ lo → lo ≤ hi →
  py_slice l lo hi = take (Z.to_nat (hi - lo)) (drop (Z.to_nat lo) l).
Proof.
  intros Hlo Hhi. unfold py_slice, slice_bound.
  destruct (decide (lo < 0)); [lia|]. destruct (decide (hi < 0)); [lia|].
  destruct (decide (hi ≤ Z.of_nat (length l))).
  - f_equal; [lia|]. f_equal. lia.
  - destruct (decide (lo ≤ Z.of_nat (length l))).
    + replace (Z.to_nat (Z.min lo _)) with (Z.to_nat lo) by lia.
      rewrite !take_ge; [done | rewrite length_drop; lia | rewrite length_drop; lia].
    + rewrite !drop_ge by lia. by rewrite !take_nil.
Qed.

Lemma py_slice_from_drop {A} (l : list A) (lo : Z) :
  0 ≤ lo → py_slice_from l lo = drop (Z.to_nat lo) l.
Proof.
  intros Hlo. unfold py_slice_from, slice_bound.
  destruct (decide (lo < 0)); [lia|].
  destruct (decide (lo ≤ Z.of_nat (length l))).
  - f_equal. lia.
  - rewrite !drop_ge by lia. done.
Qed.

Section AccentRunFacts.
Context (PUNCTUATIONS : list string).
Context (MORA : list (string * (option string * string))).

Abbreviation phonemes := (kata_chars_to_phoneme_list PUNCTUATIONS MORA).
Abbreviation run := (tone_run PUNCTUATIONS MORA).
Abbreviation conv := (__convert_acc2hl PUNCTUATIONS MORA).

Lemma append_tone_binary (tone : string) (part acc l : list string) :
  binary_mark tone → Forall binary_mark acc →
  append_tone PUNCTUATIONS MORA tone part acc = OK l → Forall binary_mark l.
Proof.
  intros Ht Hacc H. unfold append_tone in H. inv_bind H. injection H as <-.
  apply Forall_app. split; [done|]. by apply Forall_replicate.
Qed.

Lemma phonemes_nil : phonemes [] = OK [].
Proof. reflexivity. Qed.

Lemma append_tone_nil (tone : string) (acc : list string) :
  append_tone PUNCTUATIONS MORA tone [] acc = OK acc.
Proof. unfold append_tone. rewrite phonemes_nil. simpl. by rewrite app_nil_r. Qed.

Lemma youon_at_lookup (ks : list string) (i : nat) (c : string) :
  ks !! i = Some c → youon_at ks (Z.of_nat i) = OK (is_youon c).
Proof. intros H. unfold youon_at. by rewrite (py_get_lookup _ _ _ H). Qed.

Lemma kana_at_lookup (ks : list string) (i : nat) (c : string) :
  ks !! i = Some c → kana_at ks (Z.of_nat i) = OK [c].
Proof. intros H. unfold kana_at. by rewrite (py_get_lookup _ _ _ H). Qed.

Lemma take_1_drop {A} (l : list A) (i : nat) (c : A) :
  l !! i = Some c → take 1 (drop i l) = [c].
Proof.
  revert i. induction l as [|a l IH]; intros [|i] H; simpl in *;
    try discriminate.
  - injection H as ->. by rewrite take_0.
  - by apply IH.
Qed.

Ltac binary_cases :=
  repeat match goal with
    | |- binary_mark _ => (by left) || (by right)
    | H : OK _ = OK _ |- _ => injection H as <-
    | H : Raise _ = OK _ |- _ => discriminate H
    | H : (_ ≫= _) = OK _ |- _ =>
        let a := fresh "a" in
        let Ha := fresh "Ha" in
        apply bind_OK in H; destruct H as (a & Ha & H)
    | H : (if ?c then _ else _) = OK _ |- _ => destruct c
    | H : append_tone _ _ _ _ _ = OK ?l |- Forall binary_mark ?l =>
        eapply append_tone_binary; [| |exact H]
    | |- Forall binary_mark [] => constructor
    end.

Lemma convert_acc2hl_int_binary (ks : list string) (k : Z) (l : list string) :
  convert_acc2hl_int PUNCTUATIONS MORA ks k = OK l → Forall binary_mark l.
Proof. unfold convert_acc2hl_int. intros H. binary_cases. Qed.

Lemma convert_acc2hl_binary (kana accent : string) (l : list string) :
  conv kana accent = OK l → Forall binary_mark l.
Proof.
  unfold __convert_acc2hl. intros H.
  destruct (decide (accent = "ALL_H")); [binary_cases|].
  destruct (decide (accent = "ALL_L")); [binary_cases|].
  inv_bind H. by eapply convert_acc2hl_int_binary.
Qed.
End AccentRunFacts.

Section AccentRunCases.
Context (PUNCTUATIONS : list string).
Context (MORA : list (string * (option string * string))).

Abbreviation tone_of := (append_tone PUNCTUATIONS MORA).

Lemma bind_ret {A} (m : result A) : (m ≫= λ x, OK x) = m.
Proof. by destruct m. Qed.

Lemma run_one t1 p1 :
  tone_run PUNCTUATIONS MORA [(t1, p1)] [] = tone_of t1 p1 [].
Proof. simpl. apply bind_ret. Qed.

Lemma run_two t1 p1 t2 p2 :
  tone_run PUNCTUATIONS MORA [(t1, p1); (t2, p2)] []
  = (tone_of t1 p1 [] ≫= λ l, tone_of t2 p2 l).
Proof.
  simpl. destruct (tone_of t1 p1 []); simpl; [|done]. apply bind_ret.
Qed.

Lemma run_three t1 p1 t2 p2 t3 p3 :
  tone_run PUNCTUATIONS MORA [(t1, p1); (t2, p2); (t3, p3)] []
  = (tone_of t1 p1 [] ≫= λ l, tone_of t2 p2 l ≫= λ l, tone_of t3 p3 l).
Proof.
  simpl. destruct (tone_of t1 p1 []); simpl; [|done].
  destruct (tone_of t2 p2 _); simpl; [|done]. apply bind_ret.
Qed.

Lemma tone_of_nil_r (m : result (list string)) t :
  (m ≫= λ l, tone_of t [] l) = m.
Proof. destruct m; simpl; [|done]. apply append_tone_nil. Qed.

Variables (kana accent : string) (k : Z).
Hypothesis (HH : accent ≠ "ALL_H") (HL : accent ≠ "ALL_L").
Hypothesis (Hk : py_int accent = OK k).
Let ks := py_chars kana.

Lemma conv_int :
  __convert_acc2hl PUNCTUATIONS MORA kana accent
  = convert_acc2hl_int PUNCTUATIONS MORA ks k.
Proof.
  unfold __convert_acc2hl. rewrite !decide_False by done. by rewrite Hk.
Qed.

Ltac by_len := unfold py_len in *; simpl in *; lia.

Lemma conv_single :
  length ks = 1%nat →
  __convert_acc2hl PUNCTUATIONS MORA kana accent
  = tone_run PUNCTUATIONS MORA [(if decide (k = 1) then "1" else "0", ks)] [].
Proof.
  intros Hn. rewrite conv_int, run_one. unfold convert_acc2hl_int.
  destruct (decide (py_len ks = 1)); [|by_len].
  by destruct (decide (k = 1)).
Qed.

Lemma py_get_nonneg {A} (l : list A) (i : Z) (x : A) :
  0 ≤ i → l !! Z.to_nat i = Some x → py_get l i = OK x.
Proof.
  intros Hi H. rewrite <- (Z2Nat.id i Hi). by apply py_get_lookup.
Qed.

Lemma youon_at_Z (i : Z) (c : string) :
  0 ≤ i → ks !! Z.to_nat i = Some c → youon_at ks i = OK (is_youon c).
Proof. intros Hi H. unfold youon_at. by rewrite (py_get_nonneg _ _ _ Hi H). Qed.

Lemma kana_at_Z (i : Z) (c : string) :
  0 ≤ i → ks !! Z.to_nat i = Some c → kana_at ks i = OK [c].
Proof. intros Hi H. unfold kana_at. by rewrite (py_get_nonneg _ _ _ Hi H). Qed.

Lemma conv_pair_youon (y : string) :
  length ks = 2%nat → ks !! 1%nat = Some y → is_youon y = true →
  __convert_acc2hl PUNCTUATIONS MORA kana accent
  = tone_run PUNCTUATIONS MORA [(if decide (k = 1) then "1" else "0", ks)] [].
Proof.
  intros Hn Hy Hyo. rewrite conv_int, run_one. unfold convert_acc2hl_int.
  destruct (decide (py_len ks = 1)); [by_len|].
  destruct (decide (py_len ks = 2)); [|by_len].
  rewrite (youon_at_Z 1 y) by (done || lia). rewrite Hyo. simpl.
  by destruct (decide (k = 1)).
Qed.

Lemma conv_flat_or_head (c0 c1 : string) :
  (2 ≤ length ks)%nat → ks !! 0%nat = Some c0 → ks !! 1%nat = Some c1 →
  is_youon c1 = false → k = 0 ∨ k = 1 →
  __convert_acc2hl PUNCTUATIONS MORA kana accent
  = tone_run PUNCTUATIONS MORA
      [(if decide (k = 0) then "0" else "1", take 1 ks);
       (if decide (k = 0) then "1" else "0", drop 1 ks)] [].
Proof.
  intros Hn Hc0 Hc1 Hy Hk01. rewrite conv_int, run_two.
  unfold convert_acc2hl_int.
  destruct (decide (py_len ks = 1)); [by_len|].
  assert (Hb : (if decide (py_len ks = 2) then youon_at ks 1 else OK false)
               = OK false).
  { destruct (decide (py_len ks = 2)); [|done].
    by rewrite (youon_at_Z 1 c1), Hy by (done || lia). }
  rewrite Hb. simpl.
  rewrite (youon_at_Z 1 c1), Hy by (done || lia).
  rewrite (kana_at_Z 0 c0) by (done || lia).
  rewrite (py_slice_from_drop ks 1) by lia.
  replace (take 1 ks) with [c0]
    by (symmetry; apply (take_1_drop ks 0 c0 Hc0)).
  destruct Hk01 as [->| ->]; simpl; done.
Qed.

Lemma conv_flat_or_head_youon (y : string) :
  (3 ≤ length ks)%nat → ks !! 1%nat = Some y → is_youon y = true →
  k = 0 ∨ k = 1 →
  __convert_acc2hl PUNCTUATIONS MORA kana accent
  = tone_run PUNCTUATIONS MORA
      [(if decide (k = 0) then "0" else "1", take 2 ks);
       (if decide (k = 0) then "1" else "0", drop 2 ks)] [].
Proof.
  intros Hn Hy Hyo Hk01. rewrite conv_int, run_two.
  unfold convert_acc2hl_int.
  destruct (decide (py_len ks = 1)); [by_len|].
  destruct (decide (py_len ks = 2)); [by_len|]. simpl.
  rewrite (youon_at_Z 1 y), Hyo by (done || lia).
  rewrite (py_slice_take ks 2), (py_slice_from_drop ks 2) by lia.
  destruct Hk01 as [->| ->]; simpl; done.
Qed.

Lemma conv_nucleus (c1 cn : string) :
  (2 ≤ length ks)%nat → 2 ≤ k ≤ Z.of_nat (length ks) →
  ks !! 1%nat = Some c1 → (is_youon c1 = false ∨ k ≠ 2) →
  (length ks = 2%nat → is_youon c1 = false) →
  ks !! Z.to_nat (k - 1) = Some cn →
  (∀ y, ks !! Z.to_nat k = Some y → is_youon y = false) →
  __convert_acc2hl PUNCTUATIONS MORA kana accent
  = tone_run PUNCTUATIONS MORA
      [("0", take (Z.to_nat (k - 1)) ks);
       ("1", take 1 (drop (Z.to_nat (k - 1)) ks));
       ("0", drop (Z.to_nat k) ks)] [].
Proof.
  intros Hn Hkn Hc1 Hy1 Hy1' Hcn Hafter. rewrite conv_int, run_three.
  unfold convert_acc2hl_int.
  destruct (decide (py_len ks = 1)); [by_len|].
  assert (Hb : (if decide (py_len ks = 2) then youon_at ks 1 else OK false)
               = OK false).
  { destruct (decide (py_len ks = 2)); [|done].
    rewrite (youon_at_Z 1 c1) by (done || lia). rewrite Hy1' by by_len. done. }
  rewrite Hb. simpl.
  destruct (decide (k = 0)); [lia|]. destruct (decide (k = 1)); [lia|].
  rewrite (take_1_drop ks _ cn Hcn).
  destruct (decide (k < py_len ks)) as [Hlt|Hge].
  - rewrite (youon_at_Z 1 c1) by (done || lia). simpl.
    assert (Hcond : is_youon c1 && bool_decide (k = 2) = false).
    { destruct Hy1 as [->|Hne]; [done|].
      rewrite (bool_decide_eq_false_2 _ Hne). apply andb_false_r. }
    rewrite Hcond.
    destruct (lookup_lt_is_Some_2 ks (Z.to_nat k)) as [y Hyk]; [by_len|].
    replace (k - 1 + 1) with k by lia.
    rewrite (youon_at_Z k y) by (done || lia).
    rewrite (Hafter y Hyk). simpl.
    rewrite (py_slice_take ks (k - 1)) by lia.
    rewrite (kana_at_Z (k - 1) cn) by (done || lia).
    rewrite (py_slice_from_drop ks k) by lia. done.
  - destruct (decide (k = py_len ks)); [|by_len].
    rewrite (py_slice_take ks (k - 1)) by lia.
    rewrite (kana_at_Z (k - 1) cn) by (done || lia).
    rewrite (drop_ge ks (Z.to_nat k)) by by_len.
    destruct (tone_of "0" (take (Z.to_nat (k - 1)) ks) []) as [l|]; simpl; [|done].
    by rewrite tone_of_nil_r.
Qed.

Lemma conv_nucleus_youon (c1 y : string) :
  (3 ≤ length ks)%nat → 2 ≤ k < Z.of_nat (length ks) →
  ks !! 1%nat = Some c1 → (is_youon c1 = false ∨ k ≠ 2) →
  ks !! Z.to_nat k = Some y → is_youon y = true →
  __convert_acc2hl PUNCTUATIONS MORA kana accent
  = tone_run PUNCTUATIONS MORA
      [("0", take (Z.to_nat (k - 1)) ks);
       ("1", take 2 (drop (Z.to_nat (k - 1)) ks));
       ("0", drop (Z.to_nat (k + 1)) ks)] [].
Proof.
  intros Hn Hkn Hc1 Hy1 Hyk Hyo. rewrite conv_int, run_three.
  unfold convert_acc2hl_int.
  destruct (decide (py_len ks = 1)); [by_len|].
  destruct (decide (py_len ks = 2)); [by_len|]. simpl.
  destruct (decide (k = 0)); [lia|]. destruct (decide (k = 1)); [lia|].
  destruct (decide (k < py_len ks)); [|by_len].
  rewrite (youon_at_Z 1 c1) by (done || lia). simpl.
  assert (Hcond : is_youon c1 && bool_decide (k = 2) = false).
  { destruct Hy1 as [->|Hne]; [done|].
    rewrite (bool_decide_eq_false_2 _ Hne). apply andb_false_r. }
  rewrite Hcond.
  replace (k - 1 + 1) with k by lia.
  rewrite (youon_at_Z k y) by (done || lia). rewrite Hyo. simpl.
  rewrite (py_slice_take ks (k - 1)) by lia.
  rewrite (py_slice_take_drop ks (k - 1) (k + 1)) by lia.
  rewrite (py_slice_from_drop ks (k + 1)) by lia.
  replace (Z.to_nat (k + 1 - (k - 1))) with 2%nat by lia. done.
Qed.

(** Past the character count no branch of the body applies. *)
Lemma conv_beyond (c1 : string) :
  (2 ≤ length ks)%nat → Z.of_nat (length ks) < k →
  ks !! 1%nat = Some c1 → (length ks = 2%nat → is_youon c1 = false) →
  __convert_acc2hl PUNCTUATIONS MORA kana accent = OK [].
Proof.
  intros Hn Hk' Hc1 Hy. rewrite conv_int. unfold convert_acc2hl_int.
  destruct (decide (py_len ks = 1)); [by_len|].
  assert (Hb : (if decide (py_len ks = 2) then youon_at ks 1 else OK false)
               = OK false).
  { destruct (decide (py_len ks = 2)); [|done].
    rewrite (youon_at_Z 1 c1) by (done || lia). rewrite Hy by by_len. done. }
  rewrite Hb. simpl.
  destruct (decide (k = 0)); [by_len|]. destruct (decide (k = 1)); [by_len|].
  destruct (decide (k < py_len ks)); [by_len|].
  destruct (decide (k = py_len ks)); [by_len|]. done.
Qed.
End AccentRunCases.




(** ** [update_yomi] *)

Section PipelineFacts.
Context (PUNCTUATIONS : list string).
Context (VOWELS : list string).
Context (MORA : list (string * (option string * string))).
Context (run_frontend : string → list (string * string)).
Context (make_label : string → list Label).
Context (tokenize : string → list string).
Context (fugashi_sep_kata :
           string → result (list string * list string * list string * list string)).
Context (yomikata_patch : list string → list string → result (list string)).
Context (hougen_patch :
           list string → list string → list string → hougen →
           result (list string * list string)).
Context (keihan_patch :
           list string → list string → list string → result (list string)).

Abbreviation alternate :=
  (alternate_pass PUNCTUATIONS VOWELS MORA fugashi_sep_kata yomikata_patch
                  hougen_patch keihan_patch).
Abbreviation update :=
  (update_yomi PUNCTUATIONS VOWELS MORA fugashi_sep_kata yomikata_patch
               hougen_patch keihan_patch).
Abbreviation analyze :=
  (g2p PUNCTUATIONS VOWELS MORA run_frontend make_label tokenize
       fugashi_sep_kata yomikata_patch hougen_patch keihan_patch).

(** The last decision of [update_yomi], branch by branch.  The standard
    text, readings, phonemes and tones are kept only when [hougen_mode] is
    the string "tokyo" and the alternate pass has the same phoneme sequence
    and the same number of tokens; in every other case, whatever
    [hougen_mode] is, the alternate pass replaces them. *)
Theorem update_yomi_policy (sep_text sep_kata : list string)
    (sep_phonemes : list (list string)) (phone_w_punct : list string)
    (phone_tone_list : list (string * Z)) (use_yomikata : bool)
    (hougen_mode : hougen)
    (new_sep_text new_sep_kata : list string)
    (new_sep_phonemes : list (list string)) (new_phone_w_punct : list string)
    (new_phone_tone_list : list (string * Z))
    (Halt : alternate sep_text use_yomikata hougen_mode
            = OK (new_sep_text, new_sep_kata, new_sep_phonemes,
                  new_phone_w_punct, new_phone_tone_list)) :
  (hougen_mode = HougenStr "tokyo" → phone_w_punct = new_phone_w_punct →
   length new_sep_kata = length sep_kata →
     update sep_text sep_kata sep_phonemes phone_w_punct phone_tone_list
            use_yomikata hougen_mode
     = OK (sep_text, sep_kata, sep_phonemes, phone_tone_list)) ∧
  (¬ (hougen_mode = HougenStr "tokyo" ∧ phone_w_punct = new_phone_w_punct
      ∧ length new_sep_kata = length sep_kata) →
     update sep_text sep_kata sep_phonemes phone_w_punct phone_tone_list
            use_yomikata hougen_mode
     = OK (new_sep_text, new_sep_kata, new_sep_phonemes,
           new_phone_tone_list)).
Proof.
  unfold update_yomi. rewrite Halt. simpl. split.
  - intros -> -> Hlen. rewrite decide_True by done.
    by rewrite decide_True by done.
  - intros Hnot. destruct (decide (hougen_mode = HougenStr "tokyo")); [|done].
    rewrite decide_False; [done|]. intros [? ?]. by apply Hnot.
Qed.
End PipelineFacts.

Lemma update_yomi_policy_witness :
  sample_alternate_pass ["ア"] false (HougenStr "tokyo")
    = OK (["ア"], ["ア"], [["a"]], ["a"], [("a", 1)]) ∧
  sample_update_yomi ["ア"] ["ア"] [["a"]] ["a"] [("a", 0)] false
                     (HougenStr "tokyo")
    = OK (["ア"], ["ア"], [["a"]], [("a", 0)]).
Proof.
  assert (H : sample_alternate_pass ["ア"] false (HougenStr "tokyo")
              = OK (["ア"], ["ア"], [["a"]], ["a"], [("a", 1)]))
    by reflexivity.
  split; [exact H|].
  exact (proj1 (update_yomi_policy _ _ _ _ _ _ _ ["ア"] ["ア"] [["a"]] ["a"]
                  [("a", 0)] false (HougenStr "tokyo") _ _ _ _ _ H)
           eq_refl eq_refl eq_refl).
Defined.

(** C8.  With [hougen_mode] left at its default ([None]) the comparison
    with the standard pass is not made.  On the word ア the alternate pass
    has the phoneme sequence and the token count of the standard pass, and
    [update_yomi] still returns the alternate tones; [g2p] then returns the
    tones [0; 1; 0] with [use_unidic3] where it returns [0; 0; 0] without
    it, and only the string "tokyo", which the signature does not admit,
    keeps the standard ones. *)
Theorem update_yomi_default_mode :
  sample_alternate_pass ["ア"] false HougenNone
    = OK (["ア"], ["ア"], [["a"]], ["a"], [("a", 1)]) ∧
  sample_update_yomi ["ア"] ["ア"] [["a"]] ["a"] [("a", 0)] false HougenNone
    = OK (["ア"], ["ア"], [["a"]], [("a", 1)]) ∧
  sample_update_yomi ["ア"] ["ア"] [["a"]] ["a"] [("a", 0)] false
                     (HougenStr "tokyo")
    = OK (["ア"], ["ア"], [["a"]], [("a", 0)]) ∧
  sample_g2p "ア" true false false false HougenNone
    = OK (["_"; "a"; "_"], [0; 0; 0], [1; 1; 1]) ∧
  sample_g2p "ア" true false true false HougenNone
    = OK (["_"; "a"; "_"], [0; 1; 0], [1; 1; 1]) ∧
  sample_g2p "ア" true false true false (HougenStr "tokyo")
    = OK (["_"; "a"; "_"], [0; 0; 0], [1; 1; 1]).
Proof. split_and!; reflexivity. Qed.

(** ** [g2p] *)

Lemma for_each_inv {A S : Type} (P : S → Prop) (body : S → A → result S)
    (l : list A) (s s' : S) :
  P s → (∀ s x s', P s → body s x = OK s' → P s') →
  for_each l body s = OK s' → P s'.
Proof.
  intros Hs Hbody. revert s Hs. induction l as [|x l IH]; intros s Hs; simpl.
  - by intros [= <-].
  - intros H. inv_bind H. eauto.
Qed.

Lemma py_get_elem {A} (l : list A) (i : Z) (x : A) :
  py_get l i = OK x → x ∈ l.
Proof.
  unfold py_get. destruct (decide (_ < 0)); [discriminate|].
  destruct (l !! _) eqn:E; [|discriminate]. intros [= <-].
  by eapply list_elem_of_lookup_2.
Qed.

Lemma fix_phone_tone_binary_tone (l out : list (string * Z)) :
  __fix_phone_tone l = OK out → Forall binary_tone out.*2.
Proof. apply fix_phone_tone_binary. Qed.

Lemma tone_step_binary (prosodies : list string) st il st' :
  Forall binary_tone st.1.1.*2 → tone_step prosodies st il = OK st' →
  Forall binary_tone st'.1.1.*2.
Proof.
  destruct st as [[res phrase] tone], il as [i letter]. simpl.
  intros Hres. unfold tone_step.
  destruct (decide (letter = "^")).
  { intros H. inv_bind H. by injection H as <-. }
  destruct (str_in letter ["$"; "?"; "_"; "#"]).
  { intros H. inv_bind H. inv_bind H. injection H as <-. simpl.
    rewrite fmap_app. apply Forall_app. split; [done|].
    by eapply fix_phone_tone_binary_tone. }
  destruct (decide (letter = "[")); [by intros [= <-]|].
  destruct (decide (letter = "]")); [by intros [= <-]|].
  by intros [= <-].
Qed.

Lemma g2phone_tone_binary (prosodies : list string) (out : list (string * Z)) :
  g2phone_tone_of_prosodies prosodies = OK out → Forall binary_tone out.*2.
Proof.
  unfold g2phone_tone_of_prosodies. intros H. inv_bind H. injection H as <-.
  eapply (for_each_inv (λ st, Forall binary_tone st.1.1.*2)); [| |exact Ha].
  - constructor.
  - intros s x s'. apply tone_step_binary.
Qed.

Lemma py_int_binary_mark (accent : string) (tone : Z) :
  binary_mark accent → py_int accent = OK tone → binary_tone tone.
Proof.
  intros [-> | ->]; vm_compute; intros [= <-]; [by left | by right].
Qed.

(** The last lines of [g2p]: the boundary units and the final assertion. *)
Lemma g2p_result_shape (use_jp_extra : bool) (ptl : list (string * Z))
    (w2p : list Z) :
  let full := [("_", 0)] ++ ptl ++ [("_", 0)] in
  let phones :=
    if negb use_jp_extra
    then map (λ phone, if decide (phone ≠ "N") then phone else "n") full.*1
    else full.*1 in
  py_len full.*1 = py_sum ([1] ++ w2p ++ [1]) →
  Forall binary_tone ptl.*2 →
  length phones = length full.*2 ∧
  py_sum ([1] ++ w2p ++ [1]) = py_len phones ∧
  head phones = Some "_" ∧ last phones = Some "_" ∧
  head full.*2 = Some 0 ∧ last full.*2 = Some 0 ∧
  head ([1] ++ w2p ++ [1]) = Some 1 ∧ last ([1] ++ w2p ++ [1]) = Some 1 ∧
  Forall binary_tone full.*2.
Proof.
  intros full phones Hsum Hbin. subst phones.
  assert (E1 : full.*1 = ("_" :: ptl.*1) ++ ["_"])
    by (unfold full; by rewrite !fmap_app).
  assert (E2 : full.*2 = (0 :: ptl.*2) ++ [0])
    by (unfold full; by rewrite !fmap_app).
  assert (E3 : [1] ++ w2p ++ [1] = (1 :: w2p) ++ [1]) by done.
  assert (Hbin_full : Forall binary_tone full.*2).
  { rewrite E2. apply Forall_app. split; [|repeat constructor; by left].
    apply Forall_cons. split; [by left | done]. }
  assert (Hmap : ∀ f : string → string, f "_" = "_" →
            length (map f full.*1) = length full.*2 ∧
            py_sum ([1] ++ w2p ++ [1]) = py_len (map f full.*1) ∧
            head (map f full.*1) = Some "_" ∧
            last (map f full.*1) = Some "_").
  { intros f Hf. split_and!.
    - by rewrite (length_map f), !length_fmap.
    - rewrite <- Hsum. unfold py_len. by rewrite (length_map f).
    - rewrite E1. simpl. by rewrite Hf.
    - rewrite E1, map_app.
      change (map f ["_"]) with [f "_"]. by rewrite last_snoc, Hf. }
  assert (Hrest : head full.*2 = Some 0 ∧ last full.*2 = Some 0 ∧
            head ([1] ++ w2p ++ [1]) = Some 1 ∧
            last ([1] ++ w2p ++ [1]) = Some 1).
  { rewrite E2, E3. split_and!; [done | apply last_snoc | done | apply last_snoc]. }
  destruct Hrest as (R1 & R2 & R3 & R4).
  destruct use_jp_extra; cbn [negb].
  - destruct (Hmap id eq_refl) as (M1 & M2 & M3 & M4).
    rewrite map_id in *. split_and!; done.
  - destruct (Hmap (λ phone, if decide (phone ≠ "N") then phone else "n"))
      as (M1 & M2 & M3 & M4).
    { destruct (decide ("_" ≠ "N")) as [|Hn]; [done|].
      exfalso. apply Hn. discriminate. }
    split_and!; done.
Qed.

Section G2pFacts.
Context (PUNCTUATIONS : list string).
Context (VOWELS : list string).
Context (MORA : list (string * (option string * string))).
Context (run_frontend : string → list (string * string)).
Context (make_label : string → list Label).
Context (tokenize : string → list string).
Context (fugashi_sep_kata :
           string → result (list string * list string * list string * list string)).
Context (yomikata_patch : list string → list string → result (list string)).
Context (hougen_patch :
           list string → list string → list string → hougen →
           result (list string * list string)).
Context (keihan_patch :
           list string → list string → list string → result (list string)).

Lemma alternate_pass_binary sep_text use_yomikata hougen_mode r :
  alternate_pass PUNCTUATIONS VOWELS MORA fugashi_sep_kata yomikata_patch
                 hougen_patch keihan_patch sep_text use_yomikata hougen_mode
  = OK r →
  Forall binary_tone r.2.*2.
Proof.
  unfold alternate_pass. intros H.
  apply bind_OK in H as ([[[word_list kana_list] accent_list] pos_list] & _ & H).
  apply bind_OK in H as (kana_list' & _ & H).
  apply bind_OK in H as ([kana_list'' accent_list'] & _ & H).
  apply bind_OK in H as (accent_list'' & _ & H).
  apply bind_OK in H as (accent_hl_list & Hhl & H).
  apply bind_OK in H as (sp & _ & H).
  apply bind_OK in H as (sp' & _ & H).
  apply bind_OK in H as (_ & _ & H).
  apply bind_OK in H as (ntl & Hntl & H).
  injection H as <-. simpl.
  assert (Hmarks : Forall binary_mark accent_hl_list).
  { eapply (for_each_inv (Forall binary_mark)); [| |exact Hhl].
    - constructor.
    - intros s x s' Hs Hb. inv_bind Hb. inv_bind Hb. inv_bind Hb.
      injection Hb as <-. apply Forall_app. split; [done|].
      by eapply convert_acc2hl_binary. }
  eapply (for_each_inv (λ l : list (string * Z), Forall binary_tone l.*2));
    [| |exact Hntl].
  - constructor.
  - intros s x s' Hs Hb. inv_bind Hb. inv_bind Hb. inv_bind Hb.
    injection Hb as <-. rewrite fmap_app. apply Forall_app. split; [done|].
    simpl. constructor; [|constructor].
    eapply py_int_binary_mark; [|done].
    eapply Forall_forall; [exact Hmarks|]. by eapply py_get_elem.
Qed.

Lemma update_yomi_binary sep_text sep_kata sep_phonemes phone_w_punct
    phone_tone_list use_yomikata hougen_mode r :
  Forall binary_tone phone_tone_list.*2 →
  update_yomi PUNCTUATIONS VOWELS MORA fugashi_sep_kata yomikata_patch
              hougen_patch keihan_patch sep_text sep_kata sep_phonemes
              phone_w_punct phone_tone_list use_yomikata hougen_mode = OK r →
  Forall binary_tone r.2.*2.
Proof.
  intros Hstd. unfold update_yomi. intros H.
  apply bind_OK in H as ([[[[nt nk] np] nw] ntl] & Halt & H).
  apply alternate_pass_binary in Halt. simpl in Halt.
  destruct (decide (hougen_mode = HougenStr "tokyo")).
  - destruct (decide _); injection H as <-; done.
  - injection H as <-. done.
Qed.

(** C1. Every successful [g2p] returns phones and tones of equal length,
    a word2ph that sums to that length, the boundary phoneme "_" at both
    ends of phones, 0 at both ends of tones, 1 at both ends of word2ph,
    and tones that are all 0 or 1. *)
Theorem g2p_invariants (norm_text : string)
    (use_jp_extra raise_yomi_error use_unidic3 use_yomikata : bool)
    (hougen_mode : hougen) (phones : list string) (tones word2ph : list Z)
    (Hok : g2p PUNCTUATIONS VOWELS MORA run_frontend make_label tokenize
               fugashi_sep_kata yomikata_patch hougen_patch keihan_patch
               norm_text use_jp_extra raise_yomi_error use_unidic3
               use_yomikata hougen_mode
           = OK (phones, tones, word2ph)) :
  length phones = length tones ∧
  py_sum word2ph = py_len phones ∧
  head phones = Some "_" ∧ last phones = Some "_" ∧
  head tones = Some 0 ∧ last tones = Some 0 ∧
  head word2ph = Some 1 ∧ last word2ph = Some 1 ∧
  Forall binary_tone tones.
Proof.
  unfold g2p in Hok.
  apply bind_OK in Hok as (wo_punct & Hwo & Hok).
  apply bind_OK in Hok as ([sep_text sep_kata] & _ & Hok).
  apply bind_OK in Hok as (sp0 & _ & Hok).
  apply bind_OK in Hok as (sp & _ & Hok).
  apply bind_OK in Hok as (ptl & Hptl & Hok).
  apply bind_OK in Hok as ([[[sep_text' sep_kata'] sp'] ptl'] & Hupd & Hok).
  apply bind_OK in Hok as (w2p & _ & Hok).
  apply bind_OK in Hok as ([] & Hassert & Hok).
  unfold py_assert in Hassert.
  case_bool_decide as Hsum; [|discriminate].
  assert (Hstd : Forall binary_tone ptl.*2).
  { unfold __g2phone_tone_wo_punct in Hwo. inv_bind Hwo.
    apply g2phone_tone_binary in Hwo.
    rewrite align_tones_eq_spec in Hptl.
    eapply align_spec_tones; [by left | exact Hwo | exact Hptl]. }
  assert (Hbin : Forall binary_tone ptl'.*2).
  { destruct use_unidic3.
    - apply update_yomi_binary in Hupd; done.
    - by injection Hupd as <- <- <- <-. }
  pose proof (g2p_result_shape use_jp_extra ptl' w2p Hsum Hbin) as Hshape.
  cbv zeta in Hshape.
  injection Hok as Hp Ht Hw. subst phones tones word2ph. exact Hshape.
Qed.
End G2pFacts.

Lemma g2p_invariants_witness :
  sample_g2p "ア" true false true false HougenNone
    = OK (["_"; "a"; "_"], [0; 1; 0], [1; 1; 1]) ∧
  Forall binary_tone [0; 1; 0].
Proof.
  assert (H : sample_g2p "ア" true false true false HougenNone
              = OK (["_"; "a"; "_"], [0; 1; 0], [1; 1; 1])) by reflexivity.
  split; [exact H|]. unfold sample_g2p in H.
  exact (proj2 (proj2 (proj2 (proj2 (proj2 (proj2 (proj2 (proj2
           (g2p_invariants _ _ _ _ _ _ _ _ _ _ _ _ _ _ _ _ _ _ _ H))))))))).
Defined.

(* ===================================================================== *)
(** * Further properties *)
(* ===================================================================== *)

(** ** [__distribute_phone]: the closed form *)

Lemma distribute_step_balanced (q : Z) (r m : nat) :
  distribute_step (replicate r (q + 1) ++ replicate (S m) q)
  = OK (replicate (S r) (q + 1) ++ replicate m q).
Proof.
  set (l := replicate r (q + 1) ++ replicate (S m) q).
  assert (Hr : l !! r = Some q).
  { unfold l. rewrite lookup_app_r by (rewrite length_replicate; lia).
    rewrite length_replicate, Nat.sub_diag. done. }
  assert (Hvals : ∀ (j : nat) x, l !! j = Some x → x = q ∨ x = q + 1).
  { intros j x Hj. apply list_elem_of_lookup_2 in Hj. unfold l in Hj.
    apply elem_of_app in Hj as [Hj|Hj]; apply elem_of_replicate in Hj;
      destruct Hj; auto. }
  assert (Hbefore : ∀ j : nat, (j < r)%nat → l !! j = Some (q + 1)).
  { intros j Hj. unfold l. rewrite lookup_app_l by (rewrite length_replicate; lia).
    by apply lookup_replicate_2. }
  destruct (distribute_step_total l) as (l' & Hl' & _).
  { unfold l. destruct r; discriminate. }
  rewrite Hl'. f_equal.
  apply distribute_step_leftmost_min in Hl' as (i & mn & Hi & Hle & Hlt & ->).
  assert (mn = q) as ->.
  { specialize (Hle _ _ Hr). destruct (Hvals _ _ Hi); lia. }
  assert (i = r) as ->.
  { destruct (Nat.lt_trichotomy i r) as [H|[H|H]]; [|done|].
    - rewrite (Hbefore _ H) in Hi. injection Hi; lia.
    - specialize (Hlt _ _ H Hr). lia. }
  unfold l. rewrite insert_app_r_alt by (rewrite length_replicate; lia).
  rewrite length_replicate, Nat.sub_diag.
  replace (S r) with (r + 1)%nat by lia.
  rewrite replicate_add, <- app_assoc. done.
Qed.

Lemma distribute_loop_balanced (n : nat) (k : nat) :
  (0 < n)%nat →
  repeat_body k distribute_step (replicate n 0)
  = OK (replicate (k mod n) (Z.of_nat (k / n) + 1)
        ++ replicate (n - k mod n) (Z.of_nat (k / n))).
Proof.
  intros Hn.
  assert (Hgen : ∀ k (q : Z) (r : nat), (r < n)%nat →
    repeat_body k distribute_step
      (replicate r (q + 1) ++ replicate (n - r) q)
    = OK (replicate ((r + k) mod n) (q + Z.of_nat ((r + k) / n) + 1)
          ++ replicate (n - (r + k) mod n) (q + Z.of_nat ((r + k) / n)))).
  { clear k. induction k as [|k IH]; intros q r Hr.
    - simpl. rewrite Nat.add_0_r, Nat.mod_small, Nat.div_small by done.
      do 3 f_equal; lia.
    - cbn [repeat_body].
      replace (n - r)%nat with (S (n - r - 1)) by lia.
      rewrite distribute_step_balanced. cbn [mbind result_bind].
      destruct (decide (S r = n)) as [E|E].
      + replace (n - r - 1)%nat with 0%nat by lia. simpl replicate at 2.
        rewrite app_nil_r, E.
        specialize (IH (q + 1) 0%nat Hn). simpl replicate at 1 in IH.
        rewrite Nat.sub_0_r in IH. simpl app in IH. rewrite IH.
        replace (r + S k)%nat with (k + 1 * n)%nat by lia.
        rewrite Nat.Div0.mod_add, Nat.div_add by lia.
        do 3 f_equal; lia.
      + specialize (IH q (S r)). replace (n - S r)%nat with (n - r - 1)%nat in IH by lia.
        rewrite IH by lia. replace (S r + k)%nat with (r + S k)%nat by lia. done. }
  specialize (Hgen k 0 0%nat Hn). simpl replicate at 1 in Hgen.
  rewrite Nat.sub_0_r in Hgen. simpl app in Hgen. rewrite Hgen.
  do 3 f_equal; lia.
Qed.

(** X1. For at least one word and a non-negative number of phonemes,
    [__distribute_phone] returns the balanced split: with
    [q = n_phone // n_word] and [r = n_phone % n_word], the first [r] words
    get [q + 1] phonemes and the remaining ones [q]. *)
Theorem distribute_phone_balanced (n_phone n_word : Z)
    (Hphone : 0 ≤ n_phone) (Hword : 1 ≤ n_word) :
  __distribute_phone n_phone n_word
  = OK (replicate (Z.to_nat (n_phone mod n_word)) (n_phone / n_word + 1)
        ++ replicate (Z.to_nat (n_word - n_phone mod n_word))
                     (n_phone / n_word)).
Proof.
  unfold __distribute_phone.
  rewrite distribute_loop_balanced by lia.
  assert (Hm : Z.of_nat (Z.to_nat n_phone mod Z.to_nat n_word)
               = n_phone mod n_word).
  { rewrite Nat2Z.inj_mod, !Z2Nat.id by lia. done. }
  assert (Hd : Z.of_nat (Z.to_nat n_phone / Z.to_nat n_word)
               = n_phone / n_word).
  { rewrite Nat2Z.inj_div, !Z2Nat.id by lia. done. }
  pose proof (Z.mod_pos_bound n_phone n_word ltac:(lia)).
  rewrite Hd. do 2 f_equal.
  - f_equal. lia.
  - f_equal. lia.
Qed.

Lemma distribute_phone_balanced_witness :
  0 ≤ 7 ∧ 1 ≤ 3 ∧ __distribute_phone 7 3 = OK [3; 2; 2].
Proof.
  split; [lia|]. split; [lia|].
  exact (distribute_phone_balanced 7 3 ltac:(lia) ltac:(lia)).
Defined.

(** X2. With no word to receive them ([n_word <= 0]), one phoneme or more
    makes [__distribute_phone] raise [ValueError], from [min()] of the
    empty list; with no phoneme to hand out ([n_phone <= 0]) it returns
    [n_word] zeros, whatever [n_word] is. *)
Theorem distribute_phone_degenerate (n_phone n_word : Z) :
  (n_word ≤ 0 → 1 ≤ n_phone →
     __distribute_phone n_phone n_word = Raise ValueError) ∧
  (n_phone ≤ 0 →
     __distribute_phone n_phone n_word = OK (replicate (Z.to_nat n_word) 0)).
Proof.
  unfold __distribute_phone. split.
  - intros Hw Hp. replace (Z.to_nat n_word) with 0%nat by lia.
    destruct (Z.to_nat n_phone) eqn:E; [lia|]. reflexivity.
  - intros Hp. replace (Z.to_nat n_phone) with 0%nat by lia. reflexivity.
Qed.

Lemma distribute_phone_degenerate_witness :
  __distribute_phone 2 0 = Raise ValueError ∧
  __distribute_phone 0 3 = OK [0; 0; 0].
Proof.
  split.
  - apply (proj1 (distribute_phone_degenerate 2 0)); lia.
  - apply (proj2 (distribute_phone_degenerate 0 3)); lia.
Defined.

(** ** [__align_tones]: what the walk restores *)

Section AlignTonesMore.
Context (PUNCTUATIONS : list string).

Lemma align_spec_past_end (phones : list string) (ptl : list (string * Z))
    (i : nat) :
  (length ptl ≤ i)%nat →
  align_spec PUNCTUATIONS phones ptl i = OK (map (λ p, (p, 0)) phones).
Proof.
  intros Hi. induction phones as [|ph phones IH]; simpl; [done|].
  rewrite (lookup_ge_None_2 ptl i Hi), IH. done.
Qed.

Lemma align_spec_own_phones (ptl : list (string * Z)) (rest : list string)
    (k i : nat) :
  (i + k = length ptl)%nat →
  align_spec PUNCTUATIONS ((drop i ptl).*1 ++ rest) ptl i
  = OK (drop i ptl ++ map (λ p, (p, 0)) rest).
Proof.
  revert i. induction k as [|k IH]; intros i Hik.
  - rewrite drop_ge by lia. simpl. apply align_spec_past_end. lia.
  - destruct (lookup_lt_is_Some_2 ptl i) as [[p t] Hpt]; [lia|].
    rewrite (drop_S _ _ _ Hpt). simpl. rewrite Hpt.
    rewrite decide_True by done. rewrite IH by lia. done.
Qed.

Lemma align_spec_restores (phones : list string) (ptl : list (string * Z))
    (i : nat) :
  filter (λ p, p ∉ PUNCTUATIONS) phones = (drop i ptl).*1 →
  ∃ out, align_spec PUNCTUATIONS phones ptl i = OK out ∧
         filter (λ pt, pt.1 ∉ PUNCTUATIONS) out = drop i ptl ∧
         Forall (λ pt, pt.1 ∈ PUNCTUATIONS → pt.2 = 0) out.
Proof.
  revert i. induction phones as [|ph phones IH]; intros i Hfil.
  - simpl in *. exists []. split; [done|]. split; [|constructor].
    destruct (drop i ptl); [done | discriminate].
  - simpl. destruct (decide (ph ∈ PUNCTUATIONS)) as [Hin|Hout].
    + rewrite filter_cons_False in Hfil by (intros H; by apply H).
      destruct (IH i Hfil) as (out & Hout & Hf & Hz).
      exists ((ph, 0) :: out). split_and!.
      * destruct (ptl !! i) as [[p t]|] eqn:Hpt; [|by rewrite Hout].
        destruct (decide (ph = p)) as [->|Hne].
        { exfalso.
          assert (Hp : p ∈ (drop i ptl).*1).
          { rewrite (drop_S _ _ _ Hpt). simpl. apply list_elem_of_here. }
          rewrite <- Hfil in Hp. apply list_elem_of_filter in Hp as [Hp _].
          by apply Hp. }
        unfold str_in. rewrite bool_decide_eq_true_2 by done.
        by rewrite Hout.
      * rewrite filter_cons_False by (simpl; intros H; by apply H). done.
      * constructor; [done|done].
    + rewrite filter_cons_True in Hfil by done.
      destruct (drop i ptl) as [|[p t] tl] eqn:Hdrop; [discriminate|].
      simpl in Hfil. injection Hfil as <- Hfil.
      assert (Hpt : ptl !! i = Some (ph, t)).
      { rewrite <- (Nat.add_0_r i), <- lookup_drop, Hdrop. done. }
      assert (Htl : drop (S i) ptl = tl).
      { rewrite (drop_S _ _ _ Hpt) in Hdrop. by injection Hdrop. }
      rewrite Hpt. rewrite decide_True by done.
      destruct (IH (S i)) as (out & Hout' & Hf & Hz); [by rewrite Htl|].
      rewrite Hout'. exists ((ph, t) :: out). split_and!; [done| |].
      * rewrite filter_cons_True by done. by rewrite Hf, Htl.
      * constructor; [|done]. simpl. intros H. done.
Qed.

(** X3. When the phoneme list with its punctuation removed is exactly the
    phoneme sequence of the tone list, [__align_tones] succeeds, keeps the
    input phonemes, gives every punctuation the tone 0, and removing the
    punctuation from its result gives the tone list back. *)
Theorem align_tones_restores (phones : list string) (ptl : list (string * Z))
    (Hfil : filter (λ p, p ∉ PUNCTUATIONS) phones = ptl.*1) :
  ∃ out, __align_tones PUNCTUATIONS phones ptl = OK out ∧
         out.*1 = phones ∧
         filter (λ pt, pt.1 ∉ PUNCTUATIONS) out = ptl ∧
         Forall (λ pt, pt.1 ∈ PUNCTUATIONS → pt.2 = 0) out.
Proof.
  destruct (align_spec_restores phones ptl 0 Hfil) as (out & Hout & Hf & Hz).
  exists out. rewrite align_tones_eq_spec. split_and!; try done.
  by eapply align_spec_phones.
Qed.

(** X4. Once the tone list is used up, every further phoneme gets the tone
    0 without any check, punctuation or not: on the phonemes of the tone
    list followed by any [rest], the result is the tone list followed by
    [rest] at tone 0. *)
Theorem align_tones_surplus (ptl : list (string * Z)) (rest : list string) :
  __align_tones PUNCTUATIONS (ptl.*1 ++ rest) ptl
  = OK (ptl ++ map (λ p, (p, 0)) rest).
Proof.
  rewrite align_tones_eq_spec.
  exact (align_spec_own_phones ptl rest (length ptl) 0 eq_refl).
Qed.
End AlignTonesMore.

Lemma align_tones_restores_witness :
  ∃ out, __align_tones ["!"; "?"; ","; "."] ["."; "w"; "a"; ","; "o"; "."]
                       [("w", 0); ("a", 1); ("o", 1)] = OK out ∧
         filter (λ pt, pt.1 ∉ ["!"; "?"; ","; "."]) out
         = [("w", 0); ("a", 1); ("o", 1)].
Proof.
  destruct (align_tones_restores ["!"; "?"; ","; "."]
              ["."; "w"; "a"; ","; "o"; "."]
              [("w", 0); ("a", 1); ("o", 1)] eq_refl)
    as (out & H1 & _ & H2 & _).
  exists out. split; [exact H1 | exact H2].
Defined.

(** ** [__fix_phone_tone]: phonemes and idempotence *)

Lemma fix_phone_tone_phones (l out : list (string * Z)) :
  __fix_phone_tone l = OK out → out.*1 = l.*1.
Proof.
  unfold __fix_phone_tone.
  destruct (decide (size (tone_values l) = 1%nat)).
  - destruct (bool_decide (tone_values l = {[0]})); [|discriminate].
    by intros [= <-].
  - destruct (decide (size (tone_values l) = 2%nat)); [|discriminate].
    destruct (decide (tone_values l = {[0; 1]})); [by intros [= <-]|].
    destruct (decide (tone_values l = {[-1; 0]})); [|discriminate].
    intros [= <-]. rewrite fix_phone_tone_shift.
    clear. induction l as [|[p t] l IH]; simpl; [done | by f_equal].
Qed.

Lemma tone_values_shift (l : list (string * Z)) :
  tone_values l = {[-1; 0]} → tone_values (map shift_tone l) = {[0; 1]}.
Proof.
  unfold tone_values. intros H. apply set_eq. intros t.
  rewrite elem_of_list_to_set, list_elem_of_fmap.
  assert (Hin : ∀ x, x ∈ l.*2 ↔ x = -1 ∨ x = 0).
  { intros x. rewrite <- (elem_of_list_to_set (C := gset Z)), H.
    clear. set_solver. }
  split.
  - intros ([p t'] & -> & Hpt).
    apply list_elem_of_fmap in Hpt as ([p0 t0] & [= -> ->] & Hpt).
    simpl. destruct (decide (t0 = -1)); set_solver.
  - intros Ht.
    assert (Hpick : ∀ x, x ∈ l.*2 →
              ∃ y, (if decide (x = -1) then 0 else 1) = y.2 ∧
                   y ∈ map shift_tone l).
    { intros x Hx. apply list_elem_of_fmap in Hx as ([p0 t0] & -> & Hx).
      exists (shift_tone (p0, t0)). split; [done|].
      apply list_elem_of_fmap. eauto. }
    apply elem_of_union in Ht as [Ht|Ht]; apply elem_of_singleton in Ht;
      subst t.
    + destruct (Hpick (-1)) as (y & Hy & Hyin); [apply Hin; auto|].
      exists y. split; [exact Hy | exact Hyin].
    + destruct (Hpick 0) as (y & Hy & Hyin); [apply Hin; auto|].
      exists y. split; [exact Hy | exact Hyin].
Qed.

(** X5. A buffer that [__fix_phone_tone] returns has the phonemes of its
    input, in order, and is returned unchanged when normalized again. *)
Theorem fix_phone_tone_idempotent (l out : list (string * Z))
    (Hok : __fix_phone_tone l = OK out) :
  out.*1 = l.*1 ∧ __fix_phone_tone out = OK out.
Proof.
  split; [by apply fix_phone_tone_phones|].
  revert Hok. unfold __fix_phone_tone at 1.
  destruct (decide (size (tone_values l) = 1%nat)).
  - destruct (bool_decide (tone_values l = {[0]})) eqn:E; [|discriminate].
    apply bool_decide_eq_true_1 in E. intros [= <-].
    unfold __fix_phone_tone. rewrite E. reflexivity.
  - destruct (decide (size (tone_values l) = 2%nat)); [|discriminate].
    destruct (decide (tone_values l = {[0; 1]})) as [E|_].
    + intros [= <-]. unfold __fix_phone_tone. rewrite E. reflexivity.
    + destruct (decide (tone_values l = {[-1; 0]})) as [E|]; [|discriminate].
      intros [= <-]. rewrite fix_phone_tone_shift.
      unfold __fix_phone_tone. rewrite (tone_values_shift _ E). reflexivity.
Qed.

Lemma fix_phone_tone_idempotent_witness :
  __fix_phone_tone [("a", 1); ("i", 0); ("u", 0)]
  = OK [("a", 1); ("i", 0); ("u", 0)].
Proof.
  apply (fix_phone_tone_idempotent [("a", 0); ("i", -1); ("u", -1)]).
  reflexivity.
Defined.

(** ** [__g2phone_tone_wo_punct]: the phonemes it keeps *)

(** Membership in a list given by its elements. *)
Ltac by_elem :=
  repeat first [apply list_elem_of_here | apply list_elem_of_further].

Lemma for_each_snoc {A S : Type} (l : list A) (x : A)
    (body : S → A → result S) (s : S) :
  for_each (l ++ [x]) body s = (s' ← for_each l body s; body s' x).
Proof.
  revert s. induction l as [|a l IH]; intros s; simpl.
  - by destruct (body s x).
  - destruct (body s a); simpl; [apply IH | done].
Qed.

Lemma phonemes_of_prosodies_snoc (pre : list string) (x : string) :
  phonemes_of_prosodies (pre ++ [x])
  = phonemes_of_prosodies pre
    ++ (if decide (x ∈ prosody_marks) then []
        else [if decide (x = "cl") then "q" else x]).
Proof.
  unfold phonemes_of_prosodies. rewrite filter_app, map_app. f_equal.
  destruct (decide (x ∈ prosody_marks)).
  - rewrite filter_cons_False by (intros H; by apply H). done.
  - rewrite filter_cons_True by done. done.
Qed.

(** The loop invariant: the phonemes flushed so far and those of the open
    phrase are the phonemes read so far; after a boundary symbol the open
    phrase is empty. *)
Lemma tone_loop_phones (P pre : list string)
    (st : list (string * Z) * list (string * Z) * Z) :
  for_each (imap (λ i letter, (i, letter)) pre) (tone_step P) ([], [], 0)
  = OK st →
  st.1.1.*1 ++ st.1.2.*1 = phonemes_of_prosodies pre ∧
  (∀ x, last pre = Some x → x ∈ phrase_boundaries → st.1.2 = []).
Proof.
  revert st. induction pre as [|x pre IH] using rev_ind; intros st.
  - simpl. intros [= <-]. split; [done | discriminate].
  - rewrite imap_app. simpl. rewrite for_each_snoc. intros H.
    apply bind_OK in H as ([[res cur] tone] & Hpre & H).
    destruct (IH _ Hpre) as [Hph _]. simpl in Hph.
    rewrite phonemes_of_prosodies_snoc, <- Hph. clear IH Hpre Hph.
    unfold tone_step in H. rewrite Nat.add_0_r in H.
    assert (Hlast : ∀ y, last (pre ++ [x]) = Some y → y = x).
    { intros y. rewrite last_snoc. congruence. }
    destruct (decide (x = "^")) as [->|H1].
    { inv_bind H. injection H as <-. simpl.
      rewrite ?app_nil_r. split; [done|].
      intros y Hy Hb. apply Hlast in Hy as ->.
      exfalso. unfold phrase_boundaries in Hb.
      repeat (apply elem_of_cons in Hb as [Hb|Hb]; [discriminate|]).
      by apply elem_of_nil in Hb. }
    destruct (str_in x ["$"; "?"; "_"; "#"]) eqn:Hb.
    { apply bool_decide_eq_true_1 in Hb.
      apply bind_OK in H as (fixed & Hfix & H). inv_bind H.
      injection H as <-. simpl.
      rewrite decide_True
        by (change prosody_marks
              with ("^" :: phrase_boundaries ++ ["["; "]"]);
            apply list_elem_of_further, elem_of_app; by left).
      rewrite fmap_app, (fix_phone_tone_phones _ _ Hfix), !app_nil_r.
      done. }
    apply bool_decide_eq_false_1 in Hb.
    assert (Hnb : ∀ y, last (pre ++ [x]) = Some y → y ∈ phrase_boundaries →
              False).
    { intros y Hy Hyb. apply Hlast in Hy as ->. by apply Hb. }
    destruct (decide (x = "[")) as [->|H2].
    { injection H as <-. simpl.
      rewrite ?app_nil_r. split; [done|]. intros y Hy Hyb.
      by destruct (Hnb y). }
    destruct (decide (x = "]")) as [->|H3].
    { injection H as <-. simpl.
      rewrite ?app_nil_r. split; [done|]. intros y Hy Hyb.
      by destruct (Hnb y). }
    injection H as <-. simpl.
    destruct (decide (x ∈ prosody_marks)) as [Hin|_].
    { exfalso. unfold prosody_marks in Hin.
      apply elem_of_cons in Hin as [Hin|Hin]; [done|].
      do 4 (apply elem_of_cons in Hin as [Hin|Hin];
            [apply Hb; subst x; by_elem|]).
      apply elem_of_cons in Hin as [Hin|Hin]; [done|].
      apply elem_of_cons in Hin as [Hin|Hin]; [done|].
      by apply elem_of_nil in Hin. }
    rewrite fmap_app, app_assoc. simpl. split; [done|].
    intros y Hy Hyb. by destruct (Hnb y).
Qed.

(** The open phrase: after the last phrase boundary read, it holds the
    phonemes read since. *)
Lemma tone_loop_open_phrase (P pre post : list string)
    (st : list (string * Z) * list (string * Z) * Z) :
  (pre = [] ∨ ∃ x, last pre = Some x ∧ x ∈ phrase_boundaries) →
  Forall (λ x, x ∉ phrase_boundaries) post →
  for_each (imap (λ i letter, (i, letter)) (pre ++ post)) (tone_step P)
           ([], [], 0)
  = OK st →
  st.1.2.*1 = phonemes_of_prosodies post.
Proof.
  intros Hpre. revert st.
  induction post as [|x post IH] using rev_ind; intros st Hpost H.
  - rewrite app_nil_r in H. destruct Hpre as [->|(x & Hx & Hb)].
    + simpl in H. by injection H as <-.
    + destruct (tone_loop_phones _ _ _ H) as [_ Hflush].
      by rewrite (Hflush x Hx Hb).
  - apply Forall_app in Hpost as [Hpost Hx].
    apply Forall_cons in Hx as [Hx _].
    rewrite app_assoc, imap_app in H. simpl in H.
    rewrite for_each_snoc in H.
    apply bind_OK in H as ([[res cur] tone] & Hloop & H).
    specialize (IH _ Hpost Hloop). simpl in IH.
    rewrite phonemes_of_prosodies_snoc, <- IH. clear IH Hloop.
    unfold tone_step in H.
    destruct (decide (x = "^")) as [->|H1].
    { inv_bind H. injection H as <-. simpl. by rewrite app_nil_r. }
    destruct (str_in x ["$"; "?"; "_"; "#"]) eqn:Hb.
    { apply bool_decide_eq_true_1 in Hb. by destruct Hx. }
    apply bool_decide_eq_false_1 in Hb.
    destruct (decide (x = "[")) as [->|H2].
    { injection H as <-. simpl. by rewrite app_nil_r. }
    destruct (decide (x = "]")) as [->|H3].
    { injection H as <-. simpl. by rewrite app_nil_r. }
    injection H as <-. simpl.
    destruct (decide (x ∈ prosody_marks)) as [Hin|_].
    { exfalso. unfold prosody_marks in Hin.
      apply elem_of_cons in Hin as [Hin|Hin]; [done|].
      do 4 (apply elem_of_cons in Hin as [Hin|Hin];
            [apply Hb; subst x; by_elem|]).
      apply elem_of_cons in Hin as [Hin|Hin]; [done|].
      apply elem_of_cons in Hin as [Hin|Hin]; [done|].
      by apply elem_of_nil in Hin. }
    by rewrite fmap_app.
Qed.

(** X6. The phonemes that [__g2phone_tone_wo_punct] returns are, in order,
    a prefix of the phonemes among the prosody symbols ([cl] renamed to
    [q], every prosody mark removed); when the symbols end with a phrase
    boundary, they are all of them; and otherwise the phonemes after the
    last boundary are dropped: split the symbols after their last phrase
    boundary, and the phonemes returned are those of the first part. *)
Theorem g2phone_tone_phones (prosodies : list string)
    (out : list (string * Z))
    (Hok : g2phone_tone_of_prosodies prosodies = OK out) :
  out.*1 `prefix_of` phonemes_of_prosodies prosodies ∧
  (∀ x, last prosodies = Some x → x ∈ phrase_boundaries →
     out.*1 = phonemes_of_prosodies prosodies) ∧
  (∀ pre post,
     prosodies = pre ++ post →
     (pre = [] ∨ ∃ x, last pre = Some x ∧ x ∈ phrase_boundaries) →
     Forall (λ x, x ∉ phrase_boundaries) post →
     out.*1 = phonemes_of_prosodies pre).
Proof.
  unfold g2phone_tone_of_prosodies in Hok.
  apply bind_OK in Hok as (st & Hloop & Hok). injection Hok as <-.
  destruct (tone_loop_phones _ _ _ Hloop) as [Hph Hflush]. split_and!.
  - exists st.1.2.*1. by rewrite Hph.
  - intros x Hx Hb. rewrite (Hflush x Hx Hb) in Hph.
    by rewrite app_nil_r in Hph.
  - intros pre post -> Hpre Hpost.
    rewrite (tone_loop_open_phrase _ _ _ _ Hpre Hpost Hloop) in Hph.
    unfold phonemes_of_prosodies in Hph at 2.
    rewrite filter_app, map_app in Hph.
    by apply app_inv_tail in Hph.
Qed.

Lemma g2phone_tone_phones_witness :
  g2phone_tone_of_prosodies ["^"; "k"; "o"; "["; "cl"; "a"; "$"]
  = OK [("k", 0); ("o", 0); ("q", 1); ("a", 1)] ∧
  [("k", 0); ("o", 0); ("q", 1); ("a", 1)].*1
  = phonemes_of_prosodies ["^"; "k"; "o"; "["; "cl"; "a"; "$"] ∧
  g2phone_tone_of_prosodies ["^"; "k"; "o"; "#"; "a"]
  = OK [("k", 0); ("o", 0)] ∧
  [("k", 0); ("o", 0)].*1 = phonemes_of_prosodies ["^"; "k"; "o"; "#"].
Proof.
  assert (H : g2phone_tone_of_prosodies ["^"; "k"; "o"; "["; "cl"; "a"; "$"]
              = OK [("k", 0); ("o", 0); ("q", 1); ("a", 1)]) by reflexivity.
  assert (H' : g2phone_tone_of_prosodies ["^"; "k"; "o"; "#"; "a"]
               = OK [("k", 0); ("o", 0)]) by reflexivity.
  split; [exact H|]. split.
  { apply (proj1 (proj2 (g2phone_tone_phones _ _ H)) "$"); [reflexivity|].
    unfold phrase_boundaries. by_elem. }
  split; [exact H'|].
  apply (proj2 (proj2 (g2phone_tone_phones _ _ H'))
           ["^"; "k"; "o"; "#"] ["a"]); [reflexivity| |].
  - right. exists "#". split; [reflexivity|].
    unfold phrase_boundaries. by_elem.
  - repeat constructor. unfold phrase_boundaries. intros Hin.
    repeat (apply elem_of_cons in Hin as [Hin|Hin]; [discriminate|]).
    by apply elem_of_nil in Hin.
Defined.

(** ** [__pyopenjtalk_g2p_prosody]: where labels may stand *)

Lemma prefix_chars (s t : string) :
  String.prefix s t = true →
  ∀ a, a ∈ list_ascii_of_string s → a ∈ list_ascii_of_string t.
Proof.
  revert t. induction s as [|c s IH]; intros t H a Ha; [inversion Ha|].
  destruct t as [|d t]; [discriminate|]. simpl in H.
  destruct (ascii_dec c d) as [->|]; [|discriminate].
  simpl in *. apply elem_of_cons in Ha as [->|Ha];
    [apply list_elem_of_here | apply list_elem_of_further; eauto].
Qed.

Lemma is_substring_chars (s t : string) :
  is_substring s t = true →
  ∀ a, a ∈ list_ascii_of_string s → a ∈ list_ascii_of_string t.
Proof.
  induction t as [|d t IH]; intros H a Ha.
  - simpl in H. rewrite orb_false_r in H. by eapply prefix_chars.
  - cbn [is_substring] in H. apply orb_true_iff in H as [H|H].
    + by eapply prefix_chars.
    + simpl. apply list_elem_of_further. by apply IH.
Qed.

(** Lowering a substring of ["AEIOU"] gives lower-case vowels only. *)
Lemma lower_vowels_chars (s : string) :
  is_substring s "AEIOU" = true →
  ∀ a, a ∈ list_ascii_of_string (lower_vowels s) →
       a ∈ list_ascii_of_string "aeiou".
Proof.
  intros H a. unfold lower_vowels.
  rewrite list_ascii_of_string_of_list_ascii.
  intros Ha. apply list_elem_of_fmap in Ha as (c & -> & Hc).
  apply (is_substring_chars _ _ H) in Hc. simpl in Hc.
  repeat (apply elem_of_cons in Hc as [->|Hc]; [vm_compute; by_elem|]).
  by apply elem_of_nil in Hc.
Qed.

(** No element of a list given by its elements is equal to the one
    looked for. *)
Ltac no_elem H :=
  simpl in H;
  repeat (apply elem_of_cons in H as [H|H]; [discriminate|]);
  by apply elem_of_nil in H.

(** The phoneme of a label as [prosody_step] reads it. *)
Lemma lowered_sil_pau (drop_unvoiced_vowels : bool) (p : string) :
  let p' := if drop_unvoiced_vowels && is_substring p "AEIOU"
            then lower_vowels p else p in
  (p' = "sil" ↔ p = "sil") ∧ (p' = "pau" ↔ p = "pau").
Proof.
  cbv zeta. destruct (drop_unvoiced_vowels && is_substring p "AEIOU") eqn:E.
  - apply andb_true_iff in E as [_ E].
    assert (Hs : ∀ a, a ∈ list_ascii_of_string p →
                      a ∈ list_ascii_of_string "AEIOU")
      by (by apply is_substring_chars).
    pose proof (lower_vowels_chars _ E) as Hl.
    split; split; intros Heq; exfalso.
    + specialize (Hl "s"%char). rewrite Heq in Hl.
      specialize (Hl ltac:(simpl; by_elem)). no_elem Hl.
    + specialize (Hs "s"%char). rewrite Heq in Hs.
      specialize (Hs ltac:(simpl; by_elem)). no_elem Hs.
    + specialize (Hl "p"%char). rewrite Heq in Hl.
      specialize (Hl ltac:(simpl; by_elem)). no_elem Hl.
    + specialize (Hs "p"%char). rewrite Heq in Hs.
      specialize (Hs ltac:(simpl; by_elem)). no_elem Hs.
  - done.
Qed.

Lemma for_each_steps {A S : Type} (l : list A) (body : S → A → result S)
    (s s' : S) :
  for_each l body s = OK s' →
  ∀ x, x ∈ l → ∃ s1 s2, body s1 x = OK s2.
Proof.
  revert s. induction l as [|a l IH]; intros s H x Hx; [inversion Hx|].
  simpl in H. apply bind_OK in H as (s1 & Hs1 & H).
  apply elem_of_cons in Hx as [->|Hx]; eauto.
Qed.

(** X7. When [__pyopenjtalk_g2p_prosody] succeeds, a silence label [sil]
    stands only first or last among the labels (anywhere else the
    assertion fails), and the last label is [sil] or [pau] (any other
    phoneme there reads the label after it and raises [IndexError]). *)
Theorem prosody_label_positions (labels : list Label)
    (drop_unvoiced_vowels : bool) (out : list string)
    (Hok : pyopenjtalk_g2p_prosody labels drop_unvoiced_vowels = OK out) :
  (∀ (n : nat) lab, labels !! n = Some lab → p3 lab = "sil" →
     n = 0%nat ∨ n = (length labels - 1)%nat) ∧
  (∀ lab, last labels = Some lab → p3 lab = "sil" ∨ p3 lab = "pau").
Proof.
  unfold pyopenjtalk_g2p_prosody in Hok.
  pose proof (for_each_steps _ _ _ _ Hok) as Hsteps.
  assert (Hstep : ∀ (n : nat) lab, labels !! n = Some lab →
            ∃ s1 s2, prosody_step labels drop_unvoiced_vowels s1 n = OK s2).
  { intros n lab Hn. apply Hsteps. apply elem_of_seq.
    apply lookup_lt_Some in Hn. lia. }
  split.
  - intros n lab Hn Hsil. destruct (Hstep n lab Hn) as (s1 & s2 & H).
    unfold prosody_step in H. rewrite Hn in H.
    destruct (lowered_sil_pau drop_unvoiced_vowels (p3 lab)) as [Hs _].
    cbv zeta in Hs. rewrite decide_True in H by (by apply Hs).
    apply bind_OK in H as ([] & Hassert & _).
    unfold py_assert in Hassert. case_bool_decide; [done | discriminate].
  - intros lab Hlast. rewrite last_lookup in Hlast.
    destruct (Hstep _ lab Hlast) as (s1 & s2 & H).
    unfold prosody_step in H. rewrite Hlast in H.
    destruct (lowered_sil_pau drop_unvoiced_vowels (p3 lab)) as [Hs Hp].
    cbv zeta in Hs, Hp.
    destruct (decide (_ = "sil")) as [E|_]; [left; by apply Hs|].
    destruct (decide (_ = "pau")) as [E|_]; [right; by apply Hp|].
    rewrite lookup_ge_None_2 in H; [discriminate|].
    destruct labels; simpl in *; [discriminate | lia].
Qed.

Lemma prosody_label_positions_witness :
  pyopenjtalk_g2p_prosody (sample_make_label "ア") true
  = OK ["^"; "a"; "$"] ∧
  (p3 (mkLabel "sil" (-50) (-50) (-50) 0 (-50)) = "sil"
   ∨ p3 (mkLabel "sil" (-50) (-50) (-50) 0 (-50)) = "pau").
Proof.
  assert (H : pyopenjtalk_g2p_prosody (sample_make_label "ア") true
              = OK ["^"; "a"; "$"]) by reflexivity.
  split; [exact H|].
  apply (proj2 (prosody_label_positions _ _ _ H)). reflexivity.
Defined.

(** X8. With [drop_unvoiced_vowels] set, no unvoiced vowel [A], [I], [U],
    [E], [O] is left among the symbols that
    [__pyopenjtalk_g2p_prosody] returns. *)
Theorem prosody_no_unvoiced_vowel (labels : list Label) (out : list string)
    (Hok : pyopenjtalk_g2p_prosody labels true = OK out) :
  Forall (λ s, s ∉ ["A"; "E"; "I"; "O"; "U"]) out.
Proof.
  set (upper := ["A"; "E"; "I"; "O"; "U"]).
  assert (Hmark : ∀ l s, Forall (λ s, s ∉ upper) l → s ∉ upper →
            Forall (λ s, s ∉ upper) (l ++ [s])).
  { intros l s Hl Hs. apply Forall_app. split; [done|]. by constructor. }
  assert (Hsym : ∀ s, s ∈ ["^"; "$"; "?"; "_"; "#"; "]"; "["] → s ∉ upper).
  { intros s Hs Hu.
    repeat (apply elem_of_cons in Hs as [->|Hs];
            [repeat (apply elem_of_cons in Hu as [Hu|Hu]; [discriminate|]);
             by apply elem_of_nil in Hu|]).
    by apply elem_of_nil in Hs. }
  assert (Hp3 : ∀ p, (if true && is_substring p "AEIOU"
                      then lower_vowels p else p) ∉ upper).
  { intros p Hu. cbn [andb] in Hu. destruct (is_substring p "AEIOU") eqn:E.
    - pose proof (lower_vowels_chars _ E) as Hl.
      repeat (apply elem_of_cons in Hu as [Hu|Hu];
              [rewrite Hu in Hl;
               match type of Hu with _ = String ?c _ =>
                 specialize (Hl c ltac:(simpl; by_elem)) end;
               simpl in Hl;
               repeat (apply elem_of_cons in Hl as [Hl|Hl]; [discriminate|]);
               by apply elem_of_nil in Hl|]).
      by apply elem_of_nil in Hu.
    - repeat (apply elem_of_cons in Hu as [Hu|Hu];
              [rewrite Hu in E; discriminate|]).
      by apply elem_of_nil in Hu. }
  unfold pyopenjtalk_g2p_prosody in Hok.
  eapply (for_each_inv (Forall (λ s, s ∉ upper))); [| |exact Hok];
    [constructor|].
  intros s n s' Hs. unfold prosody_step.
  destruct (labels !! n) as [lab|]; [|discriminate].
  specialize (Hp3 (p3 lab)).
  set (p := if true && is_substring (p3 lab) "AEIOU"
            then lower_vowels (p3 lab) else p3 lab) in *.
  clearbody p.
  destruct (decide (_ = "sil")).
  { intros H. inv_bind H.
    repeat (destruct (decide _); [injection H as <-; apply Hmark; [done|];
                                  apply Hsym; by_elem|]).
    by injection H as <-. }
  destruct (decide (_ = "pau")).
  { intros [= <-]. apply Hmark; [done|]. apply Hsym. by_elem. }
  destruct (labels !! S n) as [lab_next|]; [|discriminate].
  assert (Hph : Forall (λ s, s ∉ upper) (s ++ [p])) by (by apply Hmark).
  destruct (_ && _).
  { intros [= <-]. apply Hmark; [done|]. apply Hsym. by_elem. }
  repeat (destruct (decide _); [intros [= <-]; apply Hmark; [done|];
                                apply Hsym; by_elem|]).
  by intros [= <-].
Qed.

Lemma prosody_no_unvoiced_vowel_witness :
  pyopenjtalk_g2p_prosody
    [mkLabel "sil" (-50) (-50) (-50) (-50) (-50);
     mkLabel "U" 0 1 1 (-50) 1;
     mkLabel "sil" (-50) (-50) (-50) 0 (-50)] true
  = OK ["^"; "u"; "$"] ∧
  Forall (λ s, s ∉ ["A"; "E"; "I"; "O"; "U"]) ["^"; "u"; "$"].
Proof.
  assert (H : pyopenjtalk_g2p_prosody
                [mkLabel "sil" (-50) (-50) (-50) (-50) (-50);
                 mkLabel "U" 0 1 1 (-50) 1;
                 mkLabel "sil" (-50) (-50) (-50) 0 (-50)] true
              = OK ["^"; "u"; "$"]) by reflexivity.
  split; [exact H|]. exact (prosody_no_unvoiced_vowel _ _ H).
Defined.

(** ** [__handle_long]: shape, and what is left of the marks *)

Lemma for_each_rel {A S : Type} (R : S → S → Prop) (body : S → A → result S)
    (l : list A) (s s' : S) :
  (∀ s, R s s) → (∀ s1 s2 s3, R s1 s2 → R s2 s3 → R s1 s3) →
  (∀ s x s', body s x = OK s' → R s s') →
  for_each l body s = OK s' → R s s'.
Proof.
  intros Hrefl Htrans Hbody. revert s.
  induction l as [|x l IH]; intros s; simpl.
  - intros [= <-]. apply Hrefl.
  - intros H. inv_bind H. eauto.
Qed.

Lemma handle_long_at_length (word word' : list string) (j : nat) :
  handle_long_at word j = OK word' → length word' = length word.
Proof.
  unfold handle_long_at. destruct (decide _); [|by intros [= <-]].
  intros H. inv_bind H. inv_bind H. injection H as <-.
  by rewrite length_insert.
Qed.

Lemma handle_long_word_shape (VOWELS : list string)
    (sp sp' : list (list string)) (i : nat) :
  handle_long_word VOWELS sp i = OK sp' →
  Forall2 (λ w w', length w' = length w) sp sp'.
Proof.
  assert (Hrefl : ∀ l : list (list string),
            Forall2 (λ w w', length w' = length w) l l).
  { intros l. apply Forall2_same_length_lookup_2; [done|].
    intros k x y Hx Hy. congruence. }
  unfold handle_long_word. destruct (sp !! i) as [word|] eqn:Hi; [|discriminate].
  destruct (decide (length word = 0%nat)); [intros [= <-]; apply Hrefl|].
  intros H. apply bind_OK in H as (w1 & Hw1 & H).
  apply bind_OK in H as (w2 & Hw2 & H). injection H as <-.
  assert (H1 : length w1 = length word).
  { unfold handle_long_first in Hw1.
    destruct (decide (word !! 0%nat = Some long_mark)); [|by injection Hw1 as <-].
    destruct (decide (i ≠ 0%nat)).
    - inv_bind Hw1. inv_bind Hw1.
      destruct (str_in _ _); injection Hw1 as <-; by rewrite length_insert.
    - injection Hw1 as <-. by rewrite length_insert. }
  assert (H2 : length w2 = length w1).
  { destruct (str_in long_mark w1); [|by injection Hw2 as <-].
    eapply (for_each_rel (λ a b : list string, length b = length a));
      [done | congruence | | exact Hw2].
    intros s x s'. apply handle_long_at_length. }
  apply Forall2_same_length_lookup_2; [by rewrite length_insert|].
  intros k x y Hx Hy. destruct (decide (k = i)) as [->|Hne].
  - rewrite list_lookup_insert_eq in Hy by (by eapply lookup_lt_Some).
    injection Hy as <-. rewrite Hi in Hx. injection Hx as <-. congruence.
  - rewrite list_lookup_insert_ne in Hy by done. congruence.
Qed.

(** X9. [__handle_long] keeps the shape of its input: the same number of
    words, and in every word the same number of symbols. *)
Theorem handle_long_shape (VOWELS : list string)
    (sep_phonemes out : list (list string))
    (Hok : __handle_long VOWELS sep_phonemes = OK out) :
  length out = length sep_phonemes ∧
  Forall2 (λ word word', length word' = length word) sep_phonemes out ∧
  length (concat out) = length (concat sep_phonemes).
Proof.
  assert (H : Forall2 (λ w w', length w' = length w) sep_phonemes out).
  { unfold __handle_long in Hok.
    eapply (for_each_rel (Forall2 (λ w w' : list string,
                                     length w' = length w)));
      [| | |exact Hok].
    - intros l. apply Forall2_same_length_lookup_2; [done|].
      intros k x y Hx Hy. congruence.
    - intros l1 l2 l3 H12 H23.
      apply Forall2_same_length_lookup_2.
      { apply Forall2_length in H12, H23. congruence. }
      intros k x z Hx Hz.
      destruct (Forall2_lookup_l _ _ _ _ _ H12 Hx) as (y & Hy & Hxy).
      pose proof (Forall2_lookup_lr _ _ _ _ _ _ H23 Hy Hz). congruence.
    - intros s i s'. apply handle_long_word_shape. }
  split_and!; [symmetry; by eapply Forall2_length | done |].
  clear Hok. induction H as [|w w' l l' Hw _ IH]; simpl; [done|].
  rewrite !length_app. congruence.
Qed.

Lemma handle_long_shape_witness :
  __handle_long VOWELS_ja [["k"; "a"; "ー"]; ["ー"]] = OK [["k"; "a"; "a"]; ["a"]]
  ∧ length [["k"; "a"; "a"]; ["a"]] = length [["k"; "a"; "ー"]; ["ー"]].
Proof.
  assert (H : __handle_long VOWELS_ja [["k"; "a"; "ー"]; ["ー"]]
              = OK [["k"; "a"; "a"]; ["a"]]) by reflexivity.
  split; [exact H|]. exact (proj1 (handle_long_shape _ _ _ H)).
Defined.

Lemma handle_long_word_mark_free (VOWELS : list string)
    (sp : list (list string)) (i : nat) :
  Forall (λ w, long_mark ∉ w) sp → (i < length sp)%nat →
  handle_long_word VOWELS sp i = OK sp.
Proof.
  intros Hfree Hi. unfold handle_long_word.
  destruct (lookup_lt_is_Some_2 sp i Hi) as [word Hw]. rewrite Hw.
  destruct (decide (length word = 0%nat)); [done|].
  assert (Hno : long_mark ∉ word).
  { rewrite Forall_forall in Hfree. apply Hfree.
    by eapply list_elem_of_lookup_2. }
  unfold handle_long_first. rewrite decide_False.
  2:{ intros H0. apply Hno. by eapply list_elem_of_lookup_2. }
  simpl. unfold str_in. rewrite bool_decide_eq_false_2 by done. simpl.
  by rewrite list_insert_id.
Qed.

(** X10. On an input without elongation mark [__handle_long] is the
    identity. *)
Theorem handle_long_mark_free (VOWELS : list string)
    (sep_phonemes : list (list string))
    (Hfree : Forall (λ word, long_mark ∉ word) sep_phonemes) :
  __handle_long VOWELS sep_phonemes = OK sep_phonemes.
Proof.
  unfold __handle_long.
  assert (H : ∀ l : list nat, Forall (λ i, i < length sep_phonemes)%nat l →
            for_each l (handle_long_word VOWELS) sep_phonemes
            = OK sep_phonemes).
  { induction l as [|i l IH]; intros Hl; [done|].
    apply Forall_cons in Hl as [Hi Hl]. simpl.
    rewrite handle_long_word_mark_free by done. simpl. auto. }
  apply H. apply Forall_forall. intros i Hi. apply elem_of_seq in Hi. lia.
Qed.

Lemma handle_long_mark_free_witness :
  __handle_long VOWELS_ja [["k"; "a"]; ["."]] = OK [["k"; "a"]; ["."]].
Proof.
  apply (handle_long_mark_free VOWELS_ja).
  repeat constructor; intros Hin; no_elem Hin.
Defined.

Lemma py_chars_cons (a b : ascii) (s : string) :
  py_chars (String a (String b s))
  = if utf8_cont b then
      match py_chars (String b s) with
      | c :: cs => String a c :: cs
      | [] => [String a EmptyString]
      end
    else String a EmptyString :: py_chars (String b s).
Proof. reflexivity. Qed.

(** A character of a string is a string of one character. *)
Lemma py_chars_head (a : ascii) (s : string) :
  ∃ t cs, py_chars (String a s) = String a t :: cs ∧
          (∀ b, py_chars (String b t) = [String b t]) ∧
          Forall (λ c, py_chars c = [c]) cs.
Proof.
  revert a. induction s as [|b s IH]; intros a.
  - exists "", []. split_and!; [done | done | constructor].
  - destruct (IH b) as (t & cs & Hb & Ht & Hcs).
    rewrite py_chars_cons. destruct (utf8_cont b) eqn:Hcont.
    + rewrite Hb. exists (String b t), cs. split_and!; [done| |done].
      intros b'. rewrite py_chars_cons, Hcont. by rewrite (Ht b).
    + exists "", (py_chars (String b s)). split_and!; [done | done|].
      rewrite Hb. constructor; [apply (Ht b) | done].
Qed.

Lemma py_chars_single (s c : string) :
  c ∈ py_chars s → py_chars c = [c].
Proof.
  destruct s as [|a s]; [intros H; inversion H|].
  destruct (py_chars_head a s) as (t & cs & -> & Ht & Hcs).
  intros H. apply elem_of_cons in H as [->|H]; [apply (Ht a)|].
  rewrite Forall_forall in Hcs. by apply Hcs.
Qed.

(** A symbol whose last character is not the elongation mark; the mark
    itself is not such a symbol. *)
Lemma handle_long_not_mark (s : string) :
  last (py_chars s) ≠ Some long_mark → s ≠ long_mark.
Proof. intros H ->. by apply H. Qed.

Section HandleLongMore.
Context (VOWELS : list string).
Hypothesis Hmark : long_mark ∉ VOWELS.

Abbreviation plain s := (last (py_chars s) ≠ Some long_mark).

Lemma handle_long_as_words (sep_phonemes : list (list string)) :
  __handle_long VOWELS sep_phonemes = long_words VOWELS None sep_phonemes.
Proof.
  unfold __handle_long.
  pose proof (handle_long_loop VOWELS Hmark sep_phonemes []) as H.
  simpl in H. rewrite H. destruct (long_words VOWELS None sep_phonemes); done.
Qed.

Lemma long_rest_plain (p : string) (rest rest' : list string) :
  plain p → Forall (λ s, s ≠ long_mark → plain s) rest →
  long_rest p rest = OK rest' → Forall (λ s, plain s) rest'.
Proof.
  revert p rest'. induction rest as [|c rest IH]; intros p rest' Hp Hrest;
    simpl; [intros [= <-]; constructor|].
  apply Forall_cons in Hrest as [Hc Hrest].
  intros H. apply bind_OK in H as (c' & Hc' & H).
  apply bind_OK in H as (r & Hr & H). injection H as <-.
  assert (Hpl : plain c').
  { destruct (decide (c = long_mark)) as [->|Hne].
    - rewrite py_get_last in Hc'.
      destruct (last (py_chars p)) as [x|] eqn:Hl; [|discriminate].
      injection Hc' as ->.
      rewrite (py_chars_single p c') by (by apply last_Some_elem_of).
      simpl. intros [= ->]. by apply Hp.
    - injection Hc' as <-. by apply Hc. }
  constructor; [done|]. by eapply IH.
Qed.

Lemma long_words_plain (prev : option (list string))
    (sp out : list (list string)) :
  (∀ pw, prev = Some pw → Forall (λ s, plain s) pw) →
  Forall (Forall (λ s, s ≠ long_mark → plain s)) sp →
  long_words VOWELS prev sp = OK out →
  Forall (Forall (λ s, plain s)) out.
Proof.
  revert prev out. induction sp as [|w sp IH]; intros prev out Hprev Hsp;
    simpl; [intros [= <-]; constructor|].
  apply Forall_cons in Hsp as [Hw Hsp].
  intros H. apply bind_OK in H as (w' & Hw' & H).
  apply bind_OK in H as (r & Hr & H). injection H as <-.
  assert (Hpl : Forall (λ s, plain s) w').
  { destruct w as [|c rest]; [injection Hw' as <-; constructor|].
    apply Forall_cons in Hw as [Hc Hrest]. simpl in Hw'.
    apply bind_OK in Hw' as (c' & Hc' & Hw').
    apply bind_OK in Hw' as (rest' & Hrest' & Hw'). injection Hw' as <-.
    assert (Hplc : plain c').
    { unfold long_first in Hc'.
      destruct (decide (c = long_mark)) as [->|Hne];
        [|injection Hc' as <-; by apply Hc].
      destruct prev as [pw|]; [|injection Hc' as <-; discriminate].
      apply bind_OK in Hc' as (ph & Hph & Hc').
      destruct (str_in ph VOWELS); injection Hc' as <-; [|discriminate].
      specialize (Hprev pw eq_refl). rewrite Forall_forall in Hprev.
      apply Hprev. by eapply py_get_elem. }
    constructor; [done|]. by eapply long_rest_plain. }
  constructor; [done|].
  eapply IH; [|done|exact Hr]. by intros pw [= <-].
Qed.

(** X11. When no symbol of the input other than the elongation mark itself
    ends with the mark, the result of [__handle_long] has no elongation
    mark left, and a second pass returns it unchanged. *)
Theorem handle_long_no_mark (sep_phonemes out : list (list string))
    (Hsym : Forall (Forall (λ s, s ≠ long_mark →
                                 last (py_chars s) ≠ Some long_mark))
                   sep_phonemes)
    (Hok : __handle_long VOWELS sep_phonemes = OK out) :
  Forall (λ word, long_mark ∉ word) out ∧
  __handle_long VOWELS out = OK out.
Proof.
  rewrite handle_long_as_words in Hok.
  apply long_words_plain in Hok; [|discriminate|done].
  assert (Hfree : Forall (λ word, long_mark ∉ word) out).
  { eapply Forall_impl; [exact Hok|]. simpl. intros w Hw Hin.
    rewrite Forall_forall in Hw. by apply (handle_long_not_mark _ (Hw _ Hin)). }
  split; [done|]. by apply handle_long_mark_free.
Qed.
End HandleLongMore.

Lemma VOWELS_ja_no_mark : long_mark ∉ VOWELS_ja.
Proof. intros Hin. vm_compute in Hin. no_elem Hin. Qed.

Lemma handle_long_no_mark_witness :
  __handle_long VOWELS_ja [["k"; "a"; "ー"]; ["ー"; "ー"]]
  = OK [["k"; "a"; "a"]; ["a"; "a"]] ∧
  Forall (λ word, long_mark ∉ word) [["k"; "a"; "a"]; ["a"; "a"]].
Proof.
  assert (H : __handle_long VOWELS_ja [["k"; "a"; "ー"]; ["ー"; "ー"]]
              = OK [["k"; "a"; "a"]; ["a"; "a"]]) by reflexivity.
  split; [exact H|].
  refine (proj1 (handle_long_no_mark VOWELS_ja VOWELS_ja_no_mark _ _ _ H)).
  repeat constructor; intros Hne; vm_compute; try discriminate;
    by destruct Hne.
Defined.

(** ** [text_to_sep_kata]: words, readings and the two error modes *)

Section SepKataFacts.
Context (PUNCTUATIONS : list string).
Context (run_frontend : string → list (string * string)).

Lemma sep_kata_loop_words (raise_yomi_error : bool)
    (parsed : list (string * string)) (st st' : list string * list string) :
  for_each parsed (sep_kata_step PUNCTUATIONS raise_yomi_error) st = OK st' →
  st'.1 = st.1 ++ parsed.*1 ∧
  length st'.2 = (length st.2 + length parsed)%nat.
Proof.
  revert st. induction parsed as [|parts parsed IH]; intros st; simpl.
  - intros [= <-]. rewrite app_nil_r. split; [done | lia].
  - intros H. apply bind_OK in H as (st1 & Hstep & H).
    destruct (IH _ H) as [Hw Hk]. rewrite Hw, Hk.
    destruct st as [sep_text sep_kata0]. unfold sep_kata_step in Hstep.
    apply bind_OK in Hstep as ([] & _ & Hstep).
    apply bind_OK in Hstep as (yomi & _ & Hstep). injection Hstep as <-.
    simpl. rewrite <- app_assoc, length_app. simpl. split; [done | lia].
Qed.

(** X12. When [text_to_sep_kata] succeeds, the words it returns are the
    words of the front-end's parse, in order, and it returns exactly one
    reading per word. *)
Theorem text_to_sep_kata_words (norm_text : string) (raise_yomi_error : bool)
    (sep_text sep_kata0 : list string)
    (Hok : text_to_sep_kata PUNCTUATIONS run_frontend norm_text raise_yomi_error = OK (sep_text, sep_kata0)) :
  sep_text = (run_frontend norm_text).*1 ∧
  length sep_kata0 = length sep_text.
Proof.
  unfold text_to_sep_kata in Hok.
  destruct (sep_kata_loop_words _ _ _ _ Hok) as [Hw Hk]. simpl in Hw, Hk.
  subst sep_text. split; [done|]. by rewrite Hk, length_fmap.
Qed.

Lemma sep_kata_step_modes (st : list string * list string)
    (parts : string * string) :
  sep_kata_step PUNCTUATIONS true st parts
  = sep_kata_step PUNCTUATIONS false st parts
  ∨ (sep_kata_step PUNCTUATIONS true st parts = Raise YomiError).
Proof.
  destruct st as [sep_text sep_kata0]. unfold sep_kata_step.
  unfold py_assert.
  destruct (bool_decide (_ ≠ "")); simpl; [|by left].
  destruct (decide (_ = "、")); [|by left].
  destruct (negb _); [by right | by left].
Qed.

Lemma sep_kata_step_lenient (st : list string * list string)
    (parts : string * string) :
  sep_kata_step PUNCTUATIONS false st parts ≠ Raise YomiError.
Proof.
  destruct st as [sep_text sep_kata0]. unfold sep_kata_step, py_assert.
  destruct (bool_decide (_ ≠ "")); simpl; [|discriminate].
  destruct (decide (_ = "、")).
  - destruct (negb _); simpl; discriminate.
  - destruct (decide (_ = "？")); simpl; [|discriminate].
    destruct (bool_decide _); simpl; discriminate.
Qed.

(** X13. The two error modes of [text_to_sep_kata] differ only by
    [YomiError]: with [raise_yomi_error] set, the call either behaves as it
    does without it or raises [YomiError]; without it, [YomiError] is never
    raised. *)
Theorem text_to_sep_kata_modes (norm_text : string) :
  (text_to_sep_kata PUNCTUATIONS run_frontend norm_text true = text_to_sep_kata PUNCTUATIONS run_frontend norm_text false
   ∨ text_to_sep_kata PUNCTUATIONS run_frontend norm_text true = Raise YomiError) ∧
  text_to_sep_kata PUNCTUATIONS run_frontend norm_text false ≠ Raise YomiError.
Proof.
  unfold text_to_sep_kata. generalize (run_frontend norm_text).
  generalize (([], []) : list string * list string).
  intros st parsed. revert st.
  induction parsed as [|parts parsed IH]; intros st; simpl.
  - split; [by left | discriminate].
  - pose proof (sep_kata_step_lenient st parts) as Hlen.
    destruct (sep_kata_step_modes st parts) as [-> | ->]; [|split; [by right|]].
    + destruct (sep_kata_step PUNCTUATIONS false st parts) as [st1|e]; simpl.
      * apply IH.
      * split; [by left | congruence].
    + destruct (sep_kata_step PUNCTUATIONS false st parts) as [st1|e]; simpl.
      * apply IH.
      * congruence.
Qed.
End SepKataFacts.

Lemma text_to_sep_kata_words_witness :
  text_to_sep_kata PUNCTUATIONS_ja sample_run_frontend "ア" false
  = OK (["ア"], ["ア"]) ∧
  length ["ア"] = length ["ア"].
Proof.
  assert (H : text_to_sep_kata PUNCTUATIONS_ja sample_run_frontend "ア" false
              = OK (["ア"], ["ア"])) by reflexivity.
  split; [exact H|].
  exact (proj2 (text_to_sep_kata_words _ _ _ _ _ _ H)).
Defined.

(** ** [update_yomi] and [g2p]: phonemes, words and tokens *)

Lemma map_result_length {A B : Type} (f : A → result B) (l : list A)
    (l' : list B) :
  map_result f l = OK l' → length l' = length l.
Proof.
  revert l'. induction l as [|x l IH]; intros l'; simpl.
  - by intros [= <-].
  - intros H. inv_bind H. inv_bind H. injection H as <-. simpl.
    f_equal. eauto.
Qed.

Lemma distribute_phone_length (n_phone n_word : Z) (l : list Z) :
  __distribute_phone n_phone n_word = OK l → length l = Z.to_nat n_word.
Proof.
  unfold __distribute_phone. intros H.
  rewrite <- (length_replicate (Z.to_nat n_word) 0).
  revert H. generalize (replicate (Z.to_nat n_word) 0).
  induction (Z.to_nat n_phone) as [|n IH]; intros l0; simpl.
  - by intros [= <-].
  - intros H. apply bind_OK in H as (l1 & Hstep & H).
    rewrite (IH _ H). unfold distribute_step in Hstep.
    inv_bind Hstep. inv_bind Hstep. injection Hstep as <-.
    by rewrite length_insert.
Qed.

Lemma distribute_words_length (toks phs : list (list string)) (w0 w : list Z) :
  length toks = length phs →
  for_each (zip toks phs)
    (λ word2ph tp,
       d ← __distribute_phone (py_len tp.2) (py_len tp.1);
       OK (word2ph ++ d)) w0 = OK w →
  length w = (length w0 + length (concat toks))%nat.
Proof.
  revert phs w0. induction toks as [|t toks IH]; intros [|p phs] w0 Hlen;
    simpl in *; try discriminate.
  - intros [= <-]. lia.
  - intros H. apply bind_OK in H as (w1 & Hstep & H).
    apply bind_OK in Hstep as (d & Hd & Hstep). injection Hstep as <-.
    rewrite (IH phs _ ltac:(lia) H), !length_app.
    apply distribute_phone_length in Hd. unfold py_len in Hd.
    rewrite Nat2Z.id in Hd. lia.
Qed.

(** The last loop of the alternate pass pairs every phoneme with a tone. *)
Lemma pair_phones_loop (P A : list string) (n : nat)
    (out : list (string * Z)) :
  (n ≤ length P)%nat →
  for_each (seq 0 n)
    (λ new_phone_tone_list i,
       phone ← py_get P (Z.of_nat i);
       accent ← py_get A (Z.of_nat i);
       tone ← py_int accent;
       OK (new_phone_tone_list ++ [(phone, tone)])) [] = OK out →
  out.*1 = take n P.
Proof.
  revert out. induction n as [|n IH]; intros out Hn.
  - simpl. intros [= <-]. by rewrite take_0.
  - rewrite seq_S, for_each_snoc. simpl. intros H.
    apply bind_OK in H as (acc & Hacc & H).
    apply bind_OK in H as (phone & Hphone & H).
    apply bind_OK in H as (accent & _ & H).
    apply bind_OK in H as (tone & _ & H). injection H as <-.
    rewrite fmap_app, (IH acc) by (lia || done). simpl.
    destruct (lookup_lt_is_Some_2 P n ltac:(lia)) as [x Hx].
    rewrite (py_get_lookup _ _ _ Hx) in Hphone. injection Hphone as <-.
    by rewrite (take_S_r _ _ _ Hx).
Qed.

Section PipelineMore.
Context (PUNCTUATIONS : list string).
Context (VOWELS : list string).
Context (MORA : list (string * (option string * string))).
Context (run_frontend : string → list (string * string)).
Context (make_label : string → list Label).
Context (tokenize : string → list string).
Context (fugashi_sep_kata :
           string → result (list string * list string * list string * list string)).
Context (yomikata_patch : list string → list string → result (list string)).
Context (hougen_patch :
           list string → list string → list string → hougen →
           result (list string * list string)).
Context (keihan_patch :
           list string → list string → list string → result (list string)).

Abbreviation alternate' :=
  (alternate_pass PUNCTUATIONS VOWELS MORA fugashi_sep_kata yomikata_patch
                  hougen_patch keihan_patch).
Abbreviation update' :=
  (update_yomi PUNCTUATIONS VOWELS MORA fugashi_sep_kata yomikata_patch
               hougen_patch keihan_patch).
Abbreviation analyze' :=
  (g2p PUNCTUATIONS VOWELS MORA run_frontend make_label tokenize
       fugashi_sep_kata yomikata_patch hougen_patch keihan_patch).
Abbreviation kata' := (__kata_to_phoneme_list PUNCTUATIONS MORA).

Lemma alternate_pass_consistent sep_text use_yomikata hougen_mode
    nt nk nsp npw ntl :
  alternate' sep_text use_yomikata hougen_mode = OK (nt, nk, nsp, npw, ntl) →
  ntl.*1 = concat nsp ∧ npw = concat nsp ∧ length nsp = length nk ∧
  length ntl = length npw.
Proof.
  unfold alternate_pass. intros H.
  apply bind_OK in H as ([[[word_list kana_list] accent_list] pos_list] & _ & H).
  apply bind_OK in H as (kana_list' & _ & H).
  apply bind_OK in H as ([kana_list'' accent_list'] & _ & H).
  apply bind_OK in H as (accent_list'' & _ & H).
  apply bind_OK in H as (accent_hl_list & _ & H).
  apply bind_OK in H as (sp & Hsp & H).
  apply bind_OK in H as (sp' & Hsp' & H).
  apply bind_OK in H as ([] & _ & H).
  apply bind_OK in H as (out & Hout & H).
  injection H as <- <- <- <- <-.
  apply pair_phones_loop in Hout; [|done]. rewrite firstn_all in Hout.
  apply handle_long_shape in Hsp' as (Hlen & _ & _).
  apply map_result_length in Hsp.
  split_and!; [done | done | congruence|].
  by rewrite <- Hout, length_fmap.
Qed.

(** X14. [update_yomi] keeps phonemes, words and tones in step: when the
    tones it is given carry the phonemes of the words it is given, one
    phoneme list per reading, the same holds of what it returns, whichever
    of the two analyses it returns. *)
Theorem update_yomi_consistent (sep_text sep_kata : list string)
    (sep_phonemes : list (list string)) (phone_w_punct : list string)
    (phone_tone_list : list (string * Z)) (use_yomikata : bool)
    (hougen_mode : hougen)
    (sep_text' sep_kata' : list string) (sep_phonemes' : list (list string))
    (phone_tone_list' : list (string * Z))
    (Hphones : phone_tone_list.*1 = concat sep_phonemes)
    (Hwords : length sep_phonemes = length sep_kata)
    (Hok : update_yomi PUNCTUATIONS VOWELS MORA fugashi_sep_kata
                       yomikata_patch hougen_patch keihan_patch
                       sep_text sep_kata sep_phonemes phone_w_punct
                       phone_tone_list use_yomikata hougen_mode
           = OK (sep_text', sep_kata', sep_phonemes', phone_tone_list')) :
  phone_tone_list'.*1 = concat sep_phonemes' ∧
  length sep_phonemes' = length sep_kata'.
Proof.
  unfold update_yomi in Hok.
  apply bind_OK in Hok as ([[[[nt nk] nsp] npw] ntl] & Halt & Hok).
  apply alternate_pass_consistent in Halt as (H1 & _ & H2 & _).
  destruct (decide (hougen_mode = HougenStr "tokyo")).
  - destruct (decide _); injection Hok as <- <- <- <-; done.
  - injection Hok as <- <- <- <-. done.
Qed.

(** X15. Without [use_jp_extra], [g2p] returns what it returns with it,
    every phoneme [N] replaced by [n]: the same tones, the same word2ph,
    the same error; and no [N] is left among its phonemes. *)
Theorem g2p_jp_extra (norm_text : string)
    (raise_yomi_error use_unidic3 use_yomikata : bool) (hougen_mode : hougen) :
  let analyze :=
    g2p PUNCTUATIONS VOWELS MORA run_frontend make_label tokenize
        fugashi_sep_kata yomikata_patch hougen_patch keihan_patch norm_text in
  analyze false raise_yomi_error use_unidic3 use_yomikata hougen_mode
  = match analyze true raise_yomi_error use_unidic3 use_yomikata
                  hougen_mode with
    | OK (phones, tones, word2ph) =>
        OK (map (λ phone, if decide (phone ≠ "N") then phone else "n") phones,
            tones, word2ph)
    | Raise e => Raise e
    end ∧
  ∀ phones tones word2ph,
    analyze false raise_yomi_error use_unidic3 use_yomikata hougen_mode
    = OK (phones, tones, word2ph) →
    "N" ∉ phones.
Proof.
  cbv zeta.
  assert (Hrel : analyze' norm_text false raise_yomi_error use_unidic3
                   use_yomikata hougen_mode
    = match analyze' norm_text true raise_yomi_error use_unidic3 use_yomikata
                     hougen_mode with
      | OK (phones, tones, word2ph) =>
          OK (map (λ phone, if decide (phone ≠ "N") then phone else "n")
                  phones, tones, word2ph)
      | Raise e => Raise e
      end).
  { unfold g2p.
    destruct (__g2phone_tone_wo_punct _ _) as [wo|]; simpl; [|done].
    destruct (text_to_sep_kata _ _ _ _) as [[st sk]|]; simpl; [|done].
    destruct (map_result _ _) as [sp0|]; simpl; [|done].
    destruct (__handle_long _ _) as [sp|]; simpl; [|done].
    destruct (__align_tones _ _ _) as [ptl|]; simpl; [|done].
    destruct (if use_unidic3 then _ else _) as [[[[st' sk'] sp'] ptl']|];
      simpl; [|done].
    destruct (distribute_words _ _) as [w|]; simpl; [|done].
    destruct (py_assert _) as [[]|]; simpl; done. }
  split; [exact Hrel|].
  intros phones tones word2ph Hok. rewrite Hrel in Hok.
  destruct (analyze' _ true _ _ _ _) as [[[p t] w]|]; [|discriminate].
  injection Hok as <- _ _. intros Hin.
  apply list_elem_of_fmap in Hin as (ph & Hph & _).
  destruct (decide (ph ≠ "N")); [congruence | discriminate].
Qed.

(** The standard pass of [g2p], with its intermediate values. *)
Lemma g2p_standard_pass (norm_text : string)
    (use_jp_extra raise_yomi_error use_yomikata : bool)
    (hougen_mode : hougen)
    (phones : list string) (tones word2ph : list Z) :
  analyze' norm_text use_jp_extra raise_yomi_error false use_yomikata
           hougen_mode
  = OK (phones, tones, word2ph) →
  ∃ sep_text sep_kata sp0 sp ptl w,
    text_to_sep_kata PUNCTUATIONS run_frontend norm_text raise_yomi_error
    = OK (sep_text, sep_kata) ∧
    map_result kata' sep_kata = OK sp0 ∧
    __handle_long VOWELS sp0 = OK sp ∧
    ptl.*1 = concat sp ∧
    distribute_words (tokenize_words PUNCTUATIONS tokenize sep_text) sp
    = OK w ∧
    phones
    = (if use_jp_extra then ["_"] ++ concat sp ++ ["_"]
       else map (λ phone, if decide (phone ≠ "N") then phone else "n")
                (["_"] ++ concat sp ++ ["_"])) ∧
    tones = [0] ++ ptl.*2 ++ [0] ∧
    word2ph = [1] ++ w ++ [1].
Proof.
  unfold g2p. intros H.
  apply bind_OK in H as (wo & _ & H).
  apply bind_OK in H as ([sep_text sep_kata] & Hsk & H).
  apply bind_OK in H as (sp0 & Hsp0 & H).
  apply bind_OK in H as (sp & Hsp & H).
  apply bind_OK in H as (ptl & Hptl & H).
  cbn [mbind result_bind] in H.
  apply bind_OK in H as (w & Hw & H).
  apply bind_OK in H as ([] & _ & H).
  injection H as <- <- <-.
  rewrite align_tones_eq_spec in Hptl. apply align_spec_phones in Hptl.
  exists sep_text, sep_kata, sp0, sp, ptl, w.
  split_and!; try done.
  - rewrite !fmap_app. simpl. rewrite Hptl. by destruct use_jp_extra.
  - by rewrite !fmap_app.
Qed.

(** X16. In the standard pass ([use_unidic3] off) the phonemes that [g2p]
    returns are the phonemes of the readings of the words, in order,
    between the two boundary phonemes, every [N] written [n] when
    [use_jp_extra] is off: aligning the tones neither drops nor adds nor
    moves a phoneme. *)
Theorem g2p_standard_phones (norm_text : string)
    (use_jp_extra raise_yomi_error use_yomikata : bool)
    (hougen_mode : hougen)
    (phones : list string) (tones word2ph : list Z)
    (Hok : g2p PUNCTUATIONS VOWELS MORA run_frontend make_label tokenize
               fugashi_sep_kata yomikata_patch hougen_patch keihan_patch
               norm_text use_jp_extra raise_yomi_error false use_yomikata
               hougen_mode
           = OK (phones, tones, word2ph)) :
  ∃ sep_text sep_kata sp0 sp,
    text_to_sep_kata PUNCTUATIONS run_frontend norm_text raise_yomi_error
    = OK (sep_text, sep_kata) ∧
    map_result (__kata_to_phoneme_list PUNCTUATIONS MORA) sep_kata = OK sp0 ∧
    __handle_long VOWELS sp0 = OK sp ∧
    phones
    = (if use_jp_extra then ["_"] ++ concat sp ++ ["_"]
       else map (λ phone, if decide (phone ≠ "N") then phone else "n")
                (["_"] ++ concat sp ++ ["_"])).
Proof.
  apply g2p_standard_pass in Hok
    as (sep_text & sep_kata & sp0 & sp & ptl & w & H1 & H2 & H3 & _ & _ & H4 & _).
  exists sep_text, sep_kata, sp0, sp. done.
Qed.

(** X17. In the standard pass ([use_unidic3] off), whatever the other
    flags are, the word2ph that [g2p] returns has one entry per token of
    the words of the text (a punctuation word counting as one token), and
    the two boundary entries. *)
Theorem g2p_standard_word2ph_length (norm_text : string)
    (use_jp_extra raise_yomi_error use_yomikata : bool)
    (hougen_mode : hougen)
    (phones : list string) (tones word2ph : list Z)
    (Hok : g2p PUNCTUATIONS VOWELS MORA run_frontend make_label tokenize
               fugashi_sep_kata yomikata_patch hougen_patch keihan_patch
               norm_text use_jp_extra raise_yomi_error false use_yomikata
               hougen_mode
           = OK (phones, tones, word2ph)) :
  length word2ph
  = (2 + length (concat (tokenize_words PUNCTUATIONS tokenize
                           (run_frontend norm_text).*1)))%nat.
Proof.
  apply g2p_standard_pass in Hok
    as (sep_text & sep_kata & sp0 & sp & ptl & w
        & H1 & H2 & H3 & _ & H5 & _ & _ & ->).
  apply text_to_sep_kata_words in H1 as [-> Hlen].
  apply map_result_length in H2.
  apply handle_long_shape in H3 as (H3 & _ & _).
  unfold distribute_words in H5.
  apply distribute_words_length in H5.
  - rewrite !length_app, H5. simpl. lia.
  - unfold tokenize_words. rewrite length_map. congruence.
Qed.
End PipelineMore.

Lemma update_yomi_consistent_witness :
  sample_update_yomi ["ア"] ["ア"] [["a"]] ["a"] [("a", 0)] false HougenNone
  = OK (["ア"], ["ア"], [["a"]], [("a", 1)]) ∧
  [("a", 1)].*1 = concat [["a"]].
Proof.
  assert (H : sample_update_yomi ["ア"] ["ア"] [["a"]] ["a"] [("a", 0)] false
                HougenNone
              = OK (["ア"], ["ア"], [["a"]], [("a", 1)])) by reflexivity.
  split; [exact H|]. unfold sample_update_yomi in H.
  eapply proj1, update_yomi_consistent; [| |exact H]; reflexivity.
Defined.

Lemma g2p_standard_phones_witness :
  (sample_g2p "ア" true false false false HougenNone
   = OK (["_"; "a"; "_"], [0; 0; 0], [1; 1; 1]) ∧
   ∃ sp, __handle_long VOWELS_ja [["a"]] = OK sp ∧
         ["_"; "a"; "_"] = ["_"] ++ concat sp ++ ["_"]) ∧
  (sample_g2p "ア" false false false false HougenNone
   = OK (["_"; "a"; "_"], [0; 0; 0], [1; 1; 1]) ∧
   ∃ sp, __handle_long VOWELS_ja [["a"]] = OK sp ∧
         ["_"; "a"; "_"]
         = map (λ phone, if decide (phone ≠ "N") then phone else "n")
               (["_"] ++ concat sp ++ ["_"])).
Proof.
  assert (H : sample_g2p "ア" true false false false HougenNone
              = OK (["_"; "a"; "_"], [0; 0; 0], [1; 1; 1])) by reflexivity.
  assert (H' : sample_g2p "ア" false false false false HougenNone
               = OK (["_"; "a"; "_"], [0; 0; 0], [1; 1; 1])) by reflexivity.
  split.
  - split; [exact H|]. unfold sample_g2p in H.
    destruct (g2p_standard_phones _ _ _ _ _ _ _ _ _ _ _ _ _ _ _ _ _ _ H)
      as (st & sk & sp0 & sp & H1 & H2 & H3 & H4).
    exists sp. split; [|exact H4].
    vm_compute in H1. injection H1 as <- <-.
    vm_compute in H2. injection H2 as <-. exact H3.
  - split; [exact H'|]. unfold sample_g2p in H'.
    destruct (g2p_standard_phones _ _ _ _ _ _ _ _ _ _ _ _ _ _ _ _ _ _ H')
      as (st & sk & sp0 & sp & H1 & H2 & H3 & H4).
    exists sp. split; [|exact H4].
    vm_compute in H1. injection H1 as <- <-.
    vm_compute in H2. injection H2 as <-. exact H3.
Defined.

Lemma g2p_standard_word2ph_length_witness :
  sample_g2p "ア" true false false false HougenNone
  = OK (["_"; "a"; "_"], [0; 0; 0], [1; 1; 1]) ∧
  length [1; 1; 1]
  = (2 + length (concat (tokenize_words PUNCTUATIONS_ja sample_tokenize
                           (sample_run_frontend "ア").*1)))%nat.
Proof.
  assert (H : sample_g2p "ア" true false false false HougenNone
              = OK (["_"; "a"; "_"], [0; 0; 0], [1; 1; 1])) by reflexivity.
  split; [exact H|]. unfold sample_g2p in H.
  exact (g2p_standard_word2ph_length _ _ _ _ _ _ _ _ _ _ _ _ _ _ _ _ _ _ H).
Defined.

Lemma g2p_jp_extra_witness :
  sample_g2p "ア" false false false false HougenNone
  = OK (["_"; "a"; "_"], [0; 0; 0], [1; 1; 1]) ∧
  "N" ∉ ["_"; "a"; "_"].
Proof.
  assert (H : sample_g2p "ア" false false false false HougenNone
              = OK (["_"; "a"; "_"], [0; 0; 0], [1; 1; 1])) by reflexivity.
  split; [exact H|]. unfold sample_g2p in H.
  exact (proj2 (g2p_jp_extra _ _ _ _ _ _ _ _ _ _ _ _ _ _ _) _ _ _ H).
Defined.

(** ** [longest_common_subsequence]: the table and its trace *)

Lemma lcs_row_cell (x : string) (Y : list string) (prev : list nat)
    (left j : nat) (y : string) :
  length prev = S (length Y) → Y !! j = Some y →
  (left :: lcs_row x Y prev left) !! S j
  = Some (if decide (x = y) then S (default 0%nat (prev !! j))
          else Nat.max (default 0%nat (prev !! S j))
                       (default 0%nat
                          ((left :: lcs_row x Y prev left) !! j))).
Proof.
  revert prev left j. induction Y as [|y0 Y IH]; intros prev left j Hlen Hj;
    [done|].
  destruct prev as [|diag [|up prest]]; simpl in Hlen; try lia.
  destruct j as [|j].
  - simpl in Hj. injection Hj as ->. reflexivity.
  - simpl in Hj. cbn [lcs_row].
    change ((left :: ?v :: ?r) !! S (S j)) with ((v :: r) !! S j).
    rewrite (IH (up :: prest) _ j) by (simpl; (lia || done)).
    reflexivity.
Qed.

Lemma tbl_shift (r : list nat) (L : list (list nat)) (i j : nat) :
  tbl (r :: L) (S i) j = tbl L i j.
Proof. reflexivity. Qed.

Lemma lcs_rows_cell (X Y : list string) (prev : list nat) (i j : nat)
    (x y : string) :
  length prev = S (length Y) → X !! i = Some x → Y !! j = Some y →
  tbl (prev :: lcs_rows X Y prev) (S i) (S j)
  = if decide (x = y) then S (tbl (prev :: lcs_rows X Y prev) i j)
    else Nat.max (tbl (prev :: lcs_rows X Y prev) i (S j))
                 (tbl (prev :: lcs_rows X Y prev) (S i) j).
Proof.
  revert prev i. induction X as [|x0 X IH]; intros prev i Hlen Hi Hj; [done|].
  cbn [lcs_rows]. set (row := 0%nat :: lcs_row x0 Y prev 0).
  destruct i as [|i].
  - simpl in Hi. injection Hi as ->.
    pose proof (lcs_row_cell x Y prev 0 j y Hlen Hj) as Hc. fold row in Hc.
    change (tbl (prev :: row :: lcs_rows X Y row) 1 (S j))
      with (default 0%nat (row !! S j)).
    rewrite Hc. reflexivity.
  - simpl in Hi. rewrite !(tbl_shift prev).
    apply IH; [|done..]. unfold row. simpl. by rewrite lcs_row_length.
Qed.

Lemma lcs_rows_col0 (X Y : list string) (prev : list nat) (i : nat) :
  tbl (prev :: lcs_rows X Y prev) (S i) 0 = 0%nat.
Proof.
  revert prev i. induction X as [|x0 X IH]; intros prev i.
  - by destruct i.
  - destruct i as [|i]; [reflexivity|]. cbn [lcs_rows].
    rewrite tbl_shift. apply IH.
Qed.

Section LcsTable.
Context (X Y : list string).

Abbreviation L := (lcs_table X Y).

Lemma lcs_table_row0 (j : nat) : tbl L 0 j = 0%nat.
Proof.
  unfold lcs_table. rewrite tbl_row_0.
  destruct (replicate (S (length Y)) 0%nat !! j) eqn:E; [|done].
  apply lookup_replicate in E as [-> _]. done.
Qed.

Lemma lcs_table_col0 (i : nat) : tbl L i 0 = 0%nat.
Proof.
  destruct i as [|i]; [apply lcs_table_row0|]. apply lcs_rows_col0.
Qed.

Lemma lcs_table_cell (i j : nat) (x y : string) :
  X !! i = Some x → Y !! j = Some y →
  tbl L (S i) (S j)
  = if decide (x = y) then S (tbl L i j)
    else Nat.max (tbl L i (S j)) (tbl L (S i) j).
Proof. apply lcs_rows_cell. by rewrite length_replicate. Qed.

(** Neighbouring cells differ by at most one, and the table grows along
    both axes. *)
Lemma lcs_table_down (i : nat) :
  (i < length X)%nat →
  (∀ j, (j < length Y)%nat →
        (tbl L i j ≤ tbl L i (S j) ≤ S (tbl L i j))%nat) →
  ∀ j, (j ≤ length Y)%nat →
       (tbl L i j ≤ tbl L (S i) j ≤ S (tbl L i j))%nat.
Proof.
  intros Hi Hh. induction j as [|j IHj]; intros Hj.
  - rewrite !lcs_table_col0. lia.
  - destruct (lookup_lt_is_Some_2 X i Hi) as [x Hx].
    destruct (lookup_lt_is_Some_2 Y j ltac:(lia)) as [y Hy].
    rewrite (lcs_table_cell i j x y Hx Hy).
    specialize (Hh j ltac:(lia)). specialize (IHj ltac:(lia)).
    destruct (decide (x = y)); lia.
Qed.

Lemma lcs_table_steps (i : nat) :
  (i ≤ length X)%nat →
  (∀ j, (j < length Y)%nat →
        (tbl L i j ≤ tbl L i (S j) ≤ S (tbl L i j))%nat) ∧
  ((i < length X)%nat →
   ∀ j, (j ≤ length Y)%nat →
        (tbl L i j ≤ tbl L (S i) j ≤ S (tbl L i j))%nat).
Proof.
  induction i as [|i IH]; intros Hi.
  - assert (Hh : ∀ j, (j < length Y)%nat →
              (tbl L 0 j ≤ tbl L 0 (S j) ≤ S (tbl L 0 j))%nat).
    { intros j _. rewrite !lcs_table_row0. lia. }
    split; [done|]. intros Hi'. by apply lcs_table_down.
  - destruct (IH ltac:(lia)) as [Hh Hv]. specialize (Hv ltac:(lia)).
    assert (Hh' : ∀ j, (j < length Y)%nat →
              (tbl L (S i) j ≤ tbl L (S i) (S j) ≤ S (tbl L (S i) j))%nat).
    { intros j Hj.
      destruct (lookup_lt_is_Some_2 X i ltac:(lia)) as [x Hx].
      destruct (lookup_lt_is_Some_2 Y j Hj) as [y Hy].
      rewrite (lcs_table_cell i j x y Hx Hy).
      specialize (Hh j Hj). specialize (Hv j ltac:(lia)).
      destruct (decide (x = y)); lia. }
    split; [done|]. intros Hi'. by apply lcs_table_down.
Qed.

(** The trace from [(i, j)] has [L[i][j]] pairs. *)
Lemma lcs_trace_length (fuel i j : nat) :
  (i ≤ length X)%nat → (j ≤ length Y)%nat → (i + j ≤ fuel)%nat →
  length (lcs_trace fuel X Y L i j) = tbl L i j.
Proof.
  revert i j. induction fuel as [|fuel IH]; intros i j Hi Hj Hf.
  - assert (i = 0%nat) as -> by lia. simpl. by rewrite lcs_table_row0.
  - rewrite lcs_trace_unfold.
    destruct (decide (0 < i ∧ 0 < j)%nat) as [[Hi0 Hj0]|Hz].
    2:{ destruct i; [by rewrite lcs_table_row0|].
        destruct j; [by rewrite lcs_table_col0 | lia]. }
    destruct i as [|i]; [lia|]. destruct j as [|j]; [lia|].
    replace (S i - 1)%nat with i by lia. replace (S j - 1)%nat with j by lia.
    destruct (lookup_lt_is_Some_2 X i ltac:(lia)) as [x Hx].
    destruct (lookup_lt_is_Some_2 Y j ltac:(lia)) as [y Hy].
    rewrite (lcs_table_cell i j x y Hx Hy), Hx, Hy.
    destruct (decide (Some x = Some y)) as [E|E].
    + injection E as ->. destruct (decide (y = y)); [|done]. simpl.
      f_equal. apply IH; lia.
    + destruct (decide (x = y)) as [->|_]; [done|].
      destruct (decide (tbl L (S i) j ≤ tbl L i (S j))%nat).
      * rewrite IH by lia. lia.
      * rewrite IH by lia. lia.
Qed.

(** The pairs of the trace point at equal elements below [(i, j)], and
    decrease strictly in both components. *)
Lemma lcs_trace_sound (fuel i j : nat) :
  (i ≤ length X)%nat → (j ≤ length Y)%nat →
  (∀ (k : nat) p, lcs_trace fuel X Y L i j !! k = Some p →
     (p.1 < i)%nat ∧ (p.2 < j)%nat ∧
     ∃ s, X !! p.1 = Some s ∧ Y !! p.2 = Some s) ∧
  (∀ (a b : nat) p q, (a < b)%nat →
     lcs_trace fuel X Y L i j !! a = Some p →
     lcs_trace fuel X Y L i j !! b = Some q →
     (q.1 < p.1)%nat ∧ (q.2 < p.2)%nat).
Proof.
  revert i j. induction fuel as [|fuel IH]; intros i j Hi Hj.
  - simpl. split; intros; by simplify_eq.
  - rewrite lcs_trace_unfold.
    destruct (decide (0 < i ∧ 0 < j)%nat) as [[Hi0 Hj0]|Hz];
      [|split; intros; by simplify_eq].
    destruct i as [|i]; [lia|]. destruct j as [|j]; [lia|].
    replace (S i - 1)%nat with i by lia. replace (S j - 1)%nat with j by lia.
    destruct (lookup_lt_is_Some_2 X i ltac:(lia)) as [x Hx].
    destruct (lookup_lt_is_Some_2 Y j ltac:(lia)) as [y Hy].
    assert (Hweak : ∀ i' j', (i' ≤ S i)%nat → (j' ≤ S j)%nat →
              (i' ≤ length X)%nat → (j' ≤ length Y)%nat →
              (∀ (k : nat) p, lcs_trace fuel X Y L i' j' !! k = Some p →
                 (p.1 < S i)%nat ∧ (p.2 < S j)%nat ∧
                 ∃ s, X !! p.1 = Some s ∧ Y !! p.2 = Some s) ∧
              (∀ (a b : nat) p q, (a < b)%nat →
                 lcs_trace fuel X Y L i' j' !! a = Some p →
                 lcs_trace fuel X Y L i' j' !! b = Some q →
                 (q.1 < p.1)%nat ∧ (q.2 < p.2)%nat)).
    { intros i' j' Hi' Hj' Hi'' Hj''.
      destruct (IH i' j' Hi'' Hj'') as [H1 H2]. split; [|done].
      intros k p Hk. destruct (H1 k p Hk) as (? & ? & ?).
      split_and!; [lia | lia | done]. }
    destruct (decide (X !! i = Y !! j)) as [E|E].
    + rewrite Hx, Hy in E. injection E as ->.
      destruct (IH i j ltac:(lia) ltac:(lia)) as [H1 H2]. split.
      * intros [|k] p Hk; simpl in Hk.
        { injection Hk as <-. simpl. split_and!; [lia | lia | eauto]. }
        destruct (H1 k p Hk) as (? & ? & ?). split_and!; [lia | lia | done].
      * intros a b p q Hab Ha Hb. destruct b as [|b]; [lia|]. simpl in Hb.
        destruct a as [|a]; simpl in Ha.
        { injection Ha as <-. simpl. destruct (H1 b q Hb) as (? & ? & _). lia. }
        apply (H2 a b); [lia | done | done].
    + destruct (decide (tbl L (S i) j ≤ tbl L i (S j))%nat);
        apply Hweak; lia.
Qed.

(** No common subsequence within the first [i] elements of [X] and the
    first [j] of [Y] is longer than [L[i][j]]. *)
Lemma lcs_table_bound (n i j : nat) (ps : list (nat * nat)) :
  (i + j ≤ n)%nat → (i ≤ length X)%nat → (j ≤ length Y)%nat →
  common_subsequence X Y ps →
  (∀ (k : nat) p, ps !! k = Some p → (p.1 < i)%nat ∧ (p.2 < j)%nat) →
  (length ps ≤ tbl L i j)%nat.
Proof.
  revert i j ps. induction n as [|n IH]; intros i j ps Hn Hi Hj Hcs Hin.
  - destruct ps as [|p ps]; [simpl; lia|].
    destruct (Hin 0%nat p eq_refl). lia.
  - destruct ps as [|p0 ps0] using rev_ind; [simpl; lia|]. clear IHps0.
    set (ps := ps0 ++ [p0]) in *.
    assert (Hlast : ps !! length ps0 = Some p0).
    { unfold ps. rewrite lookup_app_r by lia. by rewrite Nat.sub_diag. }
    destruct (Hin _ _ Hlast) as [Hp1 Hp2].
    destruct i as [|i]; [lia|]. destruct j as [|j]; [lia|].
    destruct Hcs as [Heq Hinc].
    assert (Hcs0 : common_subsequence X Y ps0).
    { split.
      - intros k p Hk. apply (Heq k). unfold ps. by apply lookup_app_l_Some.
      - intros a b p q Hab Ha Hb.
        apply (Hinc a b); [done | |]; unfold ps; by apply lookup_app_l_Some. }
    assert (Hbelow : ∀ (k : nat) p, ps0 !! k = Some p →
              (p.1 < p0.1)%nat ∧ (p.2 < p0.2)%nat).
    { intros k p Hk. apply (Hinc k (length ps0)); [|unfold ps|done].
      - by eapply lookup_lt_Some.
      - by apply lookup_app_l_Some. }
    destruct (lookup_lt_is_Some_2 X i ltac:(lia)) as [x Hx].
    destruct (lookup_lt_is_Some_2 Y j ltac:(lia)) as [y Hy].
    rewrite (lcs_table_cell i j x y Hx Hy).
    assert (Hlen : length ps = S (length ps0))
      by (unfold ps; rewrite length_app; simpl; lia).
    destruct (decide (x = y)) as [->|Hne].
    + rewrite Hlen. apply le_n_S.
      apply (IH i j ps0); [lia | lia | lia | done|].
      intros k p Hk. destruct (Hbelow k p Hk). lia.
    + destruct (decide (p0.1 < i)%nat) as [Hlt|Hge].
      * etransitivity; [|apply Nat.le_max_l].
        apply (IH i (S j) ps); [lia | lia | lia | by split|].
        intros k p Hk. destruct (Hin k p Hk) as [_ ?]. split; [|done].
        unfold ps in Hk. apply lookup_app_Some in Hk as [Hk|[_ Hk]].
        -- destruct (Hbelow k p Hk). lia.
        -- apply list_lookup_singleton_Some in Hk as [_ <-]. done.
      * assert (Hp2' : (p0.2 < j)%nat).
        { destruct (decide (p0.2 < j)%nat); [done|]. exfalso.
          destruct (Heq _ _ Hlast) as (s & Hs1 & Hs2).
          replace p0.1 with i in Hs1 by lia.
          replace p0.2 with j in Hs2 by lia. congruence. }
        etransitivity; [|apply Nat.le_max_r].
        apply (IH (S i) j ps); [lia | lia | lia | by split|].
        intros k p Hk. destruct (Hin k p Hk) as [? _]. split; [done|].
        unfold ps in Hk. apply lookup_app_Some in Hk as [Hk|[_ Hk]].
        -- destruct (Hbelow k p Hk). lia.
        -- apply list_lookup_singleton_Some in Hk as [_ <-]. done.
Qed.
End LcsTable.

(** X18. [longest_common_subsequence] returns what its name says: index
    pairs that point at equal elements of the two lists and increase
    strictly in both components, as many of them as any such list of pairs
    can have. *)
Theorem longest_common_subsequence_longest (X Y : list string) :
  common_subsequence X Y (longest_common_subsequence X Y) ∧
  ∀ ps, common_subsequence X Y ps →
        (length ps ≤ length (longest_common_subsequence X Y))%nat.
Proof.
  unfold longest_common_subsequence.
  set (T := lcs_trace (length X + length Y) X Y (lcs_table X Y)
                      (length X) (length Y)).
  destruct (lcs_trace_sound X Y (length X + length Y) (length X) (length Y))
    as [Hs1 Hs2]; [done..|]. fold T in Hs1, Hs2.
  split; [split|].
  - intros k p Hk.
    assert (Hlt : (k < length T)%nat).
    { apply lookup_lt_Some in Hk. by rewrite length_reverse in Hk. }
    rewrite reverse_lookup in Hk by done.
    destruct (Hs1 _ _ Hk) as (_ & _ & ?). done.
  - intros a b p q Hab Ha Hb.
    assert (Hlt : (b < length T)%nat).
    { apply lookup_lt_Some in Hb. by rewrite length_reverse in Hb. }
    rewrite reverse_lookup in Ha, Hb by lia.
    apply (Hs2 (length T - S b)%nat (length T - S a)%nat); [lia | done..].
  - intros ps Hcs. rewrite length_reverse. unfold T.
    rewrite lcs_trace_length by done.
    apply (lcs_table_bound X Y (length X + length Y)); [done..|].
    intros k p Hk. destruct Hcs as [Heq _].
    destruct (Heq k p Hk) as (s & H1 & H2).
    split; by eapply lookup_lt_Some.
Qed.

Lemma longest_common_subsequence_longest_witness :
  common_subsequence ["a"; "b"; "c"] ["a"; "c"] [(0, 0); (2, 1)]%nat ∧
  (length [(0, 0); (2, 1)]%nat
   ≤ length (longest_common_subsequence ["a"; "b"; "c"] ["a"; "c"]))%nat.
Proof.
  assert (H : common_subsequence ["a"; "b"; "c"] ["a"; "c"]
                [(0, 0); (2, 1)]%nat).
  { split.
    - intros [|[|k]] p Hk; simplify_eq/=; eauto.
    - intros [|[|a]] [|[|b]] p q Hab Ha Hb; simplify_eq/=; lia. }
  split; [exact H|].
  exact (proj2 (longest_common_subsequence_longest _ _) _ H).
Defined.

(** ** [adjust_word2ph]: differences, length and totals *)

(** X19. [extract_differences] never raises: every difference that its
    last loop removes is in the list at that time; and no difference that
    it returns has both of its values empty. *)
Theorem extract_differences_total (generated_phone given_phone : list string) :
  ∃ differences,
    extract_differences generated_phone given_phone = OK differences ∧
    Forall (λ diff, value (generated diff) ≠ [] ∨ value (given diff) ≠ [])
           differences.
Proof.
  unfold extract_differences.
  destruct (foldl _ _ _) as [[differences prev_x] prev_y].
  rewrite prune_empty_filter. eexists. split; [reflexivity|].
  apply Forall_forall. intros d Hd.
  apply list_elem_of_filter in Hd as [Hd _].
  unfold not_both_empty, both_empty in Hd.
  apply andb_false_iff in Hd as [Hd|Hd]; apply bool_decide_eq_false_1 in Hd;
    [left | right]; intros E; apply Hd; by rewrite E.
Qed.

Lemma replay_phone_length (ds : list Diff) (idx : nat) (st : list Z * Z) :
  length (replay_phone ds idx st).1 = length st.1.
Proof.
  destruct st as [adj cur]. unfold replay_phone.
  destruct (find_diff ds cur); simpl; by rewrite ?length_alter.
Qed.

Lemma provisional_word2ph_length (ds : list Diff) (W : list Z) :
  length (provisional_word2ph ds W) = length W.
Proof.
  unfold provisional_word2ph.
  assert (H : ∀ (l : list (nat * Z)) (st : list Z * Z),
            length (foldl (replay_slot ds) st l).1 = length st.1).
  { induction l as [|ie l IH]; intros st; simpl; [done|].
    rewrite IH. unfold replay_slot.
    induction (Z.to_nat ie.2) as [|k IHk]; simpl; [done|].
    by rewrite replay_phone_length. }
  rewrite H. simpl. by rewrite length_replicate.
Qed.

Lemma sweep_low_length (a : list Z) : length (sweep_low a) = length a.
Proof.
  destruct (sweep_low_spec a) as (H & _ & _).
  symmetry. by eapply Forall2_length.
Qed.

Lemma sweep_high_length (a : list Z) : length (sweep_high a) = length a.
Proof.
  destruct (sweep_high_spec a) as (H & _ & _).
  symmetry. by eapply Forall2_length.
Qed.

(** X20. [adjust_word2ph] keeps the number of entries: a word2ph of two
    entries or more comes back with as many entries as it had. *)
Theorem adjust_word2ph_length (word2ph : list Z)
    (generated_phone given_phone : list string) (out : list Z)
    (Hlen : (2 ≤ length word2ph)%nat)
    (Hok : adjust_word2ph word2ph generated_phone given_phone = OK out) :
  length out = length word2ph.
Proof.
  unfold adjust_word2ph, adjusted_before_assert in Hok.
  apply bind_OK in Hok as (a & Ha & Hok).
  apply bind_OK in Ha as (ds & _ & Ha). injection Ha as <-.
  apply bind_OK in Hok as ([] & _ & Hok). injection Hok as <-.
  cbn [length]. rewrite length_app, sweep_high_length, sweep_low_length,
    provisional_word2ph_length.
  unfold py_slice, slice_bound.
  destruct (decide (1 < 0)); [lia|]. destruct (decide (-1 < 0)); [|lia].
  rewrite length_take, length_drop. simpl. lia.
Qed.

Lemma adjust_word2ph_length_witness :
  adjust_word2ph [1; 2; 3; 1] ["_"; "a"; "sh"; "i"; "t"; "a"; "_"]
                 ["_"; "a"; "s"; "u"; "_"] = OK [1; 1; 2; 1] ∧
  length [1; 1; 2; 1] = length [1; 2; 3; 1].
Proof.
  split; [reflexivity|].
  apply (adjust_word2ph_length [1; 2; 3; 1]
           ["_"; "a"; "sh"; "i"; "t"; "a"; "_"] ["_"; "a"; "s"; "u"; "_"]);
    [simpl; lia | reflexivity].
Defined.

(** The first sweep: while a shortfall [diff] is outstanding the total is
    the original total plus what is still to be repaid. *)
Lemma repay_shortfall_sum (idx : nat) (offsets : list nat) (a : list Z)
    (diff : Z) :
  0 < diff →
  py_sum a - diff ≤ py_sum (repay_shortfall idx offsets a diff).
Proof.
  revert a diff. induction offsets as [|i offsets IH]; intros a diff Hd;
    simpl; [lia|].
  destruct (a !! (idx + i)%nat) as [v|] eqn:Hv; [|lia].
  destruct (decide (v - diff >= 1)).
  - rewrite (py_sum_insert _ _ _ _ Hv). lia.
  - destruct (decide (diff - (v - 1) = 0)); [lia|].
    specialize (IH (<[(idx + i)%nat:=1]> a) (diff - (v - 1)) ltac:(lia)).
    rewrite (py_sum_insert _ _ _ _ Hv) in IH. lia.
Qed.

Lemma raise_slot_sum (a : list Z) (idx : nat) :
  py_sum a ≤ py_sum (raise_slot a idx).
Proof.
  unfold raise_slot. destruct (a !! idx) as [e|] eqn:He; [|lia].
  destruct (decide (e < 1)); [|lia].
  pose proof (repay_shortfall_sum idx (seq 1 (length a - 1)) (<[idx:=1]> a)
                (1 - e) ltac:(lia)) as H.
  rewrite (py_sum_insert _ _ _ _ He) in H. lia.
Qed.

Lemma push_surplus_sum (idx : nat) (offsets : list nat) (a : list Z)
    (diff : Z) :
  0 < diff →
  py_sum (push_surplus idx offsets a diff) ≤ py_sum a + diff.
Proof.
  revert a diff. induction offsets as [|i offsets IH]; intros a diff Hd;
    simpl; [lia|].
  destruct (a !! (idx + i)%nat) as [v|] eqn:Hv; [|lia].
  destruct (decide (v + diff <= 6)).
  - rewrite (py_sum_insert _ _ _ _ Hv). lia.
  - destruct (decide (diff - (6 - v) = 0)); [lia|].
    specialize (IH (<[(idx + i)%nat:=6]> a) (diff - (6 - v)) ltac:(lia)).
    rewrite (py_sum_insert _ _ _ _ Hv) in IH. lia.
Qed.

Lemma cap_slot_sum (a : list Z) (idx : nat) :
  py_sum (cap_slot a idx) ≤ py_sum a.
Proof.
  unfold cap_slot. destruct (a !! idx) as [e|] eqn:He; [|lia].
  destruct (decide (e > 6)); [|lia].
  pose proof (push_surplus_sum idx (seq 1 (length a - 1)) (<[idx:=6]> a)
                (e - 6) ltac:(lia)) as H.
  rewrite (py_sum_insert _ _ _ _ He) in H. lia.
Qed.

(** X21. The two sweeps of [adjust_word2ph] move phonemes in one direction
    only: raising the slots below 1 never lowers the total of the counts,
    and capping the slots above 6 never raises it. *)
Theorem adjust_word2ph_sweep_totals (a : list Z) :
  py_sum a ≤ py_sum (sweep_low a) ∧ py_sum (sweep_high a) ≤ py_sum a.
Proof.
  unfold sweep_low, sweep_high. split.
  - generalize (seq 0 (length a)). intros l. revert a.
    induction l as [|i l IH]; intros a; simpl; [lia|].
    pose proof (raise_slot_sum a i). specialize (IH (raise_slot a i)). lia.
  - generalize (seq 0 (length a)). intros l. revert a.
    induction l as [|i l IH]; intros a; simpl; [lia|].
    pose proof (cap_slot_sum a i). specialize (IH (cap_slot a i)). lia.
Qed.

(** ** [__keihan_patch] *)

Lemma acc_rewrite_spec (sep_acc out : list string) (i : nat)
    (old new : string) :
  acc_rewrite sep_acc i old new = OK out →
  ∃ cur, sep_acc !! i = Some cur ∧
         out = <[i := if decide (cur = old) then new else cur]> sep_acc.
Proof.
  unfold acc_rewrite. intros H. apply bind_OK in H as (cur & Hcur & H).
  injection H as <-.
  assert (Hi : sep_acc !! i = Some cur).
  { unfold py_get in Hcur. destruct (decide (Z.of_nat i < 0)); [lia|].
    destruct (decide (Z.of_nat i < 0)); [lia|]. rewrite Nat2Z.id in Hcur.
    destruct (sep_acc !! i); [by injection Hcur as -> | discriminate]. }
  exists cur. split; [done|].
  destruct (decide (cur = old)); [done|]. by rewrite list_insert_id.
Qed.

Lemma py_get_nat {A} (l : list A) (i : nat) (x : A) :
  py_get l (Z.of_nat i) = OK x → l !! i = Some x.
Proof.
  unfold py_get. destruct (decide (Z.of_nat i < 0)); [lia|].
  destruct (decide (Z.of_nat i < 0)); [lia|]. rewrite Nat2Z.id.
  destruct (l !! i); [by intros [= ->] | discriminate].
Qed.

Lemma acc_rewrite_two (a b : list string) (i : nat) (c1 n1 c2 n2 : string)
    (P : string → string → Prop) :
  (a' ← acc_rewrite a i c1 n1; acc_rewrite a' i c2 n2) = OK b →
  n1 ≠ c2 →
  (∀ cur, P cur cur) → (∀ cur, P cur n1) → (∀ cur, P cur n2) →
  ∃ cur new, a !! i = Some cur ∧ b = <[i := new]> a ∧ P cur new.
Proof.
  intros H Hn Hrefl H1 H2.
  apply bind_OK in H as (a' & Ha' & H).
  apply acc_rewrite_spec in Ha' as (cur & Hcur & ->).
  apply acc_rewrite_spec in H as (cur' & Hcur' & ->).
  rewrite list_lookup_insert_eq in Hcur' by (by eapply lookup_lt_Some).
  injection Hcur' as <-. rewrite list_insert_insert_eq.
  exists cur. eexists. split; [done|]. split; [done|].
  destruct (decide (cur = c1)) as [->|Hne1].
  - rewrite decide_False by done. apply H1.
  - destruct (decide (cur = c2)) as [->|Hne2]; [apply H2 | apply Hrefl].
Qed.

Lemma acc_rewrite_one (a b : list string) (i : nat) (c1 n1 : string)
    (P : string → string → Prop) :
  acc_rewrite a i c1 n1 = OK b →
  (∀ cur, P cur cur) → (∀ cur, P cur n1) →
  ∃ cur new, a !! i = Some cur ∧ b = <[i := new]> a ∧ P cur new.
Proof.
  intros H Hrefl H1.
  apply acc_rewrite_spec in H as (cur & Hcur & ->).
  exists cur. eexists. split; [done|]. split; [done|].
  destruct (decide (cur = c1)) as [->|]; [apply H1 | apply Hrefl].
Qed.

(** What a turn does to the accent list: only entry [i] may change, only
    for a noun, a verb or an adjective, and only to a code that the table
    names for the length of the reading. *)
Lemma keihan_step_spec (sep_kata sep_pos sep_acc out : list string)
    (i : nat) :
  keihan_step sep_kata sep_pos sep_acc i = OK out →
  ∃ pos, sep_pos !! i = Some pos ∧
    (pos = "名詞" →
       ∃ kana, sep_kata !! i = Some kana ∧ 2 ≤ py_len (py_chars kana)) ∧
    (out = sep_acc ∨
     (pos = "名詞" ∨ pos = "動詞" ∨ pos = "形容詞") ∧
     ∃ kana cur new, sep_kata !! i = Some kana ∧ sep_acc !! i = Some cur ∧
       out = <[i := new]> sep_acc ∧ (new = cur ∨ keihan_target kana new)).
Proof.
  unfold keihan_step. intros H.
  apply bind_OK in H as (pos & Hpos & H). apply py_get_nat in Hpos.
  exists pos. split; [done|].
  assert (Hfin : ∀ kana a b,
            sep_kata !! i = Some kana →
            (∃ cur new, a !! i = Some cur ∧ b = <[i := new]> a ∧
                        (new = cur ∨ keihan_target kana new)) →
            a = sep_acc → b = out →
            pos = "名詞" ∨ pos = "動詞" ∨ pos = "形容詞" →
            out = sep_acc ∨
            (pos = "名詞" ∨ pos = "動詞" ∨ pos = "形容詞") ∧
            ∃ kana cur new, sep_kata !! i = Some kana ∧
              sep_acc !! i = Some cur ∧
              out = <[i := new]> sep_acc ∧
              (new = cur ∨ keihan_target kana new)).
  { intros kana a b Hk (cur & new & Hc & Hb & HP) -> -> Hp3.
    right. split; [done|]. exists kana, cur, new. done. }
  destruct (decide (pos = "名詞")) as [->|Hn].
  { apply bind_OK in H as (kana & Hkana & H). apply py_get_nat in Hkana.
    apply bind_OK in H as (second & Hsecond & H).
    assert (Hlen : 2 ≤ py_len (py_chars kana)).
    { unfold py_get in Hsecond. destruct (decide (1 < 0)); [lia|].
      destruct (decide (1 < 0)); [lia|].
      destruct (py_chars kana !! Z.to_nat 1) eqn:E; [|discriminate].
      apply lookup_lt_Some in E. unfold py_len. lia. }
    split; [eauto|].
    destruct (decide (second = "ー")).
    - eapply (Hfin kana); [done| |done|done|auto].
      eapply acc_rewrite_two; [exact H | discriminate | auto | |];
        intros cur; right; unfold keihan_target; auto 10.
    - destruct (decide (py_len (py_chars kana) = 2));
        [|left; by injection H as <-].
      eapply (Hfin kana); [done| |done|done|auto].
      eapply acc_rewrite_two; [exact H | discriminate | auto | |];
        intros cur; right; unfold keihan_target; auto 10. }
  split; [done|].
  destruct (decide (pos = "動詞")) as [->|Hv].
  { apply bind_OK in H as (kana & Hkana & H). apply py_get_nat in Hkana.
    apply bind_OK in H as (acc1 & Hacc1 & H).
    destruct (decide (py_len (py_chars kana) = 2)) as [E2|E2].
    - rewrite decide_False in H by lia. injection H as <-.
      eapply (Hfin kana); [done| |done|done|auto].
      eapply acc_rewrite_two; [exact Hacc1 | discriminate | auto | |];
        intros cur; right; unfold keihan_target; auto 10.
    - injection Hacc1 as <-.
      destruct (decide (py_len (py_chars kana) = 3));
        [|left; by injection H as <-].
      eapply (Hfin kana); [done| |done|done|auto].
      eapply acc_rewrite_two; [exact H | discriminate | auto | |];
        intros cur; right; unfold keihan_target; auto 10. }
  destruct (decide (pos = "形容詞")) as [->|Ha]; [|left; by injection H as <-].
  apply bind_OK in H as (kana & Hkana & H). apply py_get_nat in Hkana.
  apply bind_OK in H as (acc1 & Hacc1 & H).
  destruct (decide (py_len (py_chars kana) = 2)) as [E2|E2].
  - rewrite decide_False in H by lia. injection H as <-.
    eapply (Hfin kana); [done| |done|done|auto].
    eapply acc_rewrite_one; [exact Hacc1 | auto |];
      intros cur; right; unfold keihan_target; auto 10.
  - injection Hacc1 as <-.
    destruct (decide (py_len (py_chars kana) = 3)) as [E3|E3];
      [|left; by injection H as <-].
    eapply (Hfin kana); [done| |done|done|auto].
    eapply acc_rewrite_two; [exact H | discriminate | auto | |];
      intros cur; right; unfold keihan_target;
      right; right; left; (split; [done | lia]).
Qed.

Lemma keihan_target_within (kana new : string) :
  keihan_target kana new → accent_within kana new.
Proof.
  unfold keihan_target, accent_within.
  intros [->|[->|[H|[H|H]]]]; [by left|..]; try destruct H as [-> H];
    right; right; eexists; (split; [vm_compute; reflexivity|]);
    unfold py_len in *; lia.
Qed.

(** The loop invariant, turn by turn. *)
Lemma keihan_loop_spec (sep_kata sep_pos : list string) (l : list nat)
    (sep_acc out : list string) :
  for_each l (keihan_step sep_kata sep_pos) sep_acc = OK out →
  length out = length sep_acc ∧
  (∀ (j : nat), j ∈ l → sep_pos !! j = Some "名詞" →
     ∃ kana, sep_kata !! j = Some kana ∧ 2 ≤ py_len (py_chars kana)) ∧
  (∀ (j : nat) acc', out !! j = Some acc' →
     sep_acc !! j = Some acc' ∨
     j ∈ l ∧
     (sep_pos !! j = Some "名詞" ∨ sep_pos !! j = Some "動詞"
      ∨ sep_pos !! j = Some "形容詞") ∧
     ∃ kana, sep_kata !! j = Some kana ∧ keihan_target kana acc').
Proof.
  revert sep_acc. induction l as [|i l IH]; intros sep_acc; simpl.
  - intros [= <-]. split; [done|]. split; [intros j Hj; inversion Hj | auto].
  - intros H. apply bind_OK in H as (acc1 & Hstep & H).
    destruct (IH _ H) as (Hlen & Hnoun & Hent).
    apply keihan_step_spec in Hstep as (pos & Hpos & Hn & Hch).
    assert (Hlen1 : length acc1 = length sep_acc).
    { destruct Hch as [->|(_ & kana & cur & new & _ & _ & -> & _)];
        [done | by rewrite length_insert]. }
    split; [congruence|]. split.
    + intros j Hj Hjn. apply elem_of_cons in Hj as [->|Hj]; [|by apply Hnoun].
      apply Hn. congruence.
    + intros j acc' Hj.
      destruct (Hent j acc' Hj) as [Hprev|(Hjl & Hpj & kana & Hk & Ht)].
      2:{ right. split; [by apply list_elem_of_further|]. eauto. }
      destruct Hch as [->|(Hp3 & kana & cur & new & Hk & Hc & -> & Hnew)];
        [by left|].
      destruct (decide (j = i)) as [->|Hne].
      * rewrite list_lookup_insert_eq in Hprev by (by eapply lookup_lt_Some).
        injection Hprev as <-.
        destruct Hnew as [->|Ht]; [by left|]. right.
        split; [apply list_elem_of_here|]. split; [|eauto].
        rewrite Hpos. destruct Hp3 as [-> | [-> | ->]]; auto.
      * rewrite list_lookup_insert_ne in Hprev by done. by left.
Qed.

(** X22. When [__keihan_patch] succeeds, the accent list keeps its length,
    only the codes of nouns, verbs and adjectives may have changed, and
    every noun has a reading of two characters or more (the second
    character of a noun's reading is read without a check, so a
    one-character noun raises [IndexError]). *)
Theorem keihan_patch_frame (sep_kata sep_acc sep_pos out : list string)
    (Hok : __keihan_patch sep_kata sep_acc sep_pos = OK out) :
  length out = length sep_acc ∧
  (∀ (i : nat), sep_pos !! i ≠ Some "名詞" → sep_pos !! i ≠ Some "動詞" →
     sep_pos !! i ≠ Some "形容詞" → out !! i = sep_acc !! i) ∧
  (∀ (i : nat), sep_pos !! i = Some "名詞" →
     ∃ kana, sep_kata !! i = Some kana ∧ 2 ≤ py_len (py_chars kana)).
Proof.
  unfold __keihan_patch in Hok.
  apply keihan_loop_spec in Hok as (Hlen & Hnoun & Hent).
  split; [done|]. split.
  - intros i H1 H2 H3.
    destruct (out !! i) as [acc'|] eqn:Ho.
    + destruct (Hent i acc' Ho) as [->|(_ & [?|[?|?]] & _)]; done.
    + apply lookup_ge_None in Ho. symmetry. apply lookup_ge_None. lia.
  - intros i Hi. apply Hnoun; [|done]. apply elem_of_seq.
    apply lookup_lt_Some in Hi. lia.
Qed.

Lemma keihan_patch_frame_witness :
  __keihan_patch ["アメ"; "ガ"; "フル"] ["0"; "0"; "1"] ["名詞"; "助詞"; "動詞"]
  = OK ["ALL_H"; "0"; "2"] ∧
  ∃ kana, ["アメ"; "ガ"; "フル"] !! 0%nat = Some kana
          ∧ 2 ≤ py_len (py_chars kana).
Proof.
  assert (H : __keihan_patch ["アメ"; "ガ"; "フル"] ["0"; "0"; "1"]
                ["名詞"; "助詞"; "動詞"] = OK ["ALL_H"; "0"; "2"])
    by reflexivity.
  split; [exact H|].
  exact (proj2 (proj2 (keihan_patch_frame _ _ _ _ H)) 0%nat eq_refl).
Defined.

(** X23. [__keihan_patch] keeps the accent codes within the readings: when
    every code it is given is a sentinel or a nucleus position between 0
    and the number of characters of its reading, so is every code it
    returns. *)
Theorem keihan_patch_within (sep_kata sep_acc sep_pos out : list string)
    (Hin : ∀ (i : nat) kana acc, sep_kata !! i = Some kana →
             sep_acc !! i = Some acc → accent_within kana acc)
    (Hok : __keihan_patch sep_kata sep_acc sep_pos = OK out) :
  ∀ (i : nat) kana acc, sep_kata !! i = Some kana → out !! i = Some acc →
    accent_within kana acc.
Proof.
  unfold __keihan_patch in Hok.
  apply keihan_loop_spec in Hok as (_ & _ & Hent).
  intros i kana acc Hk Ho.
  destruct (Hent i acc Ho) as [Hprev|(_ & _ & kana' & Hk' & Ht)].
  - by eapply Hin.
  - rewrite Hk in Hk'. injection Hk' as <-. by apply keihan_target_within.
Qed.

Lemma keihan_patch_within_witness :
  __keihan_patch ["アメ"; "フル"] ["0"; "1"] ["名詞"; "動詞"]
  = OK ["ALL_H"; "2"] ∧
  accent_within "フル" "2".
Proof.
  assert (H : __keihan_patch ["アメ"; "フル"] ["0"; "1"] ["名詞"; "動詞"]
              = OK ["ALL_H"; "2"]) by reflexivity.
  split; [exact H|].
  refine (keihan_patch_within _ _ _ _ _ H 1%nat "フル" "2" eq_refl eq_refl).
  intros [|[|i]] kana acc Hk Ha; simplify_eq/=;
    right; right; eexists; (split; [vm_compute; reflexivity|]);
    vm_compute; split; discriminate.
Defined.

(** ** [__intersperse] and the blank insertion of [get_text_onnx] *)

Lemma stride_indices_odd (n : nat) :
  stride_indices (n * 2 + 1) 1 2 = map (λ k, (1 + k * 2)%nat) (seq 0 n).
Proof.
  unfold stride_indices. do 2 f_equal.
  replace (n * 2 + 1 - 1 + 2 - 1)%nat with (1 + n * 2)%nat by lia.
  rewrite Nat.div_add by lia. reflexivity.
Qed.

Lemma intersperse_fill {A : Type} (item : A) (pre lst : list A) (m : nat) :
  foldl (λ r iv, <[iv.1 := iv.2]> r)
    (item :: flat_map (λ x, [x; item]) pre
          ++ replicate ((length lst + m) * 2) item)
    (zip (map (λ k, (1 + k * 2)%nat) (seq (length pre) (length lst))) lst)
  = item :: flat_map (λ x, [x; item]) (pre ++ lst)
         ++ replicate (m * 2) item.
Proof.
  revert pre. induction lst as [|x lst IH]; intros pre.
  - simpl. by rewrite app_nil_r.
  - cbn [length seq map zip zip_with foldl fst snd].
    assert (Hlen : length (flat_map (λ x, [x; item]) pre)
                   = (length pre * 2)%nat).
    { clear. induction pre as [|d pre IH]; simpl; [done|]. rewrite IH. lia. }
    replace ((S (length lst) + m) * 2)%nat
      with (S (S ((length lst + m) * 2))) by lia.
    cbn [replicate].
    replace (1 + length pre * 2)%nat with (S (length pre * 2)) by lia.
    cbn [insert list_insert].
    rewrite <- Hlen at 1.
    replace (length (flat_map (λ x0, [x0; item]) pre))
      with (length (flat_map (λ x0, [x0; item]) pre) + 0)%nat at 1 by lia.
    rewrite (insert_app_r (flat_map (λ x0, [x0; item]) pre)).
    cbn [insert list_insert].
    specialize (IH (pre ++ [x])).
    rewrite length_app, flat_map_app in IH. cbn [length flat_map] in IH.
    rewrite Nat.add_1_r in IH. rewrite app_nil_r in IH.
    rewrite <- !app_assoc in IH. cbn [app] in IH. exact IH.
Qed.

(** X24. [__intersperse] never raises and returns the items of the list
    with the blank before, between and after them: [2 * len(lst) + 1]
    elements, the list at the odd positions and the blank at the even
    ones. *)
Theorem intersperse_spec {A : Type} (lst : list A) (item : A) :
  ∃ out, __intersperse lst item = OK out ∧
    out = item :: flat_map (λ x, [x; item]) lst ∧
    length out = (2 * length lst + 1)%nat ∧
    (∀ k : nat, (k < length lst)%nat → out !! (2 * k + 1)%nat = lst !! k) ∧
    (∀ k : nat, (k ≤ length lst)%nat → out !! (2 * k)%nat = Some item).
Proof.
  unfold __intersperse, py_set_stride.
  rewrite length_replicate, stride_indices_odd.
  rewrite decide_True by (by rewrite length_map, length_seq).
  eexists. split; [reflexivity|].
  pose proof (intersperse_fill item [] lst 0) as H.
  cbn [flat_map app length] in H. rewrite Nat.add_0_r in H.
  cbn [replicate Nat.mul] in H. rewrite app_nil_r in H.
  replace (length lst * 2 + 1)%nat with (S (length lst * 2)) by lia.
  cbn [replicate]. rewrite H. clear H.
  split; [done|].
  assert (Hlook : ∀ k : nat,
            (item :: flat_map (λ x, [x; item]) lst) !! (2 * k + 1)%nat
            = lst !! k ∧
            ((k ≤ length lst)%nat →
             (item :: flat_map (λ x, [x; item]) lst) !! (2 * k)%nat
             = Some item)).
  { induction lst as [|x lst IH]; intros k.
    - simpl. split; [by destruct k | intros Hk].
      by replace k with 0%nat by lia.
    - destruct k as [|k]; [done|].
      replace (2 * S k + 1)%nat with (S (S (2 * k + 1))) by lia.
      replace (2 * S k)%nat with (S (S (2 * k))) by lia.
      simpl. destruct (IH k) as [H1 H2]. split; [done|].
      intros Hk. apply H2. lia. }
  split_and!.
  - simpl. f_equal. clear. induction lst as [|x lst IH]; simpl; [done|]. lia.
  - intros k _. apply Hlook.
  - intros k Hk. by apply Hlook.
Qed.

Lemma intersperse_spec_witness :
  ∃ out, __intersperse [5; 7] 0 = OK out ∧ out = [0; 5; 0; 7; 0].
Proof.
  destruct (intersperse_spec [5; 7] 0) as (out & H1 & H2 & _).
  exists out. split; [exact H1 | exact H2].
Defined.

Lemma double_loop (w : list Z) :
  foldl (λ w i, alter (λ v, v * 2) i w) w (seq 0 (length w))
  = map (λ v, v * 2) w.
Proof.
  assert (H : ∀ pre rest : list Z,
            foldl (λ w i, alter (λ v, v * 2) i w) (pre ++ rest)
                  (seq (length pre) (length rest))
            = pre ++ map (λ v, v * 2) rest).
  { intros pre rest. revert pre.
    induction rest as [|x rest IH]; intros pre; [done|].
    cbn [length seq foldl map].
    replace (alter (λ v, v * 2) (length pre) (pre ++ x :: rest))
      with ((pre ++ [x * 2]) ++ rest).
    2:{ rewrite <- app_assoc. simpl.
        replace (length pre) with (length pre + 0)%nat at 1 by lia.
        by rewrite alter_app_r. }
    specialize (IH (pre ++ [x * 2])).
    rewrite length_app in IH. simpl in IH. rewrite Nat.add_1_r in IH.
    rewrite IH, <- app_assoc. done. }
  apply (H [] w).
Qed.

Lemma py_sum_double (w : list Z) : py_sum (map (λ v, v * 2) w) = 2 * py_sum w.
Proof.
  induction w as [|x w IH]; [done|]. simpl. rewrite !py_sum_cons, IH. lia.
Qed.

(** X25. Inserting the blanks keeps word2ph in step with the phonemes:
    when [word2ph] is not empty and sums to the number of phonemes, the
    [add_blank] block of [get_text_onnx] succeeds, and the new word2ph
    sums to the number of phonemes after the insertion; an empty
    [word2ph] makes it raise [IndexError]. *)
Theorem get_text_onnx_add_blank_sum (phone tone language word2ph : list Z) :
  (word2ph ≠ [] → py_sum word2ph = py_len phone →
   ∃ phone' tone' language' word2ph',
     get_text_onnx_add_blank phone tone language word2ph
     = OK (phone', tone', language', word2ph') ∧
     py_sum word2ph' = py_len phone' ∧
     py_len phone' = 2 * py_len phone + 1 ∧
     length word2ph' = length word2ph) ∧
  (word2ph = [] →
   get_text_onnx_add_blank phone tone language word2ph = Raise IndexError).
Proof.
  unfold get_text_onnx_add_blank.
  destruct (intersperse_spec phone 0) as (p' & -> & _ & Hp & _).
  destruct (intersperse_spec tone 0) as (t' & -> & _).
  destruct (intersperse_spec language 0) as (l' & -> & _).
  cbn [mbind result_bind]. rewrite double_loop. split.
  - intros Hne Hsum. destruct word2ph as [|x w]; [done|].
    cbn [map]. unfold py_get. cbn. eexists _, _, _, _. split; [reflexivity|].
    rewrite !py_sum_cons in *. rewrite py_sum_double.
    unfold py_len in *. rewrite Hp. split_and!; [lia | lia|].
    cbn [length]. by rewrite length_map.
  - intros ->. reflexivity.
Qed.

Lemma get_text_onnx_add_blank_sum_witness :
  ∃ phone' tone' language' word2ph',
    get_text_onnx_add_blank [3; 8; 3] [0; 1; 0] [1; 1; 1] [1; 1; 1]
    = OK (phone', tone', language', word2ph') ∧
    py_sum word2ph' = py_len phone'.
Proof.
  destruct (proj1 (get_text_onnx_add_blank_sum [3; 8; 3] [0; 1; 0] [1; 1; 1]
                     [1; 1; 1]) ltac:(discriminate) eq_refl)
    as (p & t & l & w & H1 & H2 & _).
  exists p, t, l, w. split; [exact H1 | exact H2].
Defined.

(** ** [__yomikata_patch] *)

Lemma py_set_nat {A} (l l' : list A) (i : nat) (v : A) :
  py_set l (Z.of_nat i) v = OK l' → (i < length l)%nat ∧ l' = <[i := v]> l.
Proof.
  unfold py_set. destruct (decide (Z.of_nat i < 0)); [lia|].
  destruct (decide _) as [Hk|]; [|discriminate].
  rewrite Nat2Z.id. intros [= <-]. split; [lia | done].
Qed.

Section YomikataFacts.
Context (furigana : string → string).
Context (hira2kata : string → string).

Lemma yomikata_conversions_lengths (sep_text ct ck : list string) :
  yomikata_conversions furigana hira2kata sep_text = OK (ct, ck) →
  length ct = length ck.
Proof.
  unfold yomikata_conversions. intros H.
  eapply (for_each_inv (λ st : list string * list string,
                          length st.1 = length st.2)) in H; [done|done|].
  intros [t k] i [t' k'] Hst Hb. simpl in *.
  destruct (yomi_pattern_fullmatch i); [|by injection Hb as <- <-].
  inv_bind Hb. inv_bind Hb. injection Hb as <- <-.
  rewrite !length_app. simpl. lia.
Qed.

(** The inner loop, for the word [w] at [i]: the reading becomes the kana
    of the last conversion whose text is [w], and stays as it is when
    there is none. *)
Lemma yomikata_overwrite_spec (sep_text ct ck sep_kata out : list string)
    (i : nat) (w : string) :
  sep_text !! i = Some w →
  yomikata_overwrite sep_text ct ck sep_kata i = OK out →
  length out = length sep_kata ∧
  (∀ j : nat, j ≠ i → out !! j = sep_kata !! j) ∧
  (w ∉ ct → out = sep_kata) ∧
  (∀ ii : nat, ct !! ii = Some w →
     (∀ jj : nat, (ii < jj)%nat → ct !! jj ≠ Some w) →
     out !! i = ck !! ii).
Proof.
  intros Hw. unfold yomikata_overwrite.
  assert (Hgen : ∀ n (s out : list string),
    (n ≤ length ct)%nat →
    for_each (seq 0 n)
      (λ sep_kata ii,
         text ← py_get sep_text (Z.of_nat i);
         conv ← py_get ct (Z.of_nat ii);
         if decide (text = conv) then
           kana ← py_get ck (Z.of_nat ii);
           py_set sep_kata (Z.of_nat i) kana
         else OK sep_kata) s = OK out →
    length out = length s ∧
    (∀ j : nat, j ≠ i → out !! j = s !! j) ∧
    ((∀ ii : nat, (ii < n)%nat → ct !! ii ≠ Some w) → out = s) ∧
    (∀ ii : nat, (ii < n)%nat → ct !! ii = Some w →
       (∀ jj : nat, (ii < jj)%nat → (jj < n)%nat → ct !! jj ≠ Some w) →
       out !! i = ck !! ii)).
  { induction n as [|n IH]; intros s o Hn.
    - simpl. intros [= <-]. split_and!; [done | done | done | intros; lia].
    - rewrite seq_S, for_each_snoc. simpl. intros H.
      apply bind_OK in H as (s1 & Hs1 & H).
      destruct (IH s s1 ltac:(lia) Hs1) as (Hl & Hf & Hnone & Hlast).
      rewrite (py_get_lookup _ _ _ Hw) in H. simpl in H.
      destruct (lookup_lt_is_Some_2 ct n ltac:(lia)) as [c Hc].
      rewrite (py_get_lookup _ _ _ Hc) in H. simpl in H.
      destruct (decide (w = c)) as [<-|Hne].
      + apply bind_OK in H as (kana & Hkana & H).
        apply py_get_nat in Hkana. apply py_set_nat in H as [Hi ->].
        split_and!.
        * by rewrite length_insert.
        * intros j Hj. rewrite list_lookup_insert_ne by done. by apply Hf.
        * intros Hno. exfalso. by apply (Hno n ltac:(lia)).
        * intros ii Hii Hct Hafter.
          destruct (decide (ii = n)) as [->|Hne].
          -- by rewrite list_lookup_insert_eq, Hkana.
          -- exfalso. apply (Hafter n); [lia | lia | done].
      + injection H as <-. split_and!; [done | done | |].
        * intros Hno. apply Hnone. intros ii Hii. apply Hno. lia.
        * intros ii Hii Hct Hafter.
          assert (ii ≠ n) by (intros ->; congruence).
          apply Hlast; [lia | done|]. intros jj ? ?. apply Hafter; lia. }
  intros H. destruct (Hgen _ _ _ (Nat.le_refl _) H) as (Hl & Hf & Hnone & Hlast).
  split_and!; [done | done | |].
  - intros Hno. apply Hnone. intros ii _ Hii. apply Hno.
    by eapply list_elem_of_lookup_2.
  - intros ii Hct Hafter. apply Hlast; [by eapply lookup_lt_Some | done|].
    intros jj ? _. by apply Hafter.
Qed.

(** X26. When [__yomikata_patch] succeeds it returns as many readings as
    it was given; the reading of a word that the reader did not annotate
    is unchanged; and the reading of an annotated word is the kana of the
    last annotation of that word. *)
Theorem yomikata_patch_spec (sep_text sep_kata out : list string)
    (Hok : __yomikata_patch furigana hira2kata sep_text sep_kata = OK out) :
  ∃ convert_list_text convert_list_kana,
    yomikata_conversions furigana hira2kata sep_text
    = OK (convert_list_text, convert_list_kana) ∧
    length convert_list_text = length convert_list_kana ∧
    length out = length sep_kata ∧
    (∀ (i : nat), (length sep_text ≤ i)%nat → out !! i = sep_kata !! i) ∧
    (∀ (i : nat) w, sep_text !! i = Some w →
       (w ∉ convert_list_text → out !! i = sep_kata !! i) ∧
       (∀ ii : nat, convert_list_text !! ii = Some w →
          (∀ jj : nat, (ii < jj)%nat → convert_list_text !! jj ≠ Some w) →
          out !! i = convert_list_kana !! ii)).
Proof.
  unfold __yomikata_patch in Hok.
  apply bind_OK in Hok as ([ct ck] & Hconv & Hok).
  exists ct, ck. split; [done|].
  split; [by eapply yomikata_conversions_lengths|].
  assert (Hgen : ∀ n (s o : list string),
    (n ≤ length sep_text)%nat →
    for_each (seq 0 n) (yomikata_overwrite sep_text ct ck) s = OK o →
    length o = length s ∧
    (∀ i : nat, (n ≤ i)%nat → o !! i = s !! i) ∧
    (∀ (i : nat) w, (i < n)%nat → sep_text !! i = Some w →
       (w ∉ ct → o !! i = s !! i) ∧
       (∀ ii : nat, ct !! ii = Some w →
          (∀ jj : nat, (ii < jj)%nat → ct !! jj ≠ Some w) →
          o !! i = ck !! ii))).
  { induction n as [|n IH]; intros s o Hn.
    - simpl. intros [= <-]. split_and!; [done | done | intros; lia].
    - rewrite seq_S, for_each_snoc. simpl. intros H.
      apply bind_OK in H as (s1 & Hs1 & H).
      destruct (IH s s1 ltac:(lia) Hs1) as (Hl & Hrest & Hdone).
      destruct (lookup_lt_is_Some_2 sep_text n ltac:(lia)) as [w Hw].
      destruct (yomikata_overwrite_spec _ _ _ _ _ _ _ Hw H)
        as (Hl' & Hf & Hnone & Hlast).
      split_and!; [congruence | |].
      + intros i Hi. rewrite Hf by lia. apply Hrest. lia.
      + intros i w' Hi Hw'. destruct (decide (i = n)) as [->|Hne].
        * rewrite Hw in Hw'. injection Hw' as <-. split.
          -- intros Hno. rewrite (Hnone Hno). by apply Hrest.
          -- done.
        * rewrite Hf by done. apply Hdone; [lia | done]. }
  destruct (Hgen _ _ _ (Nat.le_refl _) Hok) as (Hl & Hrest & Hdone).
  split_and!; [done | done|].
  intros i w Hw. apply Hdone; [by eapply lookup_lt_Some | done].
Qed.
End YomikataFacts.

Lemma yomikata_patch_spec_witness :
  __yomikata_patch sample_furigana sample_hira2kata ["何"; "が"] ["ナン"; "ガ"]
  = OK ["ナニ"; "ガ"] ∧
  length ["ナニ"; "ガ"] = length ["ナン"; "ガ"].
Proof.
  assert (H : __yomikata_patch sample_furigana sample_hira2kata ["何"; "が"]
                ["ナン"; "ガ"] = OK ["ナニ"; "ガ"]) by reflexivity.
  split; [exact H|].
  destruct (yomikata_patch_spec _ _ _ _ _ H) as (ct & ck & _ & _ & Hl & _).
  exact Hl.
Defined.

(** ** [__fugashi_sep_kata] *)

Section FugashiFacts.
Context (PUNCTUATIONS : list string).
Context (run_frontend : string → list (string * string)).
Context (tagger : string → list (string * string)).

Lemma fugashi_word_lengths st word st' :
  fugashi_word PUNCTUATIONS run_frontend st word = OK st' →
  (length st.1.1.2 = length st.1.1.1 ∧ length st.1.2 = length st.1.1.1
   ∧ length st.2 = length st.1.1.1) →
  length st'.1.1.2 = length st'.1.1.1 ∧ length st'.1.2 = length st'.1.1.1
  ∧ length st'.2 = length st'.1.1.1.
Proof.
  destruct st as [[[wl kl] al] pl]. unfold fugashi_word. simpl.
  intros H (H1 & H2 & H3).
  destruct (decide (length _ = 29%nat)).
  { inv_bind H. inv_bind H. inv_bind H. injection H as <-. simpl.
    rewrite !length_app. simpl. lia. }
  destruct (match_class is_kana_or_latin _).
  { apply bind_OK in H as ([w k] & Hwk & H). injection H as <-. simpl.
    apply text_to_sep_kata_words in Hwk as [_ Hk].
    rewrite !length_app, !length_replicate. lia. }
  injection H as <-. simpl. rewrite !length_app. simpl. lia.
Qed.

Lemma fugashi_accent_length (al al' : list string) (i : nat) :
  fugashi_accent al i = OK al' → length al' = length al.
Proof.
  unfold fugashi_accent. intros H. inv_bind H.
  destruct (decide (_ = "*")).
  { apply py_set_nat in H as [_ ->]. by rewrite length_insert. }
  destruct (decide (length _ = 3%nat)); [|by injection H as <-].
  inv_bind H. apply py_set_nat in H as [_ ->]. by rewrite length_insert.
Qed.

(** X27. The four lists that [__fugashi_sep_kata] returns have the same
    length: one reading, one accent code and one part of speech per word,
    also for the words that it hands to [text_to_sep_kata]. *)
Theorem fugashi_sep_kata_lengths (text : string)
    (word_list kana_list accent_list pos_list : list string)
    (Hok : __fugashi_sep_kata PUNCTUATIONS run_frontend tagger text
           = OK (word_list, kana_list, accent_list, pos_list)) :
  length kana_list = length word_list ∧
  length accent_list = length word_list ∧
  length pos_list = length word_list.
Proof.
  unfold __fugashi_sep_kata in Hok.
  apply bind_OK in Hok as ([[[wl kl] al] pl] & Hloop & Hok).
  apply bind_OK in Hok as (al' & Hal & Hok). injection Hok as <- <- <- <-.
  eapply (for_each_inv
            (λ st : list string * list string * list string * list string,
               length st.1.1.2 = length st.1.1.1
               ∧ length st.1.2 = length st.1.1.1
               ∧ length st.2 = length st.1.1.1)) in Hloop.
  - simpl in Hloop. destruct Hloop as (H1 & H2 & H3).
    split_and!; [done| |done].
    rewrite <- H2. 
    eapply (for_each_rel (λ a b : list string, length b = length a));
      [done | congruence | | exact Hal].
    intros s i s'. apply fugashi_accent_length.
  - done.
  - intros s x s' Hs Hb. by eapply fugashi_word_lengths.
Qed.
End FugashiFacts.

Lemma fugashi_sep_kata_lengths_witness :
  __fugashi_sep_kata PUNCTUATIONS_ja sample_run_frontend sample_tagger "ア"
  = OK (["ア"], ["ア"], ["0"], ["未分類"]) ∧
  length ["0"] = length ["ア"].
Proof.
  assert (H : __fugashi_sep_kata PUNCTUATIONS_ja sample_run_frontend
                sample_tagger "ア"
              = OK (["ア"], ["ア"], ["0"], ["未分類"])) by reflexivity.
  split; [exact H|].
  exact (proj1 (proj2 (fugashi_sep_kata_lengths _ _ _ _ _ _ _ _ H))).
Defined.

(** ** [__hougen_patch] *)

Lemma same_shape_refl (st : hougen_state) : same_shape st st.
Proof. by split. Qed.

Lemma same_shape_trans (st1 st2 st3 : hougen_state) :
  same_shape st1 st2 → same_shape st2 st3 → same_shape st1 st3.
Proof. unfold same_shape. intros [] []. split; congruence. Qed.

Lemma py_set_length {A} (l l' : list A) (i : Z) (v : A) :
  py_set l i v = OK l' → length l' = length l.
Proof.
  unfold py_set. destruct (decide _); [|discriminate].
  intros [= <-]. by rewrite length_insert.
Qed.

Lemma update_kana_shape (st st' : hougen_state) (i : Z)
    (f : string → result string) :
  update_kana st i f = OK st' → same_shape st st'.
Proof.
  unfold update_kana. intros H. inv_bind H. inv_bind H. inv_bind H.
  injection H as <-. split; [by eapply py_set_length | done].
Qed.

Lemma set_acc_shape (st st' : hougen_state) (i : Z) (v : string) :
  set_acc st i v = OK st' → same_shape st st'.
Proof.
  unfold set_acc. intros H. inv_bind H. injection H as <-.
  split; [done | by eapply py_set_length].
Qed.

Lemma each_kana_shape (body : hougen_state → nat → result hougen_state)
    (st st' : hougen_state) :
  (∀ s i s', body s i = OK s' → same_shape s s') →
  each_kana body st = OK st' → same_shape st st'.
Proof.
  intros Hbody. unfold each_kana.
  apply (for_each_rel same_shape);
    [apply same_shape_refl | apply same_shape_trans | exact Hbody].
Qed.

(** Every way in which a block changes the state keeps the shape. *)
Ltac shape_step :=
  match goal with
  | H : OK _ = OK _ |- _ => injection H as <-
  | H : update_kana _ _ _ = OK _ |- _ => apply update_kana_shape in H
  | H : set_acc _ _ _ = OK _ |- _ => apply set_acc_shape in H
  | H : (_ ≫= _) = OK _ |- _ =>
      let a := fresh "a" in
      let Ha := fresh "Ha" in
      apply bind_OK in H as (a & Ha & H)
  | H : match ?x with _ => _ end = OK _ |- _ => destruct x eqn:?
  | H : (let '(_, _) := ?x in _) = OK _ |- _ => destruct x
  end.

Ltac shape_done :=
  repeat shape_step;
  try discriminate;
  first [ apply same_shape_refl
        | assumption
        | eapply same_shape_trans; eassumption ].

Lemma hougen_block_shape (sep_pos : list string) (name : string)
    (block : hougen_state → result hougen_state) (st st' : hougen_state) :
  (name, block) ∈ hougen_blocks sep_pos →
  block st = OK st' → same_shape st st'.
Proof.
  unfold hougen_blocks. intros Hin.
  repeat (apply elem_of_cons in Hin as [Hin|Hin];
          [injection Hin as -> ->; intros H|]);
    [..|by apply elem_of_nil in Hin].
  all: try (apply each_kana_shape in H; [exact H|]; clear; intros s i s' H).
  - unfold hougen_kyusyu in H. shape_done.
  - unfold hougen_kinki in H. shape_done.
  - unfold hougen_replace in H. shape_done.
  - unfold hougen_replace in H. shape_done.
  - unfold hougen_replace_acc, hougen_replace in H. shape_done.
  - unfold hougen_replace_acc, hougen_replace in H. shape_done.
  - unfold hougen_replace_acc, hougen_replace in H. shape_done.
  - unfold hougen_hatuonbin in H. shape_done.
  - unfold hougen_replace in H. shape_done.
  - unfold hougen_add_youon_nucleus in H. shape_done.
  - unfold hougen_add_youon_i in H. shape_done.
  - unfold hougen_add_youon_nucleus in H. shape_done.
  - unfold hougen_add_youon_o in H. shape_done.
  - unfold hougen_first_mora in H. shape_done.
  - unfold hougen_first_mora in H. shape_done.
  - unfold hougen_first_mora_remove in H. shape_done.
  - unfold hougen_first_mora_renboin in H. shape_done.
  - unfold hougen_last_mora_acc_h in H. shape_done.
  - unfold hougen_last_word_acc_1 in H. shape_done.
Qed.

(** X28. When [__hougen_patch] succeeds, both lists keep their length; and
    when no name of a dialect rule is in [hougen_id] (the empty list
    included), it returns the readings and the accent codes as they
    are. *)
Theorem hougen_patch_frame (sep_kata sep_acc sep_pos hougen_id : list string) :
  (∀ sep_kata' sep_acc',
     __hougen_patch sep_kata sep_acc sep_pos hougen_id
     = OK (sep_kata', sep_acc') →
     length sep_kata' = length sep_kata ∧ length sep_acc' = length sep_acc) ∧
  ((∀ name, name ∈ (hougen_blocks sep_pos).*1 → name ∉ hougen_id) →
   __hougen_patch sep_kata sep_acc sep_pos hougen_id
   = OK (sep_kata, sep_acc)).
Proof.
  unfold __hougen_patch. split.
  - intros sep_kata' sep_acc' H.
    assert (Hgen : ∀ (blocks : list (string * (hougen_state
                                                → result hougen_state)))
                     (st st' : hougen_state),
              (∀ b, b ∈ blocks → b ∈ hougen_blocks sep_pos) →
              for_each blocks
                (λ st block,
                   if str_in block.1 hougen_id then block.2 st else OK st)
                st = OK st' →
              same_shape st st').
    { induction blocks as [|[name block] blocks IH]; intros st st' Hsub;
        simpl.
      - intros [= <-]. apply same_shape_refl.
      - intros Hb. apply bind_OK in Hb as (st1 & Hst1 & Hb).
        eapply same_shape_trans.
        + destruct (str_in name hougen_id).
          * eapply (hougen_block_shape sep_pos name block);
              [apply Hsub, list_elem_of_here | exact Hst1].
          * injection Hst1 as <-. apply same_shape_refl.
        + apply IH; [|exact Hb]. intros b Hin.
          by apply Hsub, list_elem_of_further. }
    exact (Hgen _ _ _ (λ b Hb, Hb) H).
  - generalize (hougen_blocks sep_pos). intros blocks Hno.
    generalize (sep_kata, sep_acc). intros st.
    induction blocks as [|[name block] blocks IH]; simpl; [done|].
    assert (Hskip : str_in name hougen_id = false).
    { apply bool_decide_eq_false_2, Hno. simpl. apply list_elem_of_here. }
    rewrite Hskip. simpl. apply IH. intros n Hn. apply Hno. simpl.
    by apply list_elem_of_further.
Qed.

Lemma hougen_patch_frame_witness :
  __hougen_patch ["ベンキョー"; "ダ"] ["0"; "1"] ["名詞"; "助動詞"]
                 ["convert2b2v"]
  = OK (["ヴェンキョー"; "ダ"], ["0"; "1"]) ∧
  length ["ヴェンキョー"; "ダ"] = length ["ベンキョー"; "ダ"].
Proof.
  assert (H : __hougen_patch ["ベンキョー"; "ダ"] ["0"; "1"]
                ["名詞"; "助動詞"] ["convert2b2v"]
              = OK (["ヴェンキョー"; "ダ"], ["0"; "1"])) by reflexivity.
  split; [exact H|].
  exact (proj1 (proj1 (hougen_patch_frame _ _ _ _) _ _ H)).
Defined.

(** X29. On an empty list of readings [__hougen_patch] raises
    [IndexError] as soon as one of the rules on the first or the last
    word is asked for ([1st_mora_tyouon], [1st_mora_sokuon],
    [1st_mora_remove], [1st_mora_renboin], [last_mora_acc_h]), and also
    for [last_word_acc_1] when there is no accent code either; with none
    of these six it returns the two lists as they are. *)
Theorem hougen_patch_empty (sep_acc sep_pos hougen_id : list string) :
  ((∃ name, name ∈ ["1st_mora_tyouon"; "1st_mora_sokuon"; "1st_mora_remove";
                    "1st_mora_renboin"; "last_mora_acc_h"]
            ∧ name ∈ hougen_id) →
   __hougen_patch [] sep_acc sep_pos hougen_id = Raise IndexError) ∧
  ("last_word_acc_1" ∈ hougen_id → sep_acc = [] →
   __hougen_patch [] sep_acc sep_pos hougen_id = Raise IndexError) ∧
  ((∀ name, name ∈ ["1st_mora_tyouon"; "1st_mora_sokuon"; "1st_mora_remove";
                    "1st_mora_renboin"; "last_mora_acc_h";
                    "last_word_acc_1"] → name ∉ hougen_id) →
   __hougen_patch [] sep_acc sep_pos hougen_id = OK ([], sep_acc)).
Proof.
  assert (Hloop : ∀ body (b : bool),
            (if b then each_kana body (([], sep_acc) : hougen_state)
             else OK ([], sep_acc)) = OK ([], sep_acc)).
  { intros body []; reflexivity. }
  assert (Hrun : __hougen_patch [] sep_acc sep_pos hougen_id
    = if str_in "1st_mora_tyouon" hougen_id then Raise IndexError
      else if str_in "1st_mora_sokuon" hougen_id then Raise IndexError
      else if str_in "1st_mora_remove" hougen_id then Raise IndexError
      else if str_in "1st_mora_renboin" hougen_id then Raise IndexError
      else if str_in "last_mora_acc_h" hougen_id then Raise IndexError
      else if str_in "last_word_acc_1" hougen_id
           then hougen_last_word_acc_1 ([], sep_acc)
           else OK ([], sep_acc)).
  { unfold __hougen_patch, hougen_blocks. cbn [for_each fst snd].
    do 13 (rewrite Hloop; cbn [mbind result_bind]).
    destruct (str_in "1st_mora_tyouon" hougen_id); [reflexivity|].
    cbn [mbind result_bind].
    destruct (str_in "1st_mora_sokuon" hougen_id); [reflexivity|].
    cbn [mbind result_bind].
    destruct (str_in "1st_mora_remove" hougen_id); [reflexivity|].
    cbn [mbind result_bind].
    destruct (str_in "1st_mora_renboin" hougen_id); [reflexivity|].
    cbn [mbind result_bind].
    destruct (str_in "last_mora_acc_h" hougen_id); [reflexivity|].
    cbn [mbind result_bind].
    destruct (str_in "last_word_acc_1" hougen_id); [|reflexivity].
    by destruct (hougen_last_word_acc_1 ([], sep_acc)). }
  rewrite Hrun. clear Hrun Hloop. unfold str_in. split_and!.
  - intros (name & Hname & Hin).
    repeat (apply elem_of_cons in Hname as [->|Hname];
            [rewrite ?(bool_decide_eq_true_2 _ Hin);
             repeat (case_bool_decide; [reflexivity|]); done|]).
    by apply elem_of_nil in Hname.
  - intros Hin ->. rewrite (bool_decide_eq_true_2 _ Hin).
    repeat (case_bool_decide; [reflexivity|]). reflexivity.
  - intros Hno.
    rewrite !bool_decide_eq_false_2; [reflexivity|..];
      apply Hno; by_elem.
Qed.

Lemma hougen_patch_empty_witness :
  __hougen_patch [] ["0"] [] ["kinki"; "1st_mora_tyouon"] = Raise IndexError.
Proof.
  apply (proj1 (hougen_patch_empty ["0"] [] ["kinki"; "1st_mora_tyouon"])).
  exists "1st_mora_tyouon". split; by_elem.
Defined.

(** ** [__kata_to_phoneme_list] *)

Lemma py_chars_nonempty (s c : string) : c ∈ py_chars s → c ≠ "".
Proof.
  destruct s as [|a s]; [intros H; inversion H|].
  destruct (py_chars_head a s) as (t & cs & Heq & _ & _).
  revert c. cut (Forall (λ c, c ≠ "") (py_chars (String a s))).
  { intros H c Hc. rewrite Forall_forall in H. by apply H. }
  clear t cs Heq. revert a. induction s as [|b s IH]; intros a.
  - repeat constructor. discriminate.
  - rewrite py_chars_cons. specialize (IH b).
    destruct (utf8_cont b).
    + destruct (py_chars (String b s)) as [|c cs]; [repeat constructor; discriminate|].
      apply Forall_cons in IH as [_ IH]. constructor; [discriminate | done].
    + constructor; [discriminate | done].
Qed.

Lemma py_chars_not_nil (s : string) : s ≠ "" → py_chars s ≠ [].
Proof.
  destruct s as [|a s]; [done|]. intros _.
  destruct (py_chars_head a s) as (t & cs & -> & _). discriminate.
Qed.

Lemma is_katakana_plain (c : string) : is_katakana c = true → plain_char c.
Proof.
  unfold plain_char, is_katakana, is_space. intros H. split.
  - intros ->. discriminate.
  - revert H. generalize (code_point c). intros cp H.
    apply andb_true_iff in H as [H1 H2].
    apply N.leb_le in H1. apply N.leb_le in H2.
    apply orb_false_iff. split; [apply orb_false_iff; split|].
    + apply N.eqb_neq. lia.
    + apply andb_false_iff. right. apply N.leb_gt. lia.
    + apply N.eqb_neq. lia.
Qed.

Lemma is_word_char_plain (c : string) : is_word_char c = true → plain_char c.
Proof.
  unfold plain_char, is_word_char, is_space. intros H. split.
  - intros ->. discriminate.
  - revert H. generalize (code_point c). intros cp H.
    repeat match type of H with
    | (_ || _) = true => apply orb_true_iff in H as [H|H]
    | (_ && _) = true =>
        let H1 := fresh in apply andb_true_iff in H as [H1 H]
    end;
    repeat match goal with
    | H : (_ <=? _)%N = true |- _ => apply N.leb_le in H
    | H : (_ =? _)%N = true |- _ => apply N.eqb_eq in H
    | H : (_ && _) = true |- _ =>
        let H1 := fresh in apply andb_true_iff in H as [H1 H]
    end;
    (apply orb_false_iff; split; [apply orb_false_iff; split|];
     [apply N.eqb_neq; lia
     | apply andb_false_iff;
       first [left; apply N.leb_gt; lia | right; apply N.leb_gt; lia]
     | apply N.eqb_neq; lia]).
Qed.

Lemma plain_char_not_space (c : string) : plain_char c → c ≠ " ".
Proof. intros [_ H] ->. discriminate. Qed.

Lemma well_spaced_app (l1 l2 : list string) :
  well_spaced l1 → well_spaced l2 → well_spaced (l1 ++ l2).
Proof.
  intros H1 H2. induction H1; simpl; [done|..]; by constructor.
Qed.

Lemma well_spaced_plain (l : list string) :
  Forall plain_char l → well_spaced l.
Proof. induction 1; by constructor. Qed.

(** A space before characters that are not white space. *)
Lemma well_spaced_word (l : list string) :
  l ≠ [] → Forall plain_char l → well_spaced (" " :: l).
Proof.
  intros Hne Hl. destruct Hl as [|c l Hc Hl]; [done|].
  apply well_spaced_space; [done|]. by apply well_spaced_plain.
Qed.

Section KataFacts.
Context (PUNCTUATIONS : list string).
Context (MORA : list (string * (option string * string))).

Lemma mora_alternatives_table e :
  e ∈ mora_alternatives MORA → e ∈ MORA.
Proof.
  unfold mora_alternatives. intros H.
  apply list_elem_of_In, in_flat_map in H as (n & _ & H).
  apply list_elem_of_In, list_elem_of_filter in H as [_ H]. done.
Qed.

Lemma mora2phonemes_spaced e :
  mora_table_plain MORA → e ∈ MORA → well_spaced (mora2phonemes e).
Proof.
  intros Hwf He. destruct e as [k [c v]].
  destruct (Hwf k c v He) as (Hv & Hvp & Hc).
  unfold mora2phonemes. simpl. destruct c as [c'|].
  - destruct (Hc c' eq_refl) as [Hc' Hcp].
    change (" " :: py_chars c' ++ " " :: py_chars v)
      with ((" " :: py_chars c') ++ (" " :: py_chars v)).
    apply well_spaced_app; apply well_spaced_word;
      auto using py_chars_not_nil.
  - apply well_spaced_word; auto using py_chars_not_nil.
Qed.

Lemma mora_sub_spaced (text : list string) (skip : nat) :
  mora_table_plain MORA → Forall (λ c, is_katakana c = true) text →
  well_spaced (mora_sub MORA text skip).
Proof.
  intros Hwf Htext. revert skip.
  induction Htext as [|c rest Hc Hrest IH]; intros skip; simpl;
    [constructor|].
  destruct skip as [|k]; [|apply IH].
  destruct (find _ _) as [e|] eqn:Hfind.
  - apply well_spaced_app; [|apply IH].
    apply mora2phonemes_spaced; [done|].
    apply find_some in Hfind as [Hin _].
    by apply mora_alternatives_table, list_elem_of_In.
  - apply well_spaced_char; [by apply is_katakana_plain | apply IH].
Qed.

Lemma mora_sub_not_nil (text : list string) :
  text ≠ [] → mora_sub MORA text 0 ≠ [].
Proof.
  destruct text as [|c rest]; [done|]. intros _. simpl.
  destruct (find _ _) as [e|]; [|discriminate].
  destruct e as [k [[c'|] v]]; discriminate.
Qed.

Lemma long_sub_spaced (s : list string) (cur : option string) :
  well_spaced s → (∀ g, cur = Some g → plain_char g) →
  well_spaced (long_sub s cur).
Proof.
  intros Hs. revert cur.
  assert (Hstart : ∀ c rest,
            plain_char c →
            (∀ cur, (∀ g, cur = Some g → plain_char g) →
                    well_spaced (long_sub rest cur)) →
            well_spaced (if is_word_char c then c :: long_sub rest (Some c)
                         else c :: long_sub rest None)).
  { intros c rest Hc Hrest. destruct (is_word_char c).
    - apply well_spaced_char; [done|]. apply Hrest. by intros g [= <-].
    - apply well_spaced_char; [done|]. apply Hrest. discriminate. }
  induction Hs as [|c l Hc Hl IH|c l Hc Hl IH]; intros cur Hcur.
  - constructor.
  - cbn [long_sub]. destruct cur as [g|]; [|by apply Hstart].
    destruct (decide (c = long_mark)); [|by apply Hstart].
    apply well_spaced_space; [by apply Hcur|]. by apply IH.
  - assert (Hsp : ∀ cur', long_sub (" " :: c :: l) cur'
                          = " " :: long_sub (c :: l) None).
    { intros [g|]; reflexivity. }
    rewrite Hsp. cbn [long_sub].
    destruct (is_word_char c).
    + apply well_spaced_space; [done|]. apply IH. by intros g [= <-].
    + apply well_spaced_space; [done|]. apply IH. discriminate.
Qed.

Lemma long_sub_not_nil (s : list string) (cur : option string) :
  s ≠ [] → long_sub s cur ≠ [].
Proof.
  destruct s as [|c rest]; [done|]. intros _. cbn [long_sub].
  destruct cur as [g|].
  - destruct (decide (c = long_mark)); [discriminate|].
    destruct (is_word_char c); discriminate.
  - destruct (is_word_char c); discriminate.
Qed.

Lemma well_spaced_last (l : list string) :
  well_spaced l → ∀ x, last l = Some x → plain_char x.
Proof.
  induction 1 as [|c l Hc Hl IH|c l Hc Hl IH]; intros x.
  - discriminate.
  - destruct l as [|y l']; [by intros [= <-] | apply IH].
  - destruct l as [|y l']; [by intros [= <-] | apply IH].
Qed.

(** Stripping such characters leaves them headed by a character that is
    not white space, and spaced as before. *)
Lemma py_strip_spaced (l : list string) :
  well_spaced l → l ≠ [] →
  ∃ c l', py_strip l = c :: l' ∧ plain_char c ∧ well_spaced l'.
Proof.
  intros Hl Hne.
  set (lstrip := fix go (l : list string) : list string :=
         match l with
         | c :: l' => if is_space c then go l' else l
         | [] => []
         end).
  assert (Hhead : ∃ c l', lstrip l = c :: l' ∧ plain_char c ∧ well_spaced l').
  { destruct Hl as [|c l Hc Hl|c l Hc Hl]; [done|..].
    - exists c, l. simpl. destruct Hc as [? Hs]. rewrite Hs. done.
    - exists c, l. simpl. destruct Hc as [? Hs]. rewrite Hs. done. }
  destruct Hhead as (c & l' & Hls & Hc & Hl').
  assert (Hws : well_spaced (c :: l')) by (by constructor).
  assert (Hback : lstrip (reverse (c :: l')) = reverse (c :: l')).
  { destruct (reverse (c :: l')) as [|x r] eqn:Hr; [done|].
    assert (Hx : last (c :: l') = Some x).
    { rewrite <- (reverse_involutive (c :: l')), Hr, reverse_cons.
      apply last_snoc. }
    destruct (well_spaced_last _ Hws x Hx) as [_ Hs]. simpl. by rewrite Hs. }
  exists c, l'. split; [|done].
  unfold py_strip. fold lstrip. by rewrite Hls, Hback, reverse_involutive.
Qed.

Lemma py_split_space_nonempty (l : list string) (cur : string) :
  well_spaced l → cur ≠ "" →
  Forall (λ s, s ≠ "") (py_split_space l cur).
Proof.
  intros Hl. revert cur.
  assert (Happ : ∀ cur c : string, c ≠ "" → cur +:+ c ≠ "").
  { intros cur c Hc. destruct cur; [done | discriminate]. }
  induction Hl as [|c l Hc Hl IH|c l Hc Hl IH]; intros cur Hcur; simpl.
  - by repeat constructor.
  - rewrite decide_False by (by apply plain_char_not_space).
    apply IH, Happ, Hc.
  - constructor; [done|].
    rewrite decide_False by (by apply plain_char_not_space).
    apply IH, Happ, Hc.
Qed.

Lemma py_split_space_not_nil (l : list string) (cur : string) :
  py_split_space l cur ≠ [].
Proof.
  revert cur. induction l as [|c l IH]; intros cur; simpl; [discriminate|].
  destruct (decide (c = " ")); [discriminate | apply IH].
Qed.

(** X30. [__kata_to_phoneme_list] returns the characters of a text made
    of punctuation only (of the empty text, none), raises [ValueError] for
    any other text that has a character outside the katakana block, and
    for a katakana text returns at least one symbol; with a mora table
    whose phonemes are not empty and hold no white space, none of these
    symbols is empty. *)
Theorem kata_to_phoneme_list_domain (text : string) :
  let kata := __kata_to_phoneme_list PUNCTUATIONS MORA in
  let cs := py_chars text in
  (Forall (λ c, c ∈ PUNCTUATIONS) cs → kata text = OK cs) ∧
  (¬ Forall (λ c, c ∈ PUNCTUATIONS) cs →
   ¬ Forall (λ c, is_katakana c = true) cs →
   kata text = Raise ValueError) ∧
  (¬ Forall (λ c, c ∈ PUNCTUATIONS) cs →
   Forall (λ c, is_katakana c = true) cs →
   ∃ l, kata text = OK l ∧ l ≠ [] ∧
        (mora_table_plain MORA → Forall (λ s, s ≠ "") l)).
Proof.
  cbv zeta. unfold __kata_to_phoneme_list, kata_chars_to_phoneme_list.
  generalize (py_chars text). intros cs.
  assert (Hp : forallb (λ c, str_in c PUNCTUATIONS) cs = true
               ↔ Forall (λ c, c ∈ PUNCTUATIONS) cs).
  { rewrite forallb_forall, Forall_forall. unfold str_in.
    split; intros H c Hc.
    - eapply bool_decide_eq_true_1, H. by apply list_elem_of_In.
    - apply bool_decide_eq_true_2, H. by apply list_elem_of_In. }
  assert (Hk : forallb is_katakana cs = true
               ↔ Forall (λ c, is_katakana c = true) cs).
  { rewrite forallb_forall, Forall_forall.
    split; intros H c Hc; apply H; by apply list_elem_of_In. }
  split_and!.
  - intros H. apply Hp in H. by rewrite H.
  - intros H1 H2.
    destruct (forallb (λ c, str_in c PUNCTUATIONS) cs) eqn:E1;
      [by destruct H1; apply Hp|].
    destruct (forallb is_katakana cs) eqn:E2; [by destruct H2; apply Hk|].
    reflexivity.
  - intros H1 H2.
    destruct (forallb (λ c, str_in c PUNCTUATIONS) cs) eqn:E1;
      [by destruct H1; apply Hp|].
    apply Hk in H2 as E2. rewrite E2. cbn [negb].
    eexists. split; [reflexivity|]. split.
    + apply py_split_space_not_nil.
    + intros Hwf.
      assert (Hne : cs ≠ []) by (intros ->; discriminate).
      destruct (py_strip_spaced (long_sub (mora_sub MORA cs 0) None))
        as (c & l' & -> & Hc & Hl').
      * apply long_sub_spaced; [by apply mora_sub_spaced | discriminate].
      * by apply long_sub_not_nil, mora_sub_not_nil.
      * simpl. rewrite decide_False by (by apply plain_char_not_space).
        apply py_split_space_nonempty; [done|]. apply Hc.
Qed.
End KataFacts.

Lemma MORA_ja_plain : mora_table_plain MORA_ja.
Proof.
  assert (Hplain : ∀ v, v ≠ "" → forallb (λ x, negb (is_space x)) (py_chars v) = true →
                        v ≠ "" ∧ Forall plain_char (py_chars v)).
  { intros v Hv H. split; [done|]. apply Forall_forall. intros x Hx. split.
    - by apply (py_chars_nonempty v).
    - rewrite forallb_forall in H. apply negb_true_iff, H.
      by apply list_elem_of_In. }
  intros k c v H. unfold MORA_ja in H.
  repeat (apply elem_of_cons in H as [H|H]; [shelve|]).
  { inversion H. }
  Unshelve.
  all: injection H as -> -> ->.
  all: split_and!; [discriminate | by apply Hplain |].
  all: intros c' Hc; first [discriminate Hc | injection Hc as <-; by apply Hplain].
Qed.

Lemma kata_to_phoneme_list_domain_witness :
  (∃ l, __kata_to_phoneme_list PUNCTUATIONS_ja MORA_ja "カー" = OK l ∧
        l ≠ [] ∧ Forall (λ s, s ≠ "") l) ∧
  __kata_to_phoneme_list PUNCTUATIONS_ja MORA_ja "!?" = OK ["!"; "?"] ∧
  __kata_to_phoneme_list PUNCTUATIONS_ja MORA_ja "カ!" = Raise ValueError.
Proof.
  destruct (kata_to_phoneme_list_domain PUNCTUATIONS_ja MORA_ja "カー")
    as (_ & _ & H0).
  destruct (kata_to_phoneme_list_domain PUNCTUATIONS_ja MORA_ja "!?")
    as (H1 & _ & _).
  destruct (kata_to_phoneme_list_domain PUNCTUATIONS_ja MORA_ja "カ!")
    as (_ & H2 & _).
  split_and!.
  - destruct H0 as (l & Hl & Hne & Hsym).
    + intros H. apply Forall_cons in H as [H _]. vm_compute in H. no_elem H.
    + vm_compute. by repeat constructor.
    + exists l. split_and!; [done | done | apply Hsym, MORA_ja_plain].
  - apply H1. vm_compute. repeat constructor; by_elem.
  - apply H2.
    + intros H. apply Forall_cons in H as [H _]. vm_compute in H. no_elem H.
    + intros H. apply Forall_cons in H as [_ H].
      apply Forall_cons in H as [H _]. discriminate.
Defined.
